(** * Hand recorder: the hand-state derivation engine

    A shallow embedding of the pure computations of the NLH hand recorder
    (types/index.ts, components/ActionInput.tsx, utils/clipboard.ts and the
    action handlers of pages/HandEditor.tsx and pages/Home.tsx).

    Conventions of the embedding:
    - a JavaScript [number] holding a chip amount is a rational [Q]; sums,
      products and comparisons are the exact ones; where a result depends on
      the rounding of the additions (the pot-fraction sizes), the module
      [Binary64] repeats the computation on IEEE 754 binary64 numbers;
    - [Action.order] and table sizes are integers [Z];
    - an optional field ([sizeBb?: number]) is an [option];
    - a [Record<string, number>] used as a map is an association list kept
      in insertion order, which is the order [Object.values] enumerates;
    - every [useMemo] of the component is a function of its dependencies. *)

From Stdlib Require Import ZArith QArith Qround Lqa Lia.
From Stdlib Require Import String Ascii Bool List Permutation Sorted.
From Stdlib Require DecimalString SpecFloat.
Import ListNotations.

Local Open Scope string_scope.
Local Open Scope list_scope.
Local Open Scope Z_scope.

(** ** types/index.ts *)

Inductive BlindLevel : Set := Blind_05_1 | Blind_1_1 | Blind_1_2.

Inductive Street : Set := preflop | flop | turn | river.

Inductive ActionType : Set := FOLD | CHECK | CALL | BET | RAISE | ALLIN.

Inductive Position : Set := UTG | UTG1 | LJ | HJ | CO | BTN | SB | BB.

Record Action : Set := mkAction {
  id : string;
  order : Z;
  street : Street;
  position : Position;
  type : ActionType;
  sizeBb : option Q
}.

Definition Street_eqb (a b : Street) : bool :=
  match a, b with
  | preflop, preflop | flop, flop | turn, turn | river, river => true
  | _, _ => false
  end.

Definition ActionType_eqb (a b : ActionType) : bool :=
  match a, b with
  | FOLD, FOLD | CHECK, CHECK | CALL, CALL
  | BET, BET | RAISE, RAISE | ALLIN, ALLIN => true
  | _, _ => false
  end.

Definition Position_eqb (a b : Position) : bool :=
  match a, b with
  | UTG, UTG | UTG1, UTG1 | LJ, LJ | HJ, HJ
  | CO, CO | BTN, BTN | SB, SB | BB, BB => true
  | _, _ => false
  end.

(** [POSITIONS_BY_TABLE_SIZE[n]], [undefined] being [None]. *)
Definition POSITIONS_BY_TABLE_SIZE (n : Z) : option (list Position) :=
  match n with
  | 2 => Some [BTN; BB]
  | 3 => Some [BTN; SB; BB]
  | 4 => Some [UTG; BTN; SB; BB]
  | 5 => Some [UTG; CO; BTN; SB; BB]
  | 6 => Some [UTG; HJ; CO; BTN; SB; BB]
  | 7 => Some [UTG; LJ; HJ; CO; BTN; SB; BB]
  | 8 => Some [UTG; UTG1; LJ; HJ; CO; BTN; SB; BB]
  | 9 => Some [UTG; UTG1; LJ; HJ; CO; BTN; SB; BB]
  | _ => None
  end.

Definition PREFLOP_ACTION_ORDER (n : Z) : option (list Position) :=
  match n with
  | 2 => Some [BTN; BB]
  | 3 => Some [BTN; SB; BB]
  | 4 => Some [UTG; BTN; SB; BB]
  | 5 => Some [UTG; CO; BTN; SB; BB]
  | 6 => Some [UTG; HJ; CO; BTN; SB; BB]
  | 7 => Some [UTG; LJ; HJ; CO; BTN; SB; BB]
  | 8 => Some [UTG; UTG1; LJ; HJ; CO; BTN; SB; BB]
  | 9 => Some [UTG; UTG1; LJ; HJ; CO; BTN; SB; BB]
  | _ => None
  end.

Definition POSTFLOP_ACTION_ORDER (n : Z) : option (list Position) :=
  match n with
  | 2 => Some [BB; BTN]
  | 3 => Some [SB; BB; BTN]
  | 4 => Some [SB; BB; UTG; BTN]
  | 5 => Some [SB; BB; UTG; CO; BTN]
  | 6 => Some [SB; BB; UTG; HJ; CO; BTN]
  | 7 => Some [SB; BB; UTG; LJ; HJ; CO; BTN]
  | 8 => Some [SB; BB; UTG; UTG1; LJ; HJ; CO; BTN]
  | 9 => Some [SB; BB; UTG; UTG1; LJ; HJ; CO; BTN]
  | _ => None
  end.

(** [{ label, value }] presets; the labels are display text only. *)
Definition PREFLOP_SIZE_PRESETS : list Q :=
  [2; 2.5; 3; 3.5; 4; -1]%Q.

Definition POSTFLOP_SIZE_PRESETS : list Q :=
  [0.25; 0.33; 0.5; 0.67; 1]%Q.

Definition DEFAULT_lastTableSize : Z := 6.

(** A card is the two-character string [`${rank}${suit}`]. *)
Definition Card : Set := string.

Definition RANKS : list string :=
  ["A"; "K"; "Q"; "J"; "T"; "9"; "8"; "7"; "6"; "5"; "4"; "3"; "2"].

Definition SUITS : list string := ["s"; "h"; "d"; "c"].

Module Player.
Record t : Set := mk {
  id : string;
  name : string;
  tags : list string;
  note : string;
  lastSeenAt : Z
}.
End Player.

(** [stackBb] is read by the action input although the interface of
    types/index.ts does not declare it. *)
Module TableAssignment.
Record t : Set := mk {
  playerId : option string;
  isHero : option bool;
  stackBb : option Q
}.
(** The empty object [{}]. *)
Definition empty : t := mk None None None.
End TableAssignment.

Module Board.
Record t : Set := mk {
  flop : option Card * option Card * option Card;
  turn : option Card;
  river : option Card
}.
End Board.

Module HandResult.
Record t : Set := mk {
  winnersPositions : list Position;
  showdown : bool
}.
End HandResult.

Inductive HandStatus : Set := draft | done.

(** A [Record<string, V>] keyed by seat, in insertion order. *)
Definition BySeat (V : Type) : Type := list (Position * V).

Module Hand.
Record t : Type := mk {
  id : string;
  status : HandStatus;
  createdAt : Z;
  updatedAt : Z;
  tableSize : Z;
  blind : BlindLevel;
  heroPosition : Position;
  heroCards : option Card * option Card;
  tableAssignments : BySeat TableAssignment.t;
  board : Board.t;
  actions : list Action;
  result : HandResult.t;
  opponentHands : option (BySeat (option Card * option Card));
  spotMemo : string
}.
End Hand.

Module AppSettings.
Record t : Set := mk {
  lastBlind : BlindLevel;
  lastTableSize : Z
}.
End AppSettings.

Definition DEFAULT_SETTINGS : AppSettings.t :=
  AppSettings.mk Blind_1_2 6.

(** ** JavaScript array and number primitives used by the code *)

(** [x || y] on an array-valued lookup: an array is always truthy. *)
Definition orElse {A} (x : option A) (y : A) : A :=
  match x with Some v => v | None => y end.

(** [arr.reduce(f)] without an initial value; [None] on the empty array,
    where JavaScript throws. *)
Definition reduce1 {A} (f : A -> A -> A) (l : list A) : option A :=
  match l with
  | [] => None
  | x :: xs => Some (fold_left f xs x)
  end.

(** [arr.includes(p)] on an array of positions. *)
Definition includes (p : Position) (l : list Position) : bool :=
  existsb (Position_eqb p) l.

(** [arr.indexOf(p)]; [None] stands for -1. *)
Fixpoint indexOf (p : Position) (l : list Position) : option nat :=
  match l with
  | [] => None
  | x :: xs =>
      if Position_eqb x p then Some O
      else match indexOf p xs with
           | Some i => Some (S i)
           | None => None
           end
  end.

(** [[...new Set(l)]]: first occurrences, in order. *)
Fixpoint uniq (seen l : list Position) : list Position :=
  match l with
  | [] => []
  | x :: xs => if includes x seen then uniq seen xs else x :: uniq (x :: seen) xs
  end.

(** [Math.round]: the nearest integer, a tie going to the larger one. *)
Definition Math_round (x : Q) : Z := Qfloor (x + (1 # 2))%Q.

Definition Qmaxb (a b : Q) : Q := if Qle_bool a b then b else a.

(** [Math.max(...vs, 0)]. *)
Definition Math_max0 (vs : list Q) : Q := fold_right Qmaxb 0%Q vs.

(** [sizeBb === v]; [undefined] is equal to no number. *)
Definition sizeIs (a : Action) (v : Q) : bool :=
  match sizeBb a with
  | Some s => Qeq_bool s v
  | None => false
  end.

Definition isType (t : ActionType) (a : Action) : bool := ActionType_eqb (type a) t.
Definition onStreet (s : Street) (a : Action) : bool := Street_eqb (street a) s.

(** [[...l].sort((a, b) => a.order - b.order)]: the sort is stable, so an
    element goes in front of the first element whose key is not smaller. *)
Fixpoint insertByOrder (a : Action) (l : list Action) : list Action :=
  match l with
  | [] => [a]
  | b :: l' => if order a <=? order b then a :: b :: l' else b :: insertByOrder a l'
  end.

Definition sortByOrder (l : list Action) : list Action :=
  fold_right insertByOrder [] l.

(** The two callbacks handed to [reduce] throughout the component. *)
Definition later (latest current : Action) : Action :=
  if order current >? order latest then current else latest.

Definition earlier (earliest current : Action) : Action :=
  if order current <? order earliest then current else earliest.

(** [`${n}`] for a non-negative integer. *)
Definition showNat (n : nat) : string := DecimalString.NilEmpty.string_of_uint (Nat.to_uint n).

(** [type.toLowerCase()]. *)
Definition toLowerCase (t : ActionType) : string :=
  match t with
  | FOLD => "fold"
  | CHECK => "check"
  | CALL => "call"
  | BET => "bet"
  | RAISE => "raise"
  | ALLIN => "allin"
  end.

(** [[...l].sort(cmp)] for any comparator: stable, an element going in
    front of the first element it does not compare greater than. *)
Fixpoint insertBy {A} (cmp : A -> A -> Z) (a : A) (l : list A) : list A :=
  match l with
  | [] => [a]
  | b :: l' => if cmp a b <=? 0 then a :: b :: l' else b :: insertBy cmp a l'
  end.

Definition sortBy {A} (cmp : A -> A -> Z) (l : list A) : list A :=
  fold_right (insertBy cmp) [] l.

(** [l.slice(0, e)]: a negative [e] counts from the end. *)
Definition slice0 {A} (e : Z) (l : list A) : list A :=
  let e := if e <? 0 then Z.max (Z.of_nat (length l) + e) 0 else e in
  firstn (Z.to_nat e) l.

(** [l.find(p)] and [l.findIndex(p)]; [None] stands for [undefined] and -1. *)
Fixpoint findIndex {A} (p : A -> bool) (l : list A) : option nat :=
  match l with
  | [] => None
  | x :: xs =>
      if p x then Some O
      else match findIndex p xs with
           | Some i => Some (S i)
           | None => None
           end
  end.

(** [l[i] = v] for an index inside the array. *)
Fixpoint setAt {A} (i : nat) (v : A) (l : list A) : list A :=
  match l, i with
  | [], _ => []
  | _ :: xs, O => v :: xs
  | x :: xs, S i' => x :: setAt i' v xs
  end.

(** A string in a boolean position: the empty string is falsy. *)
Definition truthy (c : option string) : bool :=
  match c with
  | Some s => negb (String.eqb s "")
  | None => false
  end.

(** [obj[k]], [obj[k] = v] and [Object.values(obj)] on a seat-keyed object. *)
Fixpoint getSeat {V} (k : Position) (m : BySeat V) : option V :=
  match m with
  | [] => None
  | (k', v) :: rest => if Position_eqb k' k then Some v else getSeat k rest
  end.

Fixpoint setSeat {V} (k : Position) (v : V) (m : BySeat V) : BySeat V :=
  match m with
  | [] => [(k, v)]
  | (k', v') :: rest =>
      if Position_eqb k' k then (k', v) :: rest
      else (k', v') :: setSeat k v rest
  end.

(** ** Numbers as the program holds them: IEEE 754 binary64 *)

Module Number.

Definition prec : Z := 53.
Definition emax : Z := 1024.

Definition t : Set := SpecFloat.spec_float.

(** [x + y], [x * y] and [x / y]: rounded to nearest, ties to even. *)
Definition add : t -> t -> t := SpecFloat.SFadd prec emax.
Definition mul : t -> t -> t := SpecFloat.SFmul prec emax.
Definition div : t -> t -> t := SpecFloat.SFdiv prec emax.

(** The number of an integer literal. *)
Definition ofZ (z : Z) : t := SpecFloat.binary_normalize prec emax z 0 false.

(** The number of a decimal literal, and of [parseFloat] on a decimal text:
    the binary64 number nearest to the rational written. Numerator and
    denominator are below 2^53 for the amounts of a hand, so both are exact
    and their quotient is rounded once. *)
Definition ofQ (q : Q) : t := div (ofZ (Qnum q)) (ofZ (Zpos (Qden q))).

(** [x === y]. *)
Definition eqb : t -> t -> bool := SpecFloat.SFeqb.

(** The rational a finite number is equal to; 0 for both zeros. *)
Definition value (x : t) : Q :=
  match x with
  | SpecFloat.S754_finite s m e =>
      let v := if 0 <=? e then inject_Z (Zpos m * 2 ^ e)
               else Zpos m # Pos.pow 2 (Z.to_pos (- e)) in
      if s then Qopp v else v
  | _ => 0%Q
  end.

(** [Math.max(...vs)]: [-Infinity] for no argument, [NaN] as soon as one
    argument is [NaN], and [+0] above [-0]. *)
Definition max2 (a b : t) : t :=
  match SpecFloat.SFcompare a b with
  | None => SpecFloat.S754_nan
  | Some Lt => b
  | Some Gt => a
  | Some Eq => match a with SpecFloat.S754_zero true => b | _ => a end
  end.

Definition Math_max (vs : list t) : t :=
  fold_left max2 vs (SpecFloat.S754_infinity true).

(** The number of the integer [n]; a zero result keeps the sign [s] of the
    argument of [Math.round]. *)
Definition ofInteger (s : bool) (n : Z) : t :=
  if n =? 0 then SpecFloat.S754_zero s else ofZ n.

(** [Math.round(x)]: the integer nearest to [x], a tie going towards
    [+Infinity]; [NaN], the infinities and the zeros are returned as they
    are. *)
Definition Math_round (x : t) : t :=
  match x with
  | SpecFloat.S754_finite s _ _ => ofInteger s (Qfloor (value x + (1 # 2)))
  | _ => x
  end.

End Number.

(** ** components/ActionInput.tsx *)

Module ActionInput.

(** The [default] branches of the two switches are not reachable from the
    three values of [BlindLevel]. *)
Definition getBBSize (blind : BlindLevel) : Q :=
  match blind with
  | Blind_05_1 => 1
  | Blind_1_1 => 1
  | Blind_1_2 => 2
  end.

Definition getSBSize (blind : BlindLevel) : Q :=
  match blind with
  | Blind_05_1 => 0.5
  | Blind_1_1 => 1
  | Blind_1_2 => 1
  end.

(** The [bets] object of [potSize]. *)
Definition Bets : Set := list (Position * Q).

(** [bets[k] = v]: an existing key keeps its place, a new one goes last. *)
Fixpoint setBet (k : Position) (v : Q) (bets : Bets) : Bets :=
  match bets with
  | [] => [(k, v)]
  | (k', v') :: rest =>
      if Position_eqb k' k then (k', v) :: rest
      else (k', v') :: setBet k v rest
  end.

(** [Object.values(bets)]. *)
Definition values (bets : Bets) : list Q := map snd bets.

(** [Object.values(bets).reduce((sum, b) => sum + b, 0)]. *)
Definition sumBets (bets : Bets) : Q :=
  fold_left Qplus (values bets) 0%Q.

(** [Object.keys(bets).forEach((k) => (bets[k] = 0))]. *)
Definition resetBets (bets : Bets) : Bets :=
  map (fun kv => (fst kv, 0%Q)) bets.

(** The body of [streetActions.forEach] in [potSize]. *)
Definition recordBet (bets : Bets) (a : Action) : Bets :=
  match isType RAISE a, sizeBb a with
  | true, Some s =>
      let size := if Qeq_bool s (-1) then 100%Q else s in
      setBet (position a) size bets
  | _, _ =>
      if isType CALL a then
        let maxBet := Math_max0 (values bets) in
        setBet (position a) maxBet bets
      else bets
  end.

Definition streets : list Street := [preflop; flop; turn; river].

(** [streets.indexOf(s)]. *)
Definition streetIndex (s : Street) : nat :=
  match s with
  | preflop => 0
  | flop => 1
  | turn => 2
  | river => 3
  end.

(** One turn of the street loop of [potSize], for [i < currentStreetIndex]. *)
Definition elapseStreet (actions : list Action) (st : Q * Bets) (s : Street)
  : Q * Bets :=
  let streetActions := filter (onStreet s) actions in
  let bets := fold_left recordBet streetActions (snd st) in
  ((fst st + sumBets bets)%Q, resetBets bets).

(** The selection state held by the component ([useState]). *)
Record Selection : Set := mkSelection {
  selectedPosition : option Position;
  selectedType : option ActionType;
  showNumpad : bool;
  customSize : string
}.

Definition resetSelection : Selection := mkSelection None None false "".

(** [0 < s], for the guard [x && x > 0] on an optional number. *)
Definition isPositive (x : option Q) : bool :=
  match x with
  | Some s => negb (Qle_bool s 0)
  | None => false
  end.

Section Component.

(** The props of the component. *)
Variable tableSize : Z.
Variable blind : BlindLevel.
Variable actions : list Action.
Variable currentStreet : Street.
(** [tableAssignments[pos]?.stackBb]. *)
Variable stackBb : Position -> option Q.

Definition isPreflop : bool := Street_eqb currentStreet preflop.
Definition bbSize : Q := getBBSize blind.
Definition sbSize : Q := getSBSize blind.

Definition preflopOrder : list Position :=
  orElse (PREFLOP_ACTION_ORDER tableSize) [].

Definition postflopOrder : list Position :=
  orElse (POSTFLOP_ACTION_ORDER tableSize) [].

Definition preflopActions : list Action :=
  filter (onStreet preflop) actions.

Definition playersInHand : list Position :=
  let raises := filter (isType RAISE) preflopActions in
  match reduce1 later raises with
  | None => postflopOrder
  | Some lastRaise =>
      let lastRaiseOrder := order lastRaise in
      let inHand := [position lastRaise] in
      let inHand :=
        fold_left
          (fun inHand a =>
             if (order a >? lastRaiseOrder)
                && (isType CALL a || (isType RAISE a && sizeIs a (-1)))
             then
               if negb (includes (position a) inHand)
               then inHand ++ [position a] else inHand
             else inHand)
          preflopActions inHand in
      let inHand :=
        fold_left
          (fun inHand a =>
             if sizeIs a (-1) && negb (includes (position a) inHand)
             then inHand ++ [position a] else inHand)
          preflopActions inHand in
      filter (fun pos => includes pos inHand) postflopOrder
  end.

Definition explicitlyFoldedPositions : list Position :=
  map position (filter (isType FOLD) actions).

Definition implicitlyFoldedPositions : list Position :=
  if negb isPreflop then []
  else
    let preflopRaises := filter (isType RAISE) preflopActions in
    match reduce1 earlier preflopRaises with
    | None => []
    | Some firstRaiseAction =>
        let firstRaisePos := position firstRaiseAction in
        match indexOf firstRaisePos preflopOrder with
        | None => []
        | Some firstRaisePosIndex =>
            filter
              (fun pos =>
                 let hasExplicitAction :=
                   existsb (fun a => Position_eqb (position a) pos)
                           preflopActions in
                 negb hasExplicitAction)
              (firstn firstRaisePosIndex preflopOrder)
        end
    end.

Definition allFoldedPositions : list Position :=
  uniq [] (explicitlyFoldedPositions ++ implicitlyFoldedPositions).

Definition availablePositions : list Position :=
  if isPreflop then
    filter (fun pos => negb (includes pos allFoldedPositions)) preflopOrder
  else
    filter (fun pos => negb (includes pos explicitlyFoldedPositions))
           playersInHand.

Definition potSize : Q :=
  let pot := 0%Q in
  let hasSB := tableSize >=? 3 in
  let pot := if hasSB then (pot + sbSize / bbSize)%Q else pot in
  let pot := (pot + 1)%Q in
  let currentStreetIndex := streetIndex currentStreet in
  let bets : Bets := [] in
  let bets := if hasSB then setBet SB (sbSize / bbSize)%Q bets else bets in
  let bets := setBet BB 1%Q bets in
  fst (fold_left (elapseStreet actions)
                 (firstn currentStreetIndex streets) (pot, bets)).

Definition getRemainingStack (pos : Position) : option Q :=
  match stackBb pos with
  | None => None
  | Some stack =>
      if Qeq_bool stack 0 then None
      else
        let spent := 0%Q in
        let hasSB := tableSize >=? 3 in
        let spent :=
          if Position_eqb pos SB && hasSB then (spent + sbSize / bbSize)%Q
          else if Position_eqb pos BB then (spent + 1)%Q
          else spent in
        let spent :=
          fold_left
            (fun spent a =>
               if Position_eqb (position a) pos && isPositive (sizeBb a)
               then orElse (sizeBb a) spent
               else if Position_eqb (position a) pos && isType CALL a then
                 let priorActions :=
                   filter (fun pa => (order pa <? order a)
                                     && Street_eqb (street pa) (street a))
                          actions in
                 match List.rev (filter (isType RAISE) priorActions) with
                 | lastRaise :: _ =>
                     if isPositive (sizeBb lastRaise)
                     then orElse (sizeBb lastRaise) spent
                     else spent
                 | [] => spent
                 end
               else spent)
            actions spent in
        Some (Qmaxb 0 (stack - spent))
  end.

Variable selection : Selection.

Definition allInSize : option Q :=
  match selectedPosition selection with
  | None => None
  | Some pos => getRemainingStack pos
  end.

Definition currentStreetRaiseCount : nat :=
  length (filter (fun a => onStreet currentStreet a && isType RAISE a) actions).

Definition currentStreetActions : list Action :=
  filter (onStreet currentStreet) actions.

Definition isStreetComplete : bool :=
  match reduce1 later currentStreetActions with
  | None => false
  | Some lastAction =>
      let streetRaises := filter (isType RAISE) currentStreetActions in
      if isType RAISE lastAction && negb (sizeIs lastAction (-1)) then false
      else if isPreflop then
        if (0 <? length streetRaises)%nat then
          let closedByCall :=
            isType CALL lastAction &&
            (if (length streetRaises =? 1)%nat
             then Position_eqb (position lastAction) BB
             else
               let sortedRaises := sortByOrder streetRaises in
               match nth_error sortedRaises (length sortedRaises - 2) with
               | Some secondLastRaiser =>
                   Position_eqb (position lastAction)
                                (position secondLastRaiser)
               | None => false
               end) in
          if closedByCall then true
          else
            let foldedInStreet :=
              map position (filter (isType FOLD) currentStreetActions) in
            let activePlayers :=
              filter (fun p => negb (includes p allFoldedPositions)
                               && negb (includes p foldedInStreet))
                     preflopOrder in
            (length activePlayers =? 1)%nat
        else false
      else
        match reduce1 later streetRaises with
        | Some lastRaise =>
            let lastRaiserPos := position lastRaise in
            let lastRaiseOrder := order lastRaise in
            let otherActivePlayers :=
              filter (fun p => negb (Position_eqb p lastRaiserPos))
                     availablePositions in
            let actionsAfterLastRaise :=
              filter (fun a => order a >? lastRaiseOrder)
                     currentStreetActions in
            let playersActedAfterRaise := map position actionsAfterLastRaise in
            let allOthersActed :=
              forallb (fun p => includes p playersActedAfterRaise
                                || includes p explicitlyFoldedPositions)
                      otherActivePlayers in
            let lastActionIsNotRaise :=
              negb (isType RAISE lastAction) || sizeIs lastAction (-1) in
            allOthersActed && lastActionIsNotRaise
        | None =>
            let checkCount :=
              length (filter (isType CHECK) currentStreetActions) in
            (length availablePositions <=? checkCount)%nat
        end
  end.

(** The label of the raise button. *)
Definition getRaiseLabel (raiseCount : nat) : string :=
  if isPreflop then
    match raiseCount with
    | 0%nat => "Open"
    | 1%nat => "3bet"
    | 2%nat => "4bet"
    | _ => String.append (showNat (raiseCount + 2)) "bet"
    end
  else if (raiseCount =? 0)%nat then "Bet" else "Raise".

Definition isThreeBetOrMore : bool :=
  isPreflop && (1 <=? currentStreetRaiseCount)%nat.

Definition sizePresets : list Q :=
  if isPreflop
  then if isThreeBetOrMore then [] else PREFLOP_SIZE_PRESETS
  else POSTFLOP_SIZE_PRESETS.

(** The handlers return the next selection state and the action handed to
    [onAddAction], if any; [newId] is the value of [uuidv4()]. *)
Definition handleTypeSelect (newId : string) (ty : ActionType)
  : Selection * option Action :=
  match selectedPosition selection with
  | None => (selection, None)
  | Some pos =>
      match ty with
      | FOLD | CHECK | CALL =>
          (resetSelection,
           Some (mkAction newId (Z.of_nat (length actions)) currentStreet
                          pos ty None))
      | ALLIN =>
          (resetSelection,
           Some (mkAction newId (Z.of_nat (length actions)) currentStreet
                          pos RAISE
                          (Some (match allInSize with
                                 | Some s => s
                                 | None => (-1)%Q
                                 end))))
      | _ =>
          if isThreeBetOrMore && ActionType_eqb ty RAISE then
            (mkSelection (selectedPosition selection) (Some ty) true "", None)
          else
            (mkSelection (selectedPosition selection) (Some ty) false
                         (customSize selection), None)
      end
  end.

Definition handlePotRatioSelect (newId : string) (ratio : Q)
  : Selection * option Action :=
  match selectedPosition selection, selectedType selection with
  | Some pos, Some _ =>
      let calculatedBb := Math_round (potSize * ratio) in
      (resetSelection,
       Some (mkAction newId (Z.of_nat (length actions)) currentStreet pos
                      RAISE (Some (inject_Z calculatedBb))))
  | _, _ => (selection, None)
  end.

Definition handleSizeSelect (newId : string) (size : Q)
  : Selection * option Action :=
  match selectedPosition selection, selectedType selection with
  | Some pos, Some _ =>
      (resetSelection,
       Some (mkAction newId (Z.of_nat (length actions)) currentStreet pos
                      RAISE (Some size)))
  | _, _ => (selection, None)
  end.

Definition getActionDisplayLabel (action : Action) : string :=
  if isType RAISE action then
    let priorRaises :=
      length (filter (fun a => Street_eqb (street a) (street action)
                               && isType RAISE a
                               && (order a <? order action))
                     actions) in
    if Street_eqb (street action) preflop then
      match priorRaises with
      | 0%nat => "open"
      | 1%nat => "3bet"
      | 2%nat => "4bet"
      | _ => String.append (showNat (priorRaises + 2)) "bet"
      end
    else if (priorRaises =? 0)%nat then "bet" else "raise"
  else toLowerCase (type action).


(** [actionsByStreet]: every action is pushed on the list of its street,
    then each list is sorted by order. *)
Definition pushByStreet (result : Street -> list Action) (a : Action)
  : Street -> list Action :=
  fun s => if Street_eqb s (street a) then result s ++ [a] else result s.

Definition actionsByStreet : Street -> list Action :=
  let result := fold_left pushByStreet actions (fun _ => []) in
  fun s => sortByOrder (result s).

(** [customSize.includes(sub)]. *)
Fixpoint strIncludes (sub s : string) : bool :=
  if String.prefix sub s then true
  else match s with
       | EmptyString => false
       | String _ s' => strIncludes sub s'
       end.

(** [customSize.slice(0, -1)]. *)
Fixpoint dropLast (s : string) : string :=
  match s with
  | EmptyString => EmptyString
  | String _ EmptyString => EmptyString
  | String c s' => String c (dropLast s')
  end.

(** The keys of the pad that reach [handleNumpadInput]. *)
Definition numpadKeys : list string :=
  ["7"; "8"; "9"; "4"; "5"; "6"; "1"; "2"; "3"; "."; "0"].

(** The two numpad handlers, as functions of [customSize]. *)
Definition handleNumpadInput (customSize digit : string) : string :=
  if String.eqb digit "." && strIncludes "." customSize then customSize
  else String.append customSize digit.

Definition handleNumpadDelete (customSize : string) : string :=
  dropLast customSize.

End Component.

End ActionInput.

(** ** components/ActionInput.tsx on binary64 numbers

    The pot and the pot-fraction handler once more, with every amount the
    binary64 number the program holds. The exact sums of [ActionInput] and
    these agree as long as no addition rounds; typed amounts such as 2.1,
    3.3 and 6.6 make them differ in the last bit, which [Math.round] can
    turn into a whole big blind. *)

Module Binary64.

Record Action : Set := mkAction {
  id : string;
  order : Z;
  street : Street;
  position : Position;
  type : ActionType;
  sizeBb : option Number.t
}.

Definition isType (t : ActionType) (a : Action) : bool := ActionType_eqb (type a) t.
Definition onStreet (s : Street) (a : Action) : bool := Street_eqb (street a) s.

Definition getBBSize (blind : BlindLevel) : Number.t :=
  match blind with
  | Blind_05_1 => Number.ofZ 1
  | Blind_1_1 => Number.ofZ 1
  | Blind_1_2 => Number.ofZ 2
  end.

Definition getSBSize (blind : BlindLevel) : Number.t :=
  match blind with
  | Blind_05_1 => Number.ofQ 0.5
  | Blind_1_1 => Number.ofZ 1
  | Blind_1_2 => Number.ofZ 1
  end.

(** The [bets] object of [potSize]; [bets[k] = v] is [setSeat k v bets]. *)
Definition Bets : Set := list (Position * Number.t).

(** [Object.values(bets)]. *)
Definition values (bets : Bets) : list Number.t := map snd bets.

(** [Object.values(bets).reduce((sum, b) => sum + b, 0)]. *)
Definition sumBets (bets : Bets) : Number.t :=
  fold_left Number.add (values bets) (Number.ofZ 0).

(** [Object.keys(bets).forEach((k) => (bets[k] = 0))]. *)
Definition resetBets (bets : Bets) : Bets :=
  map (fun kv => (fst kv, Number.ofZ 0)) bets.

(** The body of [streetActions.forEach] in [potSize]. *)
Definition recordBet (bets : Bets) (a : Action) : Bets :=
  match isType RAISE a, sizeBb a with
  | true, Some s =>
      let size := if Number.eqb s (Number.ofZ (-1)) then Number.ofZ 100 else s in
      setSeat (position a) size bets
  | _, _ =>
      if isType CALL a then
        let maxBet := Number.Math_max (values bets ++ [Number.ofZ 0]) in
        setSeat (position a) maxBet bets
      else bets
  end.

(** One turn of the street loop of [potSize], for [i < currentStreetIndex]. *)
Definition elapseStreet (actions : list Action) (st : Number.t * Bets) (s : Street)
  : Number.t * Bets :=
  let streetActions := filter (onStreet s) actions in
  let bets := fold_left recordBet streetActions (snd st) in
  (Number.add (fst st) (sumBets bets), resetBets bets).

Section Component.

Variable tableSize : Z.
Variable blind : BlindLevel.
Variable actions : list Action.
Variable currentStreet : Street.
Variable selection : ActionInput.Selection.

Definition bbSize : Number.t := getBBSize blind.
Definition sbSize : Number.t := getSBSize blind.

Definition potSize : Number.t :=
  let pot := Number.ofZ 0 in
  let hasSB := tableSize >=? 3 in
  let pot := if hasSB then Number.add pot (Number.div sbSize bbSize) else pot in
  let pot := Number.add pot (Number.ofZ 1) in
  let currentStreetIndex := ActionInput.streetIndex currentStreet in
  let bets : Bets := [] in
  let bets := if hasSB then setSeat SB (Number.div sbSize bbSize) bets else bets in
  let bets := setSeat BB (Number.ofZ 1) bets in
  fst (fold_left (elapseStreet actions)
                 (firstn currentStreetIndex ActionInput.streets) (pot, bets)).

(** The next selection state and the action handed to [onAddAction], if
    any; [newId] is the value of [uuidv4()]. *)
Definition handlePotRatioSelect (newId : string) (ratio : Number.t)
  : ActionInput.Selection * option Action :=
  match ActionInput.selectedPosition selection, ActionInput.selectedType selection with
  | Some pos, Some _ =>
      let calculatedBb := Number.Math_round (Number.mul potSize ratio) in
      (ActionInput.resetSelection,
       Some (mkAction newId (Z.of_nat (length actions)) currentStreet pos
                      RAISE (Some calculatedBb)))
  | _, _ => (selection, None)
  end.

End Component.

End Binary64.

(** ** utils/clipboard.ts *)

Module Clipboard.

Definition getRaiseLabel (action : Action) (allActions : list Action) : string :=
  if negb (isType RAISE action) then toLowerCase (type action)
  else
    let streetActions :=
      filter (fun a => Street_eqb (street a) (street action)
                       && (order a <=? order action))
             allActions in
    let raiseCount := length (filter (isType RAISE) streetActions) in
    if Street_eqb (street action) preflop then
      match raiseCount with
      | 1%nat => "open"
      | 2%nat => "3bet"
      | 3%nat => "4bet"
      | 4%nat => "5bet"
      | _ => String.append (showNat (raiseCount + 1)) "bet"
      end
    else if (raiseCount =? 1)%nat then "bet" else "raise".

End Clipboard.

(** ** hooks/useUndoRedo.ts *)

Module UseUndoRedo.

Section Hook.

(** The type of the snapshots; [undefined] is what an array read outside
    its bounds gives. [maxHistory] is the option of the hook, 50 when absent. *)
Variable T : Type.
Variable undefined : T.
Variable maxHistory : Z.

(** The two [useState] cells of the hook. *)
Record Hook : Type := mkHook {
  history : list T;
  currentIndex : Z
}.

Definition init (initialState : T) : Hook := mkHook [initialState] 0.

(** [history[currentIndex]]. *)
Definition state (h : Hook) : T :=
  if currentIndex h <? 0 then undefined
  else nth (Z.to_nat (currentIndex h)) (history h) undefined.

(** [setState(newState)]: a value, or a function of the current snapshot. *)
Definition setState (h : Hook) (newState : T + (T -> T)) : Hook :=
  let current := state h in
  let nextState :=
    match newState with
    | inl v => v
    | inr f => f current
    end in
  let newHistory := slice0 (currentIndex h + 1) (history h) in
  let newHistory := newHistory ++ [nextState] in
  let newHistory :=
    if Z.of_nat (length newHistory) >? maxHistory then tl newHistory
    else newHistory in
  let newIndex := currentIndex h + 1 in
  mkHook newHistory
         (if newIndex >=? maxHistory then maxHistory - 1 else newIndex).

(** The callback [setState] of the render whose cursor was [renderedIndex]
    (its dependency [currentIndex]), called when the two cells hold [h]: the
    updaters read the cells as they are, the slice and the snapshot handed to
    a function use the index of that render. [setState h] is the call made
    from the render of [h] itself. *)
Definition setStateOf (renderedIndex : Z) (h : Hook) (newState : T + (T -> T))
  : Hook :=
  let prevHistory := history h in
  let current :=
    if renderedIndex <? 0 then undefined
    else nth (Z.to_nat renderedIndex) prevHistory undefined in
  let nextState :=
    match newState with
    | inl v => v
    | inr f => f current
    end in
  let newHistory := slice0 (renderedIndex + 1) prevHistory in
  let newHistory := newHistory ++ [nextState] in
  let newHistory :=
    if Z.of_nat (length newHistory) >? maxHistory then tl newHistory
    else newHistory in
  let newIndex := currentIndex h + 1 in
  mkHook newHistory
         (if newIndex >=? maxHistory then maxHistory - 1 else newIndex).

Definition undo (h : Hook) : Hook :=
  mkHook (history h) (Z.max 0 (currentIndex h - 1)).

Definition redo (h : Hook) : Hook :=
  mkHook (history h)
         (Z.min (Z.of_nat (length (history h)) - 1) (currentIndex h + 1)).

Definition canUndo (h : Hook) : bool := currentIndex h >? 0.

Definition canRedo (h : Hook) : bool :=
  currentIndex h <? Z.of_nat (length (history h)) - 1.

Definition clearHistory (h : Hook) : Hook := mkHook [state h] 0.

End Hook.

Arguments mkHook {T} _ _.
Arguments history {T} _.
Arguments currentIndex {T} _.
Arguments init {T} _.
Arguments state {T} _ _.
Arguments setState {T} _ _ _ _.
Arguments setStateOf {T} _ _ _ _ _.
Arguments undo {T} _.
Arguments redo {T} _.
Arguments canUndo {T} _.
Arguments canRedo {T} _.
Arguments clearHistory {T} _ _.

End UseUndoRedo.

(** ** utils/storage.ts *)

Module Storage.

(** What [localStorage.getItem(key)] finds: no entry, text that
    [JSON.parse] rejects, or the JSON text of a value of the expected shape. *)
Inductive Item (A : Type) : Type :=
| Absent : Item A
| Corrupt : Item A
| Json : A -> Item A.

Arguments Absent {A}.
Arguments Corrupt {A}.
Arguments Json {A} _.

(** The three keys of [STORAGE_KEYS]; [quotaExceeded] tells whether
    [localStorage.setItem] throws. *)
Record LocalStorage : Type := mkLocalStorage {
  poker_players_v1 : Item (list Player.t);
  poker_hands_v1 : Item (list Hand.t);
  poker_settings_v1 : Item AppSettings.t;
  quotaExceeded : bool
}.

(** [getItem(key, defaultValue)]: the default when the entry is missing and
    when parsing throws. *)
Definition getItem {A} (item : Item A) (defaultValue : A) : A :=
  match item with
  | Json v => v
  | Absent | Corrupt => defaultValue
  end.

(** [setItem(key, value)], one definition per key: a write that throws is
    caught and changes nothing. *)
Definition setPlayersItem (ls : LocalStorage) (v : list Player.t) : LocalStorage :=
  if quotaExceeded ls then ls
  else mkLocalStorage (Json v) (poker_hands_v1 ls) (poker_settings_v1 ls)
                      (quotaExceeded ls).

Definition setHandsItem (ls : LocalStorage) (v : list Hand.t) : LocalStorage :=
  if quotaExceeded ls then ls
  else mkLocalStorage (poker_players_v1 ls) (Json v) (poker_settings_v1 ls)
                      (quotaExceeded ls).

Definition setSettingsItem (ls : LocalStorage) (v : AppSettings.t) : LocalStorage :=
  if quotaExceeded ls then ls
  else mkLocalStorage (poker_players_v1 ls) (poker_hands_v1 ls) (Json v)
                      (quotaExceeded ls).

Definition getPlayers (ls : LocalStorage) : list Player.t :=
  getItem (poker_players_v1 ls) [].

Definition savePlayers (ls : LocalStorage) (players : list Player.t)
  : LocalStorage :=
  setPlayersItem ls players.

Definition getPlayerById (ls : LocalStorage) (id : string) : option Player.t :=
  let players := getPlayers ls in
  find (fun p => String.eqb (Player.id p) id) players.

Definition savePlayer (ls : LocalStorage) (player : Player.t) : LocalStorage :=
  let players := getPlayers ls in
  match findIndex (fun p => String.eqb (Player.id p) (Player.id player)) players with
  | Some index => savePlayers ls (setAt index player players)
  | None => savePlayers ls (players ++ [player])
  end.

Definition deletePlayer (ls : LocalStorage) (id : string) : LocalStorage :=
  let players := getPlayers ls in
  let filtered := filter (fun p => negb (String.eqb (Player.id p) id)) players in
  savePlayers ls filtered.

(** [limit] is 10 when the argument is left out. *)
Definition getRecentPlayers (ls : LocalStorage) (limit : option Z)
  : list Player.t :=
  let limit := match limit with Some n => n | None => 10 end in
  let players := getPlayers ls in
  slice0 limit
         (sortBy (fun a b => Player.lastSeenAt b - Player.lastSeenAt a) players).

(** [now] is the value of [Date.now()]. *)
Definition updatePlayerLastSeen (ls : LocalStorage) (id : string) (now : Z)
  : LocalStorage :=
  match getPlayerById ls id with
  | Some player =>
      savePlayer ls (Player.mk (Player.id player) (Player.name player)
                               (Player.tags player) (Player.note player) now)
  | None => ls
  end.

Definition getHands (ls : LocalStorage) : list Hand.t :=
  getItem (poker_hands_v1 ls) [].

Definition saveHands (ls : LocalStorage) (hands : list Hand.t) : LocalStorage :=
  setHandsItem ls hands.

Definition getHandById (ls : LocalStorage) (id : string) : option Hand.t :=
  let hands := getHands ls in
  find (fun h => String.eqb (Hand.id h) id) hands.

(** [hand.updatedAt = Date.now()]. *)
Definition touch (hand : Hand.t) (now : Z) : Hand.t :=
  Hand.mk (Hand.id hand) (Hand.status hand) (Hand.createdAt hand) now
          (Hand.tableSize hand) (Hand.blind hand) (Hand.heroPosition hand)
          (Hand.heroCards hand) (Hand.tableAssignments hand) (Hand.board hand)
          (Hand.actions hand) (Hand.result hand) (Hand.opponentHands hand)
          (Hand.spotMemo hand).

Definition saveHand (ls : LocalStorage) (hand : Hand.t) (now : Z) : LocalStorage :=
  let hands := getHands ls in
  let index := findIndex (fun h => String.eqb (Hand.id h) (Hand.id hand)) hands in
  let hand := touch hand now in
  match index with
  | Some index => saveHands ls (setAt index hand hands)
  | None => saveHands ls (hands ++ [hand])
  end.

Definition deleteHand (ls : LocalStorage) (id : string) : LocalStorage :=
  let hands := getHands ls in
  let filtered := filter (fun h => negb (String.eqb (Hand.id h) id)) hands in
  saveHands ls filtered.

Definition HandStatus_eqb (a b : HandStatus) : bool :=
  match a, b with
  | draft, draft | done, done => true
  | _, _ => false
  end.

Definition getHandsByStatus (ls : LocalStorage) (status : HandStatus)
  : list Hand.t :=
  let hands := getHands ls in
  filter (fun h => HandStatus_eqb (Hand.status h) status) hands.

Definition getHandsSorted (ls : LocalStorage) : list Hand.t :=
  let hands := getHands ls in
  sortBy (fun a b => Hand.updatedAt b - Hand.updatedAt a) hands.

Definition getSettings (ls : LocalStorage) : AppSettings.t :=
  getItem (poker_settings_v1 ls) DEFAULT_SETTINGS.

Definition saveSettings (ls : LocalStorage) (settings : AppSettings.t)
  : LocalStorage :=
  setSettingsItem ls settings.

Definition clearAllData (ls : LocalStorage) : LocalStorage :=
  mkLocalStorage Absent Absent Absent (quotaExceeded ls).

(** The result of [JSON.parse(jsonString)] as [importAllData] reads it: a
    field is [Some] when it is present (and, for the two lists, an array). *)
Record ImportDoc : Type := mkImportDoc {
  doc_players : option (list Player.t);
  doc_hands : option (list Hand.t);
  doc_settings : option AppSettings.t
}.



End Storage.

(** ** pages/HandEditor.tsx and pages/Home.tsx *)

Module HandEditor.

Definition handleAddAction (actions : list Action) (action : Action)
  : list Action :=
  actions ++ [action].

Definition handleRemoveAction (actions : list Action) (actionId : string)
  : list Action :=
  filter (fun a => negb (String.eqb (id a) actionId)) actions.

(** [POSITIONS_BY_TABLE_SIZE[size] || POSITIONS_BY_TABLE_SIZE[6]], the seat
    list of [handleTableSizeChange] and of the seat grid. *)
Definition positions (size : Z) : list Position :=
  match POSITIONS_BY_TABLE_SIZE size with
  | Some l => l
  | None => orElse (POSITIONS_BY_TABLE_SIZE 6) []
  end.


(** The spreads [{ ...hand, field: v }] used by the handlers. *)
Definition withHeroCards (hand : Hand.t) (v : option Card * option Card) : Hand.t :=
  Hand.mk (Hand.id hand) (Hand.status hand) (Hand.createdAt hand)
          (Hand.updatedAt hand) (Hand.tableSize hand) (Hand.blind hand)
          (Hand.heroPosition hand) v (Hand.tableAssignments hand)
          (Hand.board hand) (Hand.actions hand) (Hand.result hand)
          (Hand.opponentHands hand) (Hand.spotMemo hand).

Definition withBoard (hand : Hand.t) (v : Board.t) : Hand.t :=
  Hand.mk (Hand.id hand) (Hand.status hand) (Hand.createdAt hand)
          (Hand.updatedAt hand) (Hand.tableSize hand) (Hand.blind hand)
          (Hand.heroPosition hand) (Hand.heroCards hand)
          (Hand.tableAssignments hand) v (Hand.actions hand) (Hand.result hand)
          (Hand.opponentHands hand) (Hand.spotMemo hand).

Definition withOpponentHands (hand : Hand.t)
           (v : BySeat (option Card * option Card)) : Hand.t :=
  Hand.mk (Hand.id hand) (Hand.status hand) (Hand.createdAt hand)
          (Hand.updatedAt hand) (Hand.tableSize hand) (Hand.blind hand)
          (Hand.heroPosition hand) (Hand.heroCards hand)
          (Hand.tableAssignments hand) (Hand.board hand) (Hand.actions hand)
          (Hand.result hand) (Some v) (Hand.spotMemo hand).

Definition withTable (hand : Hand.t) (size : Z) (heroPos : Position)
           (assignments : BySeat TableAssignment.t) : Hand.t :=
  Hand.mk (Hand.id hand) (Hand.status hand) (Hand.createdAt hand)
          (Hand.updatedAt hand) size (Hand.blind hand) heroPos
          (Hand.heroCards hand) assignments (Hand.board hand)
          (Hand.actions hand) (Hand.result hand) (Hand.opponentHands hand)
          (Hand.spotMemo hand).

Definition withResult (hand : Hand.t) (v : HandResult.t) : Hand.t :=
  Hand.mk (Hand.id hand) (Hand.status hand) (Hand.createdAt hand)
          (Hand.updatedAt hand) (Hand.tableSize hand) (Hand.blind hand)
          (Hand.heroPosition hand) (Hand.heroCards hand)
          (Hand.tableAssignments hand) (Hand.board hand) (Hand.actions hand) v
          (Hand.opponentHands hand) (Hand.spotMemo hand).

(** [playersInHand] of the page, the seats offered as winners; [hand] is
    [None] while nothing is loaded. *)
Definition playersInHand (hand : option Hand.t) : list Position :=
  match hand with
  | None => []
  | Some hand =>
      let postflopOrder := orElse (POSTFLOP_ACTION_ORDER (Hand.tableSize hand)) [] in
      let preflopActions := filter (onStreet preflop) (Hand.actions hand) in
      let raises := filter (isType RAISE) preflopActions in
      match reduce1 later raises with
      | None => postflopOrder
      | Some lastRaise =>
          let lastRaiseOrder := order lastRaise in
          let inHand := [position lastRaise] in
          let inHand :=
            fold_left
              (fun inHand a =>
                 if (order a >? lastRaiseOrder)
                    && (isType CALL a || sizeIs a (-1))
                 then
                   if negb (includes (position a) inHand)
                   then inHand ++ [position a] else inHand
                 else inHand)
              preflopActions inHand in
          let inHand :=
            fold_left
              (fun inHand a =>
                 if sizeIs a (-1) && negb (includes (position a) inHand)
                 then inHand ++ [position a] else inHand)
              preflopActions inHand in
          let foldedPositions :=
            map position (filter (isType FOLD) (Hand.actions hand)) in
          filter (fun pos => includes pos inHand
                             && negb (includes pos foldedPositions))
                 postflopOrder
      end
  end.

(** [if (c) cards.push(c)]. *)
Definition pushIf (c : option Card) : list Card :=
  match c with
  | Some s => if truthy c then [s] else []
  | None => []
  end.

Definition getUsedCards (hand : option Hand.t) : list Card :=
  match hand with
  | None => []
  | Some hand =>
      let '(flop0, flop1, flop2) := Board.flop (Hand.board hand) in
      pushIf (fst (Hand.heroCards hand))
      ++ pushIf (snd (Hand.heroCards hand))
      ++ flat_map pushIf [flop0; flop1; flop2]
      ++ pushIf (Board.turn (Hand.board hand))
      ++ pushIf (Board.river (Hand.board hand))
      ++ match Hand.opponentHands hand with
         | Some opponentHands =>
             flat_map (fun oppCards => pushIf (fst oppCards) ++ pushIf (snd oppCards))
                      (map snd opponentHands)
         | None => []
         end
  end.

Inductive InputMode : Set := none | heroCard | boardMode | opponentCard.

Inductive BoardSlot : Set := flop0 | flop1 | flop2 | turnSlot | riverSlot.

(** The card-entry state of the page; a slot index 0 or 1 is a [bool],
    [false] for 0. *)
Record Entry : Set := mkEntry {
  inputMode : InputMode;
  heroCardSlot : bool;
  boardSlot : option BoardSlot;
  opponentCardSlot : option (Position * bool)
}.

(** [pair[slot] = card] on a two-card tuple. *)
Definition setSlot (pair : option Card * option Card) (slot : bool) (card : Card)
  : option Card * option Card :=
  if slot then (fst pair, Some card) else (Some card, snd pair).

Definition handleCardSelect (hand : option Hand.t) (entry : Entry) (card : Card)
  : option Hand.t * Entry :=
  match hand with
  | None => (hand, entry)
  | Some hand =>
      match inputMode entry, boardSlot entry, opponentCardSlot entry with
      | heroCard, _, _ =>
          let newHeroCards := setSlot (Hand.heroCards hand) (heroCardSlot entry) card in
          (Some (withHeroCards hand newHeroCards),
           if negb (heroCardSlot entry) && negb (truthy (snd (Hand.heroCards hand)))
           then mkEntry heroCard true (boardSlot entry) (opponentCardSlot entry)
           else mkEntry none (heroCardSlot entry) (boardSlot entry)
                        (opponentCardSlot entry))
      | boardMode, Some slot, _ =>
          let board := Hand.board hand in
          let '(f0, f1, f2) := Board.flop board in
          let newBoard :=
            match slot with
            | flop0 => Board.mk (Some card, f1, f2) (Board.turn board) (Board.river board)
            | flop1 => Board.mk (f0, Some card, f2) (Board.turn board) (Board.river board)
            | flop2 => Board.mk (f0, f1, Some card) (Board.turn board) (Board.river board)
            | turnSlot => Board.mk (Board.flop board) (Some card) (Board.river board)
            | riverSlot => Board.mk (Board.flop board) (Board.turn board) (Some card)
            end in
          (Some (withBoard hand newBoard),
           mkEntry none (heroCardSlot entry) None (opponentCardSlot entry))
      | opponentCard, _, Some (pos, slot) =>
          let newOpponentHands :=
            match Hand.opponentHands hand with Some m => m | None => [] end in
          let currentCards := orElse (getSeat pos newOpponentHands) (None, None) in
          let newCards := setSlot currentCards slot card in
          let newOpponentHands := setSeat pos newCards newOpponentHands in
          (Some (withOpponentHands hand newOpponentHands),
           if negb slot && negb (truthy (snd currentCards))
           then mkEntry opponentCard (heroCardSlot entry) (boardSlot entry)
                        (Some (pos, true))
           else mkEntry none (heroCardSlot entry) (boardSlot entry) None)
      | _, _, _ => (Some hand, entry)
      end
  end.

(** [handleTableSizeChange]: the new hand and the store after
    [saveSettings]. *)
Definition handleTableSizeChange (hand : option Hand.t)
           (ls : Storage.LocalStorage) (size : Z)
  : option Hand.t * Storage.LocalStorage :=
  match hand with
  | None => (hand, ls)
  | Some hand =>
      let positions := positions size in
      let newAssignments :=
        fold_left
          (fun newAssignments pos =>
             match getSeat pos (Hand.tableAssignments hand) with
             | Some assignment => setSeat pos assignment newAssignments
             | None => setSeat pos TableAssignment.empty newAssignments
             end)
          positions [] in
      let heroPos :=
        if negb (includes (Hand.heroPosition hand) positions) then BTN
        else Hand.heroPosition hand in
      let ls :=
        Storage.saveSettings
          ls (AppSettings.mk (AppSettings.lastBlind (Storage.getSettings ls)) size) in
      (Some (withTable hand size heroPos newAssignments), ls)
  end.

Definition handleSetHero (hand : option Hand.t) (pos : Position)
  : option Hand.t :=
  match hand with
  | None => hand
  | Some hand =>
      let newAssignments := Hand.tableAssignments hand in
      let newAssignments :=
        map (fun kv =>
               if match TableAssignment.isHero (snd kv) with
                  | Some b => b
                  | None => false
                  end
               then (fst kv,
                     TableAssignment.mk (TableAssignment.playerId (snd kv))
                                        (Some false)
                                        (TableAssignment.stackBb (snd kv)))
               else kv)
            newAssignments in
      let old := orElse (getSeat pos newAssignments) TableAssignment.empty in
      let newAssignments :=
        setSeat pos (TableAssignment.mk (TableAssignment.playerId old) (Some true)
                                        (TableAssignment.stackBb old))
                newAssignments in
      Some (withTable hand (Hand.tableSize hand) pos newAssignments)
  end.

Definition handlePlayerAssign (hand : option Hand.t) (pos : Position)
           (playerId : option string) : option Hand.t :=
  match hand with
  | None => hand
  | Some hand =>
      let newAssignments := Hand.tableAssignments hand in
      let old := orElse (getSeat pos newAssignments) TableAssignment.empty in
      let newAssignments :=
        setSeat pos (TableAssignment.mk playerId (TableAssignment.isHero old)
                                        (TableAssignment.stackBb old))
                newAssignments in
      Some (withTable hand (Hand.tableSize hand) (Hand.heroPosition hand)
                      newAssignments)
  end.

(** [winners.splice(idx, 1)]. *)
Fixpoint removeAt {A} (idx : nat) (l : list A) : list A :=
  match l, idx with
  | [], _ => []
  | _ :: xs, O => xs
  | x :: xs, S i => x :: removeAt i xs
  end.

Definition handleWinnerToggle (hand : option Hand.t) (pos : Position)
  : option Hand.t :=
  match hand with
  | None => hand
  | Some hand =>
      let winners := HandResult.winnersPositions (Hand.result hand) in
      let winners :=
        match indexOf pos winners with
        | Some idx => removeAt idx winners
        | None => winners ++ [pos]
        end in
      Some (withResult hand
                       (HandResult.mk winners
                                      (HandResult.showdown (Hand.result hand))))
  end.

Definition handleShowdownToggle (hand : option Hand.t) : option Hand.t :=
  match hand with
  | None => hand
  | Some hand =>
      Some (withResult hand
                       (HandResult.mk
                          (HandResult.winnersPositions (Hand.result hand))
                          (negb (HandResult.showdown (Hand.result hand)))))
  end.

End HandEditor.

Module Home.

(** The seat list of [handleNewHand]. *)
Definition positions (lastTableSize : Z) : list Position :=
  match POSITIONS_BY_TABLE_SIZE lastTableSize with
  | Some l => l
  | None => orElse (POSITIONS_BY_TABLE_SIZE 6) []
  end.

End Home.

(** ** components/CardInput.tsx *)

Module CardInput.

Section Pad.

Variable usedCards : list Card.

Definition isCardUsed (rank suit : string) : bool :=
  let card := String.append rank suit in
  existsb (String.eqb card) usedCards.

Definition isRankFullyUsed (rank : string) : bool :=
  forallb (fun suit => isCardUsed rank suit) SUITS.

(** The next [selectedRank]. *)
Definition handleRankClick (selectedRank : option string) (rank : string)
  : option string :=
  if isRankFullyUsed rank then selectedRank else Some rank.

(** The card handed to [onCardSelect], if any, and the next [selectedRank]. *)
Definition handleSuitClick (selectedRank : option string) (suit : string)
  : option Card * option string :=
  match selectedRank with
  | Some rank =>
      if negb (truthy selectedRank) then (None, selectedRank)
      else if isCardUsed rank suit then (None, selectedRank)
      else (Some (String.append rank suit), None)
  | None => (None, selectedRank)
  end.

End Pad.

End CardInput.

Import ActionInput.

(** * Vocabulary of the statements *)

(** The seats the resolver keeps once [r] is the last preflop raise, in the
    words of the specification: the raiser, a caller after the raise, or a
    seat whose size is the all-in sentinel anywhere in the list. *)
Definition staysIn (pre : list Action) (r : Action) (pos : Position) : bool :=
  Position_eqb pos (position r)
  || existsb (fun a => isType CALL a && (order a >? order r)
                       && Position_eqb (position a) pos) pre
  || existsb (fun a => sizeIs a (-1) && Position_eqb (position a) pos) pre.

Definition nonnegBets (bets : Bets) : Prop :=
  Forall (fun kv => (0 <= snd kv)%Q) bets.

(** Every recorded size is a chip amount or the all-in sentinel. *)
Definition sizesRecorded (actions : list Action) : Prop :=
  forall a s, In a actions -> sizeBb a = Some s -> (0 <= s)%Q \/ (s == -1)%Q.

(** The forced bets the loop starts from: the pot and the preflop [bets]. *)
Definition blindsPot (tableSize : Z) (blind : BlindLevel) : Q :=
  let pot := 0%Q in
  let pot := if tableSize >=? 3
             then (pot + sbSize blind / bbSize blind)%Q else pot in
  (pot + 1)%Q.

Definition blindsBets (tableSize : Z) (blind : BlindLevel) : Bets :=
  let bets : Bets := [] in
  let bets := if tableSize >=? 3
              then setBet SB (sbSize blind / bbSize blind)%Q bets else bets in
  setBet BB 1%Q bets.

(** The pot in the words of the specification: the per-seat maps alone,
    summed over the streets that have elapsed. *)
Definition contributions (tableSize : Z) (blind : BlindLevel)
           (actions : list Action) (s : Street) : Q :=
  fst (fold_left (elapseStreet actions) (firstn (streetIndex s) streets)
                 (0%Q, blindsBets tableSize blind)).

(** The seats of the preflop order that have not folded, explicitly on any
    street or implicitly. *)
Definition standingSeats (tableSize : Z) (actions : list Action) : list Position :=
  filter (fun p => negb (includes p (allFoldedPositions tableSize actions preflop)))
         (preflopOrder tableSize).

(** The cursor of the undo history points at a snapshot, and the history
    holds at most [maxHistory] of them. *)
Definition historyOk {T} (maxHistory : Z) (h : UseUndoRedo.Hook T) : Prop :=
  0 <= UseUndoRedo.currentIndex h < Z.of_nat (length (UseUndoRedo.history h))
  /\ Z.of_nat (length (UseUndoRedo.history h)) <= maxHistory.

(** The last [m] elements of a list. *)
Definition lastN {A} (m : nat) (l : list A) : list A :=
  skipn (length l - m) l.

(** A run of [setState] calls with plain values, each made from the render
    that follows the call before it. *)
Definition edits {T} (undefined : T) (maxHistory : Z)
           (h : UseUndoRedo.Hook T) (vs : list T) : UseUndoRedo.Hook T :=
  fold_left (fun h v => UseUndoRedo.setState undefined maxHistory h (inl v)) vs h.

(** The calls [setState(v)] made by one event handler: all go through the
    callback of the render the handler belongs to, whose cursor is that of
    [h], and the hook renders again only after the handler. *)
Definition batch {T} (undefined : T) (maxHistory : Z)
           (h : UseUndoRedo.Hook T) (vs : list T) : UseUndoRedo.Hook T :=
  fold_left (fun h' v =>
               UseUndoRedo.setStateOf undefined maxHistory
                                      (UseUndoRedo.currentIndex h) h' (inl v))
            vs h.

(** A run of calls, handler by handler. *)
Definition run {T} (undefined : T) (maxHistory : Z)
           (h : UseUndoRedo.Hook T) (batches : list (list T))
  : UseUndoRedo.Hook T :=
  fold_left (batch undefined maxHistory) batches h.

(** The numbers an action list written with decimals holds. *)
Definition numbers (a : Action) : Binary64.Action :=
  Binary64.mkAction (id a) (order a) (street a) (position a) (type a)
                    (option_map Number.ofQ (sizeBb a)).

(** Replace the first entry with the key of [x], or add [x] at the end: what
    [savePlayer] and [saveHand] do to the stored array. *)
Definition upsert {A} (key : A -> string) (x : A) (l : list A) : list A :=
  match findIndex (fun y => String.eqb (key y) (key x)) l with
  | Some index => setAt index x l
  | None => l ++ [x]
  end.

(** The order keys of a hand built by appends only: each key is the index
    of its action. *)
Definition ordersArePositions (actions : list Action) : Prop :=
  map order actions = map Z.of_nat (seq 0 (length actions)).

(** The number of decimal separators in a numpad entry. *)
Fixpoint countDots (s : string) : nat :=
  match s with
  | EmptyString => 0
  | String c s' => (if Ascii.eqb c "." then 1 else 0) + countDots s'
  end.

(** The seats a street is played in. *)
Definition orderOfStreet (tableSize : Z) (s : Street) : list Position :=
  if isPreflop s then preflopOrder tableSize else postflopOrder tableSize.

(** Lower-casing of the ASCII letters of a label. *)
Definition lowerAscii (c : ascii) : ascii :=
  let n := nat_of_ascii c in
  if ((65 <=? n) && (n <=? 90))%nat then ascii_of_nat (n + 32) else c.

Fixpoint lowerString (s : string) : string :=
  match s with
  | EmptyString => EmptyString
  | String c s' => String (lowerAscii c) (lowerString s')
  end.

(** An assignment with a set hero flag switched off. *)
Definition clearHero (a : TableAssignment.t) : TableAssignment.t :=
  if match TableAssignment.isHero a with
     | Some b => b
     | None => false
     end
  then TableAssignment.mk (TableAssignment.playerId a) (Some false)
                          (TableAssignment.stackBb a)
  else a.

(** The card slots of a hand in the order [getUsedCards] visits them, each
    as the list of the cards it contributes. *)
Definition cardParts (hand : Hand.t) : list (list Card) :=
  let '(f0, f1, f2) := Board.flop (Hand.board hand) in
  [ HandEditor.pushIf (fst (Hand.heroCards hand));
    HandEditor.pushIf (snd (Hand.heroCards hand));
    HandEditor.pushIf f0; HandEditor.pushIf f1; HandEditor.pushIf f2;
    HandEditor.pushIf (Board.turn (Hand.board hand));
    HandEditor.pushIf (Board.river (Hand.board hand)) ]
  ++ flat_map (fun oc => [HandEditor.pushIf (fst oc); HandEditor.pushIf (snd oc)])
              (map snd (match Hand.opponentHands hand with
                        | Some m => m
                        | None => []
                        end)).

(** * Sample hands *)

Definition hand_btn_open : list Action :=
  [ mkAction "a0" 0 preflop BTN RAISE (Some 3%Q);
    mkAction "a1" 1 preflop SB FOLD None;
    mkAction "a2" 2 preflop BB CALL None ].

Definition hand_co_open : list Action :=
  [ mkAction "a0" 0 preflop CO RAISE (Some 3%Q);
    mkAction "a1" 1 preflop BTN CALL None ].

(** A check recorded on the flop tab before the preflop action is entered. *)
Definition hand_flop_first : list Action :=
  [ mkAction "a0" 0 flop UTG CHECK None;
    mkAction "a1" 1 preflop CO RAISE (Some 3%Q);
    mkAction "a2" 2 preflop BTN CALL None ].

Definition hand_utg_open : list Action :=
  [ mkAction "a0" 0 preflop UTG RAISE (Some 2.5%Q);
    mkAction "a1" 1 preflop HJ FOLD None;
    mkAction "a2" 2 preflop CO FOLD None;
    mkAction "a3" 3 preflop BTN FOLD None;
    mkAction "a4" 4 preflop SB FOLD None;
    mkAction "a5" 5 preflop BB CALL None ].

Definition hand_folded_to_bb : list Action :=
  [ mkAction "a0" 0 preflop BTN FOLD None;
    mkAction "a1" 1 preflop SB FOLD None;
    mkAction "a2" 2 preflop BB RAISE (Some 3%Q) ].

Definition hand_bb_calls : list Action :=
  [ mkAction "a0" 0 preflop UTG RAISE (Some 2.5%Q);
    mkAction "a1" 1 preflop BB CALL None ].

Definition hand_bb_3bets : list Action :=
  [ mkAction "a0" 0 preflop UTG RAISE (Some 2.5%Q);
    mkAction "a1" 1 preflop BB RAISE (Some 9%Q) ].

Definition hand_flop_checked : list Action :=
  [ mkAction "a0" 0 preflop BTN RAISE (Some 3%Q);
    mkAction "a1" 1 preflop SB FOLD None;
    mkAction "a2" 2 preflop BB CALL None;
    mkAction "a3" 3 flop BB CHECK None;
    mkAction "a4" 4 flop BTN CHECK None ].

(** Three-handed raises typed on the numpad. *)
Definition hand_typed_sizes : list Action :=
  [ mkAction "a0" 0 preflop BTN RAISE (Some 2.1%Q);
    mkAction "a1" 1 preflop SB RAISE (Some 3.3%Q);
    mkAction "a2" 2 preflop BB RAISE (Some 6.6%Q) ].

Definition hand_typed_sizes' : list Action :=
  [ mkAction "a0" 0 preflop BTN RAISE (Some 2.1%Q);
    mkAction "a1" 1 preflop SB RAISE (Some 3.3%Q);
    mkAction "a2" 2 preflop BB RAISE (Some 7.1%Q) ].

(** * Editor sessions *)

(** [onAddAction={handleAddAction}]: what a handler hands over is appended. *)
Definition recorded (actions : list Action) (r : Selection * option Action)
  : list Action :=
  match snd r with
  | Some a => HandEditor.handleAddAction actions a
  | None => actions
  end.

Definition noStacks : Position -> option Q := fun _ => None.

(** A preflop session at six seats: UTG opens, HJ calls, CO 3-bets, the HJ
    call is deleted again, and BTN raises. *)
Definition session1 : list Action :=
  recorded [] (handleSizeSelect [] preflop
                 (mkSelection (Some UTG) (Some RAISE) false "") "a0" 2.5%Q).

Definition session2 : list Action :=
  recorded session1 (handleTypeSelect 6 Blind_05_1 session1 preflop noStacks
                       (mkSelection (Some HJ) None false "") "a1" CALL).

Definition session3 : list Action :=
  recorded session2 (handleSizeSelect session2 preflop
                       (mkSelection (Some CO) (Some RAISE) true "8") "a2" 8%Q).

Definition session4 : list Action := HandEditor.handleRemoveAction session3 "a1".

Definition session5 : list Action :=
  recorded session4 (handleSizeSelect session4 preflop
                       (mkSelection (Some BTN) (Some RAISE) true "20") "a3" 20%Q).

Definition co_3bet : Action := mkAction "a2" 2 preflop CO RAISE (Some 8%Q).
Definition btn_raise : Action := mkAction "a3" 2 preflop BTN RAISE (Some 20%Q).

(** The same session with the UTG open deleted as well before BTN calls. *)
Definition session4' : list Action := HandEditor.handleRemoveAction session4 "a0".

Definition session5' : list Action :=
  recorded session4' (handleTypeSelect 6 Blind_05_1 session4' preflop noStacks
                        (mkSelection (Some BTN) None false "") "a3" CALL).

Definition btn_call : Action := mkAction "a3" 1 preflop BTN CALL None.

(** * Sample stores and page states *)

(** A history of three snapshots with the cursor on the second. *)
Definition sampleHistory : UseUndoRedo.Hook nat :=
  UseUndoRedo.mkHook [1; 2; 3]%nat 1.

Definition alice : Player.t := Player.mk "p1" "Alice" ["reg"] "" 100.
Definition bob : Player.t := Player.mk "p2" "Bob" [] "calls wide" 200.
Definition carol : Player.t := Player.mk "p3" "Carol" [] "" 300.

(** A three-handed hand: BTN opens, SB folds, BB calls. *)
Definition sampleHand : Hand.t :=
  Hand.mk "h1" draft 10 20 3 Blind_05_1 BTN (Some "As", Some "Kd")
          [ (BTN, TableAssignment.mk None (Some true) None);
            (SB, TableAssignment.mk (Some "p1") None None);
            (BB, TableAssignment.mk (Some "p2") None None) ]
          (Board.mk (Some "Qh", None, None) None None)
          hand_btn_open (HandResult.mk [BTN] false) None "".

Definition newHand : Hand.t :=
  Hand.mk "h2" draft 30 30 6 Blind_1_2 BTN (None, None) []
          (Board.mk (None, None, None) None None)
          [] (HandResult.mk [] false) None "".

Definition sampleStore : Storage.LocalStorage :=
  Storage.mkLocalStorage (Storage.Json [alice; bob]) (Storage.Json [sampleHand])
                         Storage.Corrupt false.

(** The same store once the quota is used up. *)
Definition fullStore : Storage.LocalStorage :=
  Storage.mkLocalStorage (Storage.Json [alice; bob]) (Storage.Json [sampleHand])
                         Storage.Corrupt true.

Definition sampleDoc : Storage.ImportDoc :=
  Storage.mkImportDoc (Some [carol]) None None.

(** Handlers that call [setState] once, and a handler that calls it twice. *)
Definition singleCalls : list (list nat) := [[2]; [3]; []; [4]; [5]]%nat.

Definition bb_flop_check : Action := mkAction "a3" 3 flop BB CHECK None.

Definition bbRaise : Selection := mkSelection (Some BB) (Some RAISE) false "".

(** The card pad opened on the second flop card. *)
Definition flopEntry : HandEditor.Entry :=
  HandEditor.mkEntry HandEditor.boardMode false (Some HandEditor.flop1) None.

(** * Properties *)

(** ** Generic facts about the primitives *)

Lemma Position_eqb_eq (a b : Position) : Position_eqb a b = true <-> a = b.
Proof. destruct a, b; simpl; split; intro H; try reflexivity; discriminate H. Qed.

Lemma Position_eqb_refl (a : Position) : Position_eqb a a = true.
Proof. now apply Position_eqb_eq. Qed.

Lemma Position_eqb_neq (a b : Position) : Position_eqb a b = false <-> a <> b.
Proof.
  split.
  - intros H E. apply Position_eqb_eq in E. congruence.
  - intro N. destruct (Position_eqb a b) eqn:E; [|reflexivity].
    apply Position_eqb_eq in E. contradiction.
Qed.

Lemma ActionType_eqb_eq (a b : ActionType) : ActionType_eqb a b = true <-> a = b.
Proof. destruct a, b; simpl; split; intro H; try reflexivity; discriminate H. Qed.

Lemma Street_eqb_eq (a b : Street) : Street_eqb a b = true <-> a = b.
Proof. destruct a, b; simpl; split; intro H; try reflexivity; discriminate H. Qed.

Lemma isType_true (t : ActionType) (a : Action) : isType t a = true <-> type a = t.
Proof. apply ActionType_eqb_eq. Qed.

Lemma isType_false (t : ActionType) (a : Action) : isType t a = false <-> type a <> t.
Proof.
  unfold isType. split.
  - intros H E. apply ActionType_eqb_eq in E. congruence.
  - intro N. destruct (ActionType_eqb (type a) t) eqn:E; [|reflexivity].
    apply ActionType_eqb_eq in E. contradiction.
Qed.

Lemma includes_In (p : Position) (l : list Position) : includes p l = true <-> In p l.
Proof.
  unfold includes. rewrite existsb_exists. split.
  - intros [x [Hx E]]. apply Position_eqb_eq in E. now subst.
  - intro H. exists p. split; [assumption | apply Position_eqb_refl].
Qed.

Lemma includes_iff_eq_bool (p : Position) (l : list Position) (b : bool) :
  (In p l <-> b = true) -> includes p l = b.
Proof.
  intro H. destruct (includes p l) eqn:E, b; try reflexivity.
  - apply includes_In, H in E. discriminate E.
  - assert (In p l) by now apply H. apply includes_In in H0. congruence.
Qed.

(** [reduce] with [later] picks an element of the list whose key is maximal;
    with [earlier], one whose key is minimal. *)
Lemma fold_later_spec (l : list Action) (x : Action) :
  let r := fold_left later l x in
  In r (x :: l) /\ forall a, In a (x :: l) -> order a <= order r.
Proof.
  revert x. induction l as [|y l IH]; intro x; simpl.
  - split; [now left | intros a [<-|[]]; lia].
  - destruct (IH (later x y)) as [Hin Hmax]. split.
    + destruct Hin as [E | Hin]; [|now right; right].
      rewrite <- E. unfold later. destruct (order y >? order x); [right|]; now left.
    + intros a Ha.
      assert (Hxy : order x <= order (later x y) /\ order y <= order (later x y)).
      { unfold later. destruct (order y >? order x) eqn:E; lia. }
      destruct Ha as [<- | [<- | Ha]].
      * specialize (Hmax (later x y) (or_introl eq_refl)). lia.
      * specialize (Hmax (later x y) (or_introl eq_refl)). lia.
      * apply Hmax. now right.
Qed.

Lemma reduce1_later_spec (l : list Action) (r : Action) :
  reduce1 later l = Some r ->
  In r l /\ forall a, In a l -> order a <= order r.
Proof.
  destruct l as [|x l]; simpl; [discriminate|].
  intro H. injection H as <-. apply fold_later_spec.
Qed.

Lemma fold_earlier_spec (l : list Action) (x : Action) :
  let r := fold_left earlier l x in
  In r (x :: l) /\ forall a, In a (x :: l) -> order r <= order a.
Proof.
  revert x. induction l as [|y l IH]; intro x; simpl.
  - split; [now left | intros a [<-|[]]; lia].
  - destruct (IH (earlier x y)) as [Hin Hmin]. split.
    + destruct Hin as [E | Hin]; [|now right; right].
      rewrite <- E. unfold earlier. destruct (order y <? order x); [right|]; now left.
    + intros a Ha.
      assert (Hxy : order (earlier x y) <= order x /\ order (earlier x y) <= order y).
      { unfold earlier. destruct (order y <? order x) eqn:E; lia. }
      destruct Ha as [<- | [<- | Ha]].
      * specialize (Hmin (earlier x y) (or_introl eq_refl)). lia.
      * specialize (Hmin (earlier x y) (or_introl eq_refl)). lia.
      * apply Hmin. now right.
Qed.

Lemma reduce1_earlier_spec (l : list Action) (r : Action) :
  reduce1 earlier l = Some r ->
  In r l /\ forall a, In a l -> order r <= order a.
Proof.
  destruct l as [|x l]; simpl; [discriminate|].
  intro H. injection H as <-. apply fold_earlier_spec.
Qed.

Lemma reduce1_None {A} (f : A -> A -> A) (l : list A) :
  reduce1 f l = None <-> l = [].
Proof. destruct l; simpl; split; intro H; congruence. Qed.

Lemma filter_nil_iff {A} (f : A -> bool) (l : list A) :
  filter f l = [] <-> forall a, In a l -> f a = false.
Proof.
  induction l as [|x l IH]; simpl.
  - split; [intros _ a [] | reflexivity].
  - destruct (f x) eqn:E; split.
    + discriminate.
    + intro H. specialize (H x (or_introl eq_refl)). congruence.
    + intros H a [<-|Ha]; [assumption | now apply IH].
    + intro H. apply IH. intros a Ha. apply H. now right.
Qed.

(** The two cases every derivation starts from: no raise in the list, or
    a raise that [reduce] picks. *)
Lemma no_raise_filter (l : list Action) :
  (forall a, In a l -> type a <> RAISE) -> filter (isType RAISE) l = [].
Proof.
  intro Hno. apply filter_nil_iff. intros a Ha. apply isType_false. now apply Hno.
Qed.

Lemma some_raise_later (l : list Action) :
  (exists a, In a l /\ type a = RAISE) ->
  exists r,
    reduce1 later (filter (isType RAISE) l) = Some r /\
    In r l /\ type r = RAISE /\
    forall a, In a l -> type a = RAISE -> order a <= order r.
Proof.
  intros [a0 [Ha0 Ht0]].
  destruct (reduce1 later (filter (isType RAISE) l)) as [r|] eqn:Hr.
  - destruct (reduce1_later_spec _ _ Hr) as [Hin Hmax].
    apply filter_In in Hin as [Hin Ht]. apply isType_true in Ht.
    exists r. repeat split; try assumption.
    intros a Ha Hta. apply Hmax, filter_In. split; [assumption|].
    now apply isType_true.
  - apply reduce1_None in Hr.
    assert (H : In a0 (filter (isType RAISE) l)).
    { apply filter_In. split; [assumption | now apply isType_true]. }
    rewrite Hr in H. destruct H.
Qed.

Lemma some_raise_earlier (l : list Action) :
  (exists a, In a l /\ type a = RAISE) ->
  exists r,
    reduce1 earlier (filter (isType RAISE) l) = Some r /\
    In r l /\ type r = RAISE /\
    forall a, In a l -> type a = RAISE -> order r <= order a.
Proof.
  intros [a0 [Ha0 Ht0]].
  destruct (reduce1 earlier (filter (isType RAISE) l)) as [r|] eqn:Hr.
  - destruct (reduce1_earlier_spec _ _ Hr) as [Hin Hmin].
    apply filter_In in Hin as [Hin Ht]. apply isType_true in Ht.
    exists r. repeat split; try assumption.
    intros a Ha Hta. apply Hmin, filter_In. split; [assumption|].
    now apply isType_true.
  - apply reduce1_None in Hr.
    assert (H : In a0 (filter (isType RAISE) l)).
    { apply filter_In. split; [assumption | now apply isType_true]. }
    rewrite Hr in H. destruct H.
Qed.

(** ** Table lookups *)

Lemma PREFLOP_ACTION_ORDER_out (n : Z) :
  n < 2 \/ 9 < n -> PREFLOP_ACTION_ORDER n = None.
Proof.
  intro H. destruct n as [|p|p]; try reflexivity.
  do 4 (destruct p as [p|p|]; try reflexivity; try lia).
Qed.

Lemma POSTFLOP_ACTION_ORDER_out (n : Z) :
  n < 2 \/ 9 < n -> POSTFLOP_ACTION_ORDER n = None.
Proof.
  intro H. destruct n as [|p|p]; try reflexivity.
  do 4 (destruct p as [p|p|]; try reflexivity; try lia).
Qed.

Lemma POSITIONS_BY_TABLE_SIZE_out (n : Z) :
  n < 2 \/ 9 < n -> POSITIONS_BY_TABLE_SIZE n = None.
Proof.
  intro H. destruct n as [|p|p]; try reflexivity.
  do 4 (destruct p as [p|p|]; try reflexivity; try lia).
Qed.

Lemma PREFLOP_ACTION_ORDER_in (n : Z) :
  2 <= n <= 9 -> PREFLOP_ACTION_ORDER n <> None.
Proof.
  intro H.
  assert (E : n = 2 \/ n = 3 \/ n = 4 \/ n = 5 \/ n = 6 \/ n = 7 \/ n = 8 \/ n = 9) by lia.
  repeat (destruct E as [-> | E]; [discriminate|]). subst. discriminate.
Qed.

(** C9 as stated fails: at table size 10 both action orders are empty, which
    is the configuration of no table size from 2 to 9. *)
Lemma action_order_out_of_range_is_empty :
  preflopOrder 10 = [] /\ postflopOrder 10 = [] /\
  forall d, 2 <= d <= 9 ->
            preflopOrder 10 <> preflopOrder d /\ postflopOrder 10 <> postflopOrder d.
Proof.
  split; [reflexivity | split; [reflexivity|]].
  intros d H.
  assert (E : d = 2 \/ d = 3 \/ d = 4 \/ d = 5 \/ d = 6 \/ d = 7 \/ d = 8 \/ d = 9) by lia.
  repeat (destruct E as [-> | E]; [split; discriminate|]). subst. split; discriminate.
Qed.

(** C9, amended: outside 2..9 the seat list used to create a hand or to
    change the table size is the one of the 6-seat table, while the preflop
    and postflop action orders are the empty list; nothing fails. *)
Theorem out_of_range_table_size (n : Z) :
  n < 2 \/ 9 < n ->
  Home.positions n = [UTG; HJ; CO; BTN; SB; BB] /\
  HandEditor.positions n = [UTG; HJ; CO; BTN; SB; BB] /\
  Home.positions n = Home.positions DEFAULT_lastTableSize /\
  preflopOrder n = [] /\
  postflopOrder n = [].
Proof.
  intro H. unfold Home.positions, HandEditor.positions, preflopOrder, postflopOrder.
  rewrite (POSITIONS_BY_TABLE_SIZE_out n H), (PREFLOP_ACTION_ORDER_out n H),
    (POSTFLOP_ACTION_ORDER_out n H).
  repeat split.
Qed.

Lemma out_of_range_table_size_witness :
  (10 < 2 \/ 9 < 10) /\
  Home.positions 10 = [UTG; HJ; CO; BTN; SB; BB] /\
  HandEditor.positions 10 = [UTG; HJ; CO; BTN; SB; BB] /\
  Home.positions 10 = Home.positions DEFAULT_lastTableSize /\
  preflopOrder 10 = [] /\
  postflopOrder 10 = [].
Proof.
  split; [right; lia | apply (out_of_range_table_size 10); right; lia].
Defined.

(** ** Active-player resolver *)

Lemma staysIn_spec (pre : list Action) (r : Action) (pos : Position) :
  staysIn pre r pos = true <->
  pos = position r
  \/ (exists a, In a pre /\ type a = CALL /\ order r < order a /\ position a = pos)
  \/ (exists a s, In a pre /\ sizeBb a = Some s /\ (s == -1)%Q /\ position a = pos).
Proof.
  unfold staysIn. rewrite !orb_true_iff, !existsb_exists, Position_eqb_eq.
  split.
  - intros [[H | [a [Ha H]]] | [a [Ha H]]].
    + now left.
    + right; left. exists a.
      apply andb_true_iff in H as [H Hp]. apply andb_true_iff in H as [Ht Ho].
      apply isType_true in Ht. apply Position_eqb_eq in Hp.
      repeat split; try assumption. lia.
    + right; right.
      apply andb_true_iff in H as [Hs Hp]. apply Position_eqb_eq in Hp.
      unfold sizeIs in Hs. destruct (sizeBb a) as [s|] eqn:Es; [|discriminate].
      exists a, s. apply Qeq_bool_iff in Hs. repeat split; assumption.
  - intros [H | [[a [Ha [Ht [Ho Hp]]]] | [a [s [Ha [Es [Hs Hp]]]]]]].
    + now left; left.
    + left; right. exists a. split; [assumption|].
      rewrite !andb_true_iff. repeat split.
      * now apply isType_true.
      * lia.
      * now apply Position_eqb_eq.
    + right. exists a. split; [assumption|].
      rewrite andb_true_iff. split.
      * unfold sizeIs. rewrite Es. now apply Qeq_bool_iff.
      * now apply Position_eqb_eq.
Qed.

(** A [forEach] that pushes the seat of every action passing a test. *)
Lemma pushing_loop_In (c : Action -> bool)
      (step : list Position -> Action -> list Position) :
  (forall inHand a pos,
      In pos (step inHand a) <-> In pos inHand \/ (c a = true /\ position a = pos)) ->
  forall l inHand pos,
    In pos (fold_left step l inHand) <->
    In pos inHand \/ exists a, In a l /\ c a = true /\ position a = pos.
Proof.
  intros Hstep l. induction l as [|x l IH]; intros inHand pos; simpl.
  - split; [now left | intros [H | [a [[] _]]]; assumption].
  - rewrite IH, Hstep. split.
    + intros [[H | [Hc Hp]] | [a [Ha H]]].
      * now left.
      * right. exists x. auto.
      * right. exists a. split; [now right | assumption].
    + intros [H | [a [[<- | Ha] H]]].
      * now left; left.
      * left; right. assumption.
      * right. exists a. auto.
Qed.

Lemma push_new_In (inHand : list Position) (p pos : Position) :
  In pos (if negb (includes p inHand) then inHand ++ [p] else inHand) <->
  In pos inHand \/ p = pos.
Proof.
  destruct (includes p inHand) eqn:E; simpl.
  - apply includes_In in E. split; [now left | intros [H | <-]; assumption].
  - rewrite in_app_iff. simpl. tauto.
Qed.

Lemma callers_loop_In (r : Action) (l : list Action)
      (inHand : list Position) (pos : Position) :
  In pos (fold_left
            (fun inHand a =>
               if (order a >? order r)
                  && (isType CALL a || (isType RAISE a && sizeIs a (-1)))
               then
                 if negb (includes (position a) inHand)
                 then inHand ++ [position a] else inHand
               else inHand) l inHand)
  <->
  In pos inHand \/
  exists a, In a l
            /\ (order a >? order r)
               && (isType CALL a || (isType RAISE a && sizeIs a (-1))) = true
            /\ position a = pos.
Proof.
  apply (pushing_loop_In
           (fun a => (order a >? order r)
                     && (isType CALL a || (isType RAISE a && sizeIs a (-1))))).
  intros ih a p.
  destruct ((order a >? order r)
            && (isType CALL a || (isType RAISE a && sizeIs a (-1)))).
  - rewrite push_new_In. intuition congruence.
  - intuition congruence.
Qed.

Lemma allin_loop_In (l : list Action) (inHand : list Position) (pos : Position) :
  In pos (fold_left
            (fun inHand a =>
               if sizeIs a (-1) && negb (includes (position a) inHand)
               then inHand ++ [position a] else inHand) l inHand)
  <->
  In pos inHand \/ exists a, In a l /\ sizeIs a (-1) = true /\ position a = pos.
Proof.
  apply (pushing_loop_In (fun a => sizeIs a (-1))).
  intros ih a p. destruct (sizeIs a (-1)); simpl.
  - rewrite push_new_In. intuition congruence.
  - intuition congruence.
Qed.

(** The resolver is the postflop order filtered by [staysIn]. *)
Lemma playersInHand_filter (tableSize : Z) (actions : list Action) (r : Action) :
  reduce1 later (filter (isType RAISE) (preflopActions actions)) = Some r ->
  playersInHand tableSize actions =
  filter (staysIn (preflopActions actions) r) (postflopOrder tableSize).
Proof.
  intro Hr. unfold playersInHand. rewrite Hr.
  apply filter_ext. intro pos. apply includes_iff_eq_bool.
  rewrite allin_loop_In, callers_loop_In.
  unfold staysIn. rewrite !orb_true_iff, !existsb_exists, Position_eqb_eq.
  split.
  - intros [[[E | []] | [a [Ha [Hc Hp]]]] | [a [Ha [Hc Hp]]]].
    + left; left. now subst.
    + apply andb_true_iff in Hc as [Ho Hc].
      apply orb_true_iff in Hc as [Hc | Hc].
      * left; right. exists a. split; [assumption|].
        rewrite Hc, Ho. simpl. now apply Position_eqb_eq.
      * right. exists a. split; [assumption|].
        apply andb_true_iff in Hc as [_ Hc]. rewrite Hc. simpl.
        now apply Position_eqb_eq.
    + right. exists a. split; [assumption|]. rewrite Hc. simpl.
      now apply Position_eqb_eq.
  - intros [[E | [a [Ha H]]] | [a [Ha H]]].
    + left; left. left. now subst.
    + left; right. exists a. split; [assumption|].
      apply andb_true_iff in H as [H Hp]. apply andb_true_iff in H as [Ht Ho].
      apply Position_eqb_eq in Hp. split; [|assumption].
      rewrite Ho, Ht. reflexivity.
    + right. exists a. split; [assumption|].
      apply andb_true_iff in H as [Hs Hp]. apply Position_eqb_eq in Hp. auto.
Qed.

(** C2: without a preflop raise the resolver returns the postflop order
    unchanged; with one, it returns the postflop order filtered to the seat of
    a raise of greatest order, the seats calling after that raise and the
    seats holding the all-in sentinel; [BTN raise 3, SB fold, BB call] at six
    seats gives [BB, BTN]. *)
Theorem playersInHand_resolves (tableSize : Z) (actions : list Action) :
  let pre := preflopActions actions in
  ((forall a, In a pre -> type a <> RAISE) ->
   playersInHand tableSize actions = postflopOrder tableSize)
  /\
  ((exists a, In a pre /\ type a = RAISE) ->
   exists r,
     In r pre /\ type r = RAISE /\
     (forall a, In a pre -> type a = RAISE -> order a <= order r) /\
     playersInHand tableSize actions =
       filter (staysIn pre r) (postflopOrder tableSize) /\
     forall pos,
       In pos (playersInHand tableSize actions) <->
       In pos (postflopOrder tableSize) /\
       (pos = position r
        \/ (exists a, In a pre /\ type a = CALL /\ order r < order a
                      /\ position a = pos)
        \/ (exists a s, In a pre /\ sizeBb a = Some s /\ (s == -1)%Q
                        /\ position a = pos)))
  /\
  playersInHand 6 hand_btn_open = [BB; BTN].
Proof.
  intro pre. split; [|split].
  - intro Hno. unfold playersInHand. fold pre.
    rewrite (no_raise_filter pre Hno). reflexivity.
  - intro Hex.
    destruct (some_raise_later pre Hex) as [r [Hr [Hin [Ht Hmax]]]].
    exists r. split; [assumption|]. split; [assumption|]. split; [assumption|].
    pose proof (playersInHand_filter tableSize actions r Hr) as E. fold pre in E.
    split; [assumption|].
    intro pos. rewrite E, filter_In, staysIn_spec. reflexivity.
  - reflexivity.
Qed.

Lemma playersInHand_resolves_witness :
  (exists a, In a (preflopActions hand_btn_open) /\ type a = RAISE) /\
  exists r,
    In r (preflopActions hand_btn_open) /\ type r = RAISE /\
    playersInHand 6 hand_btn_open =
      filter (staysIn (preflopActions hand_btn_open) r) (postflopOrder 6).
Proof.
  assert (H : exists a, In a (preflopActions hand_btn_open) /\ type a = RAISE).
  { eexists. split; [left; reflexivity | reflexivity]. }
  split; [exact H|].
  destruct (proj1 (proj2 (playersInHand_resolves 6 hand_btn_open)) H)
    as [r [H1 [H2 [_ [H4 _]]]]].
  exists r. repeat split; assumption.
Defined.

(** ** Implicit-fold inference *)

Lemma indexOf_split (p : Position) (l before after : list Position) :
  l = before ++ p :: after -> ~ In p before ->
  indexOf p l = Some (length before) /\ firstn (length before) l = before.
Proof.
  intros -> Hn. induction before as [|x before IH]; simpl.
  - rewrite Position_eqb_refl. split; reflexivity.
  - assert (Hx : Position_eqb x p = false).
    { apply Position_eqb_neq. intro E. apply Hn. now left. }
    rewrite Hx. destruct IH as [IH1 IH2].
    { intro H. apply Hn. now right. }
    rewrite IH1, IH2. split; reflexivity.
Qed.

Lemma indexOf_absent (p : Position) (l : list Position) :
  ~ In p l -> indexOf p l = None.
Proof.
  induction l as [|x l IH]; simpl; intro Hn; [reflexivity|].
  assert (Hx : Position_eqb x p = false).
  { apply Position_eqb_neq. intro E. apply Hn. now left. }
  rewrite Hx, IH; [reflexivity|]. intro H. apply Hn. now right.
Qed.

Lemma uniq_In (x : Position) (l seen : list Position) :
  In x (uniq seen l) <-> In x l /\ ~ In x seen.
Proof.
  revert seen. induction l as [|y l IH]; intro seen; simpl.
  - tauto.
  - destruct (includes y seen) eqn:E.
    + apply includes_In in E. rewrite IH. split.
      * intros [H1 H2]. auto.
      * intros [[<- | H1] H2]; [contradiction | auto].
    + assert (Hy : ~ In y seen).
      { intro H. apply includes_In in H. congruence. }
      simpl. rewrite IH. simpl. split.
      * intros [<- | [H1 H2]]; [auto | split; [auto | tauto]].
      * intros [[<- | H1] H2]; [now left|].
        destruct (Position_eqb y x) eqn:Eyx.
        -- apply Position_eqb_eq in Eyx. now left.
        -- apply Position_eqb_neq in Eyx. right. split; [assumption|].
           intros [H | H]; contradiction.
Qed.

Lemma allFoldedPositions_In (tableSize : Z) (actions : list Action)
      (s : Street) (pos : Position) :
  In pos (allFoldedPositions tableSize actions s) <->
  In pos (explicitlyFoldedPositions actions)
  \/ In pos (implicitlyFoldedPositions tableSize actions s).
Proof.
  unfold allFoldedPositions. rewrite uniq_In, in_app_iff. simpl. tauto.
Qed.

(** C5 as stated fails: UTG has a recorded action (a flop check) and is
    still inferred to have folded, since only preflop actions are looked at. *)
Lemma implicit_fold_ignores_later_streets :
  In UTG (implicitlyFoldedPositions 6 hand_flop_first preflop) /\
  ~ (forall pos,
        In pos (implicitlyFoldedPositions 6 hand_flop_first preflop) ->
        forall a, In a hand_flop_first -> position a <> pos).
Proof.
  split.
  - simpl. now left.
  - intro H. apply (H UTG) with (a := mkAction "a0" 0 flop UTG CHECK None).
    + simpl. now left.
    + simpl. now left.
    + reflexivity.
Qed.

(** C5, amended: on the preflop street, without a preflop raise there are no
    implicit folds; otherwise they are the seats standing before the seat of
    a preflop raise of smallest order in the preflop order that have no
    recorded preflop action, and none of them is an available position;
    [CO raise 3, BTN call] at six seats gives [UTG, HJ]. *)
Theorem implicit_folds_preflop (tableSize : Z) (actions : list Action) :
  let pre := preflopActions actions in
  let folds := implicitlyFoldedPositions tableSize actions preflop in
  ((forall a, In a pre -> type a <> RAISE) -> folds = [])
  /\
  ((exists a, In a pre /\ type a = RAISE) ->
   exists opener,
     In opener pre /\ type opener = RAISE /\
     (forall a, In a pre -> type a = RAISE -> order opener <= order a) /\
     (forall before after,
         preflopOrder tableSize = before ++ position opener :: after ->
         ~ In (position opener) before ->
         folds = filter (fun pos =>
                           negb (existsb (fun a => Position_eqb (position a) pos) pre))
                        before) /\
     (~ In (position opener) (preflopOrder tableSize) -> folds = []))
  /\
  (forall pos, In pos folds ->
               ~ In pos (availablePositions tableSize actions preflop))
  /\
  implicitlyFoldedPositions 6 hand_co_open preflop = [UTG; HJ]
  /\
  availablePositions 6 hand_co_open preflop = [CO; BTN; SB; BB].
Proof.
  intros pre folds. split; [|split; [|split; [|split]]].
  - intro Hno. unfold folds, implicitlyFoldedPositions. simpl. fold pre.
    rewrite (no_raise_filter pre Hno). reflexivity.
  - intro Hex.
    destruct (some_raise_earlier pre Hex) as [r [Hr [Hin [Ht Hmin]]]].
    exists r. split; [assumption|]. split; [assumption|]. split; [assumption|].
    split.
    + intros before after Hsplit Hnot.
      unfold folds, implicitlyFoldedPositions. simpl. fold pre. rewrite Hr.
      destruct (indexOf_split _ _ _ _ Hsplit Hnot) as [Hi Hf].
      rewrite Hi, Hf. reflexivity.
    + intro Hnot. unfold folds, implicitlyFoldedPositions. simpl. fold pre.
      rewrite Hr, (indexOf_absent _ _ Hnot). reflexivity.
  - intros pos Hpos Hav. unfold availablePositions in Hav. simpl in Hav.
    apply filter_In in Hav as [_ Hav]. apply negb_true_iff in Hav.
    assert (In pos (allFoldedPositions tableSize actions preflop)).
    { apply allFoldedPositions_In. now right. }
    apply includes_In in H. congruence.
  - reflexivity.
  - reflexivity.
Qed.

Lemma implicit_folds_preflop_witness :
  (exists a, In a (preflopActions hand_co_open) /\ type a = RAISE) /\
  exists opener,
    In opener (preflopActions hand_co_open) /\ type opener = RAISE /\
    (~ In (position opener) (preflopOrder 6) ->
     implicitlyFoldedPositions 6 hand_co_open preflop = []).
Proof.
  assert (H : exists a, In a (preflopActions hand_co_open) /\ type a = RAISE).
  { eexists. split; [left; reflexivity | reflexivity]. }
  split; [exact H|].
  destruct (proj1 (proj2 (implicit_folds_preflop 6 hand_co_open)) H)
    as [r [H1 [H2 [_ [_ H5]]]]].
  exists r. repeat split; assumption.
Defined.

(** ** Pot calculator *)

Lemma Qmaxb_nonneg (a b : Q) : (0 <= b)%Q -> (0 <= Qmaxb a b)%Q.
Proof.
  intro Hb. unfold Qmaxb. destruct (Qle_bool a b) eqn:E; [assumption|].
  destruct (Qlt_le_dec b a) as [H | H].
  - lra.
  - apply Qle_bool_iff in H. congruence.
Qed.

Lemma Math_max0_nonneg (vs : list Q) : (0 <= Math_max0 vs)%Q.
Proof.
  induction vs as [|v vs IH]; simpl.
  - lra.
  - now apply Qmaxb_nonneg.
Qed.

Lemma setBet_nonneg (k : Position) (v : Q) (bets : Bets) :
  (0 <= v)%Q -> nonnegBets bets -> nonnegBets (setBet k v bets).
Proof.
  intros Hv H. induction H as [|[k' v'] rest Hx Hrest IH]; simpl.
  - constructor; [assumption | constructor].
  - destruct (Position_eqb k' k).
    + constructor; assumption.
    + constructor; assumption.
Qed.

Lemma recordBet_nonneg (bets : Bets) (a : Action) :
  (forall s, sizeBb a = Some s -> (0 <= s)%Q \/ (s == -1)%Q) ->
  nonnegBets bets -> nonnegBets (recordBet bets a).
Proof.
  intros Hs H. unfold recordBet.
  destruct (isType RAISE a); destruct (sizeBb a) as [s|] eqn:Es.
  - apply setBet_nonneg; [|assumption].
    destruct (Qeq_bool s (-1)) eqn:E; [lra|].
    destruct (Hs s eq_refl) as [H0 | H1]; [assumption|].
    apply Qeq_bool_iff in H1. congruence.
  - destruct (isType CALL a); [|assumption].
    apply setBet_nonneg; [apply Math_max0_nonneg | assumption].
  - destruct (isType CALL a); [|assumption].
    apply setBet_nonneg; [apply Math_max0_nonneg | assumption].
  - destruct (isType CALL a); [|assumption].
    apply setBet_nonneg; [apply Math_max0_nonneg | assumption].
Qed.

Lemma fold_recordBet_nonneg (l : list Action) (bets : Bets) :
  (forall a s, In a l -> sizeBb a = Some s -> (0 <= s)%Q \/ (s == -1)%Q) ->
  nonnegBets bets -> nonnegBets (fold_left recordBet l bets).
Proof.
  revert bets. induction l as [|a l IH]; intros bets Hs H; simpl; [assumption|].
  apply IH.
  - intros b s Hb. apply Hs. now right.
  - apply recordBet_nonneg; [|assumption]. intros s. apply Hs. now left.
Qed.

Lemma fold_Qplus_ge (vs : list Q) (acc : Q) :
  Forall (fun v => (0 <= v)%Q) vs -> (acc <= fold_left Qplus vs acc)%Q.
Proof.
  intro H. revert acc. induction H as [|v vs Hv Hvs IH]; intro acc; simpl.
  - lra.
  - specialize (IH (acc + v)%Q). lra.
Qed.

Lemma sumBets_nonneg (bets : Bets) : nonnegBets bets -> (0 <= sumBets bets)%Q.
Proof.
  intro H. unfold sumBets. apply fold_Qplus_ge.
  unfold values. apply Forall_map. exact H.
Qed.

Lemma resetBets_nonneg (bets : Bets) : nonnegBets (resetBets bets).
Proof.
  unfold nonnegBets, resetBets. apply Forall_map, Forall_forall.
  intros kv _. simpl. lra.
Qed.

(** A street that has elapsed adds a non-negative amount to the pot. *)
Lemma elapseStreet_grows (actions : list Action) (st : Q * Bets) (s : Street) :
  sizesRecorded actions -> nonnegBets (snd st) ->
  (fst st <= fst (elapseStreet actions st s))%Q /\
  nonnegBets (snd (elapseStreet actions st s)).
Proof.
  intros Hs H. unfold elapseStreet. simpl. split.
  - assert (0 <= sumBets (fold_left recordBet (filter (onStreet s) actions) (snd st)))%Q.
    { apply sumBets_nonneg, fold_recordBet_nonneg; [|assumption].
      intros a q Ha. apply filter_In in Ha as [Ha _]. now apply Hs. }
    lra.
  - apply resetBets_nonneg.
Qed.

Lemma potSize_unfold (tableSize : Z) (blind : BlindLevel)
      (actions : list Action) (s : Street) :
  potSize tableSize blind actions s =
  fst (fold_left (elapseStreet actions) (firstn (streetIndex s) streets)
                 (blindsPot tableSize blind, blindsBets tableSize blind)).
Proof. reflexivity. Qed.

Lemma blind_ratio_nonneg (blind : BlindLevel) :
  (0 <= sbSize blind / bbSize blind)%Q.
Proof. destruct blind; unfold Qle; simpl; lia. Qed.

Lemma blindsBets_nonneg (tableSize : Z) (blind : BlindLevel) :
  nonnegBets (blindsBets tableSize blind).
Proof.
  unfold blindsBets. apply setBet_nonneg; [lra|].
  destruct (tableSize >=? 3).
  - apply setBet_nonneg; [apply blind_ratio_nonneg | constructor].
  - constructor.
Qed.

(** C10: when every recorded size is non-negative or the sentinel -1, the
    pot entering a street never decreases along preflop, flop, turn, river. *)
Theorem potSize_monotone (tableSize : Z) (blind : BlindLevel)
        (actions : list Action) :
  sizesRecorded actions ->
  (potSize tableSize blind actions preflop <= potSize tableSize blind actions flop)%Q
  /\
  (potSize tableSize blind actions flop <= potSize tableSize blind actions turn)%Q
  /\
  (potSize tableSize blind actions turn <= potSize tableSize blind actions river)%Q.
Proof.
  intro Hs. rewrite !potSize_unfold. simpl.
  set (st0 := (blindsPot tableSize blind, blindsBets tableSize blind)).
  assert (H0 : nonnegBets (snd st0)) by apply blindsBets_nonneg.
  destruct (elapseStreet_grows actions st0 preflop Hs H0) as [L1 H1].
  destruct (elapseStreet_grows actions _ flop Hs H1) as [L2 H2].
  destruct (elapseStreet_grows actions _ turn Hs H2) as [L3 _].
  repeat split; assumption.
Qed.

Lemma hand_utg_open_sizes : sizesRecorded hand_utg_open.
Proof.
  intros a s Ha Hs. simpl in Ha.
  repeat (destruct Ha as [<- | Ha]; [simpl in Hs; try discriminate|]).
  - injection Hs as <-. left. unfold Qle. simpl. lia.
  - destruct Ha.
Qed.

Lemma potSize_monotone_witness :
  sizesRecorded hand_utg_open /\
  (potSize 6 Blind_05_1 hand_utg_open preflop
   <= potSize 6 Blind_05_1 hand_utg_open flop)%Q.
Proof.
  split.
  - exact hand_utg_open_sizes.
  - exact (proj1 (potSize_monotone 6 Blind_05_1 hand_utg_open hand_utg_open_sizes)).
Defined.

(** What the loop computes: the blinds are in the pot from the start and
    are summed once more with the preflop [bets]. *)
Lemma potSize_preflop (tableSize : Z) (blind : BlindLevel) (actions : list Action) :
  potSize tableSize blind actions preflop = blindsPot tableSize blind.
Proof. reflexivity. Qed.

Lemma potSize_flop (tableSize : Z) (blind : BlindLevel) (actions : list Action) :
  potSize tableSize blind actions flop =
  (blindsPot tableSize blind
   + sumBets (fold_left recordBet (filter (onStreet preflop) actions)
                        (blindsBets tableSize blind)))%Q.
Proof. reflexivity. Qed.

Lemma elapsed_pot_shift (actions : list Action) (l : list Street)
      (p q : Q) (bets : Bets) :
  (fst (fold_left (elapseStreet actions) l (p, bets)) + q
   == fst (fold_left (elapseStreet actions) l (q, bets)) + p)%Q.
Proof.
  revert p q bets. induction l as [|s l IH]; intros p q bets; simpl.
  - lra.
  - unfold elapseStreet at 2 4. simpl.
    set (b := fold_left recordBet (filter (onStreet s) actions) bets).
    specialize (IH (p + sumBets b)%Q (q + sumBets b)%Q (resetBets b)). lra.
Qed.

(** On every input the pot of the code is the contributions of the
    specification plus the blinds once more. *)
Lemma potSize_blinds_plus_contributions
      (tableSize : Z) (blind : BlindLevel) (actions : list Action) (s : Street) :
  (potSize tableSize blind actions s
   == blindsPot tableSize blind + contributions tableSize blind actions s)%Q.
Proof.
  rewrite potSize_unfold. unfold contributions.
  pose proof (elapsed_pot_shift actions (firstn (streetIndex s) streets)
                                (blindsPot tableSize blind) 0
                                (blindsBets tableSize blind)) as H.
  lra.
Qed.

(** C1, the code at the input of the claim: the pot entering the flop is
    7 BB, not 5.5 BB; the per-seat contributions alone sum to 5.5 BB, and the
    1.5 BB of blinds the pot starts from are counted a second time. *)
Theorem potSize_flop_counts_blinds_twice :
  (potSize 6 Blind_05_1 hand_utg_open flop == 7)%Q /\
  ~ (potSize 6 Blind_05_1 hand_utg_open flop == 5.5)%Q /\
  (blindsPot 6 Blind_05_1 == 1.5)%Q /\
  (contributions 6 Blind_05_1 hand_utg_open flop == 5.5)%Q /\
  (potSize 6 Blind_05_1 [] flop == 3)%Q.
Proof.
  repeat split; try reflexivity.
  intro H. vm_compute in H. discriminate H.
Qed.

(** ** Bet-sizing resolver *)

Lemma Math_round_bounds (x : Q) :
  (inject_Z (Math_round x) - (1 # 2) <= x < inject_Z (Math_round x) + (1 # 2))%Q.
Proof.
  unfold Math_round.
  pose proof (Qfloor_le (x + (1 # 2))) as Hle.
  pose proof (Qlt_floor (x + (1 # 2))) as Hlt.
  rewrite inject_Z_plus in Hlt. change (inject_Z 1) with 1%Q in Hlt.
  split; lra.
Qed.

Lemma Math_round_tie (x : Q) (k : Z) :
  (x == inject_Z k + (1 # 2))%Q -> Math_round x = k + 1.
Proof.
  intro H. unfold Math_round.
  assert (E : (x + (1 # 2) == inject_Z (k + 1))%Q).
  { rewrite inject_Z_plus. change (inject_Z 1) with 1%Q. lra. }
  rewrite E. apply Qfloor_Z.
Qed.

Lemma Number_Math_round_nearest (x : Number.t) :
  match x with
  | SpecFloat.S754_finite sg _ _ =>
      let n := Qfloor (Number.value x + (1 # 2)) in
      Number.Math_round x = Number.ofInteger sg n
      /\ (inject_Z n - (1 # 2) <= Number.value x < inject_Z n + (1 # 2))%Q
      /\ forall k : Z, (Number.value x == inject_Z k + (1 # 2))%Q -> n = k + 1
  | _ => Number.Math_round x = x
  end.
Proof.
  destruct x as [sg | sg | | sg m e]; try reflexivity.
  cbv zeta. split; [reflexivity|]. split.
  - apply (Math_round_bounds (Number.value (SpecFloat.S754_finite sg m e))).
  - intro k. apply (Math_round_tie (Number.value (SpecFloat.S754_finite sg m e)) k).
Qed.

(** The exact pot and the pot the program holds: equal at 7 BB, one ulp
    apart where the sizes 2.1, 3.3 and 6.6 were typed. *)
Lemma typed_sizes_pot :
  (potSize 3 Blind_05_1 hand_typed_sizes flop == 13.5)%Q
  /\ Number.value (Binary64.potSize 3 Blind_05_1 (map numbers hand_typed_sizes) flop)
     = (7599824371187711 # 562949953421312)%Q
  /\ (Number.value (Binary64.potSize 3 Blind_05_1 (map numbers hand_typed_sizes) flop)
      < 13.5)%Q
  /\ (Number.value (Binary64.potSize 6 Blind_05_1 (map numbers hand_utg_open) flop)
      == 7)%Q.
Proof. repeat apply conj; vm_compute; reflexivity. Qed.

(** C7: a pot-fraction preset records [Math.round(potSize * ratio)]: the
    pot and the product are the binary64 numbers the program forms, and the
    recorded size is the integer nearest to that product, a tie going up;
    7 BB at 0.67 gives 5 BB and 10 BB at 0.25 gives 3 BB. On typed sizes the
    pot can fall an ulp short of the decimal sum, and the rounding follows
    the pot the program holds: 13.499999999999998 at the pot preset gives
    13 BB and 13.999999999999998 at 0.25 gives 3 BB. *)
Theorem pot_ratio_rounds_half_up
        (tableSize : Z) (blind : BlindLevel) (actions : list Binary64.Action)
        (s : Street) (pos : Position) (ty : ActionType)
        (numpad : bool) (custom : string) (newId : string) (ratio : Number.t) :
  let selection := mkSelection (Some pos) (Some ty) numpad custom in
  let p := Binary64.potSize tableSize blind actions s in
  let x := Number.mul p ratio in
  snd (Binary64.handlePotRatioSelect tableSize blind actions s selection newId
                                     ratio)
  = Some (Binary64.mkAction newId (Z.of_nat (length actions)) s pos RAISE
                            (Some (Number.Math_round x)))
  /\ match x with
     | SpecFloat.S754_finite sg _ _ =>
         let n := Qfloor (Number.value x + (1 # 2)) in
         Number.Math_round x = Number.ofInteger sg n
         /\ (inject_Z n - (1 # 2) <= Number.value x < inject_Z n + (1 # 2))%Q
         /\ forall k : Z, (Number.value x == inject_Z k + (1 # 2))%Q -> n = k + 1
     | _ => Number.Math_round x = x
     end
  /\ Number.Math_round (Number.mul (Number.ofZ 7) (Number.ofQ 0.67)) = Number.ofZ 5
  /\ Number.Math_round (Number.mul (Number.ofZ 10) (Number.ofQ 0.25)) = Number.ofZ 3
  /\ snd (Binary64.handlePotRatioSelect
            6 Blind_05_1 (map numbers hand_utg_open) flop
            (mkSelection (Some BB) (Some RAISE) false "") "a6" (Number.ofQ 0.67))
     = Some (Binary64.mkAction "a6" 6 flop BB RAISE (Some (Number.ofZ 5)))
  /\ snd (Binary64.handlePotRatioSelect
            3 Blind_05_1 (map numbers hand_typed_sizes) flop
            (mkSelection (Some BB) (Some RAISE) false "") "a3" (Number.ofZ 1))
     = Some (Binary64.mkAction "a3" 3 flop BB RAISE (Some (Number.ofZ 13)))
  /\ snd (Binary64.handlePotRatioSelect
            3 Blind_05_1 (map numbers hand_typed_sizes') flop
            (mkSelection (Some BB) (Some RAISE) false "") "a3" (Number.ofQ 0.25))
     = Some (Binary64.mkAction "a3" 3 flop BB RAISE (Some (Number.ofZ 3))).
Proof.
  intros selection p x. split; [reflexivity|].
  split; [exact (Number_Math_round_nearest x)|].
  repeat split.
Qed.

(** ** Street-completion detector *)

Lemma isPreflop_false (s : Street) : s <> preflop -> isPreflop s = false.
Proof. destruct s; intro H; [contradiction | reflexivity ..]. Qed.

Lemma in_map_position (p : Position) (l : list Action) :
  In p (map position l) <-> exists a, In a l /\ position a = p.
Proof.
  rewrite in_map_iff. split; intros [a [H1 H2]]; exists a; auto.
Qed.

Lemma explicitlyFoldedPositions_In (actions : list Action) (p : Position) :
  In p (explicitlyFoldedPositions actions) <->
  exists a, In a actions /\ type a = FOLD /\ position a = p.
Proof.
  unfold explicitlyFoldedPositions. rewrite in_map_position. split.
  - intros [a [Ha Hp]]. apply filter_In in Ha as [Ha Ht].
    apply isType_true in Ht. exists a. auto.
  - intros [a [Ha [Ht Hp]]]. exists a. split; [|assumption].
    apply filter_In. split; [assumption | now apply isType_true].
Qed.

(** The test of the postflop raise branch on the seats still to answer. *)
Lemma allOthersActed_spec
      (active : list Position) (cur actions : list Action) (r : Action) :
  forallb (fun p =>
             includes p (map position (filter (fun a => order a >? order r) cur))
             || includes p (explicitlyFoldedPositions actions))
          (filter (fun p => negb (Position_eqb p (position r))) active) = true
  <->
  forall p, In p active -> p <> position r ->
            (exists a, In a cur /\ order r < order a /\ position a = p)
            \/ (exists a, In a actions /\ type a = FOLD /\ position a = p).
Proof.
  rewrite forallb_forall. split.
  - intros H p Hp Hne.
    assert (Hp' : In p (filter (fun p0 => negb (Position_eqb p0 (position r))) active)).
    { apply filter_In. split; [assumption|].
      now apply negb_true_iff, Position_eqb_neq. }
    specialize (H p Hp'). apply orb_true_iff in H as [H | H].
    + left. apply includes_In, in_map_position in H as [a [Ha Hpa]].
      apply filter_In in Ha as [Ha Ho]. exists a. repeat split; try assumption. lia.
    + right. now apply explicitlyFoldedPositions_In, includes_In.
  - intros H p Hp. apply filter_In in Hp as [Hp Hne].
    apply negb_true_iff, Position_eqb_neq in Hne.
    apply orb_true_iff.
    destruct (H p Hp Hne) as [[a [Ha [Ho Hpa]]] | Hf].
    + left. apply includes_In, in_map_position. exists a. split; [|assumption].
      apply filter_In. split; [assumption | lia].
    + right. now apply includes_In, explicitlyFoldedPositions_In.
Qed.

(** C4: on a postflop street with at least one action, without a raise the
    street is complete exactly when the checks are at least as many as the
    active seats; with a raise, exactly when every active seat other than the
    last raiser has an action after the last raise (or has folded) and the
    last action is not a raise of determinate size. *)
Theorem postflop_street_completion
        (tableSize : Z) (actions : list Action) (s : Street)
        (lastAction : Action) :
  s <> preflop ->
  reduce1 later (currentStreetActions actions s) = Some lastAction ->
  let cur := currentStreetActions actions s in
  let active := availablePositions tableSize actions s in
  ((forall a, In a cur -> type a <> RAISE) ->
   (isStreetComplete tableSize actions s = true <->
    (length active <= length (filter (isType CHECK) cur))%nat))
  /\
  ((exists a, In a cur /\ type a = RAISE) ->
   exists lastRaise,
     In lastRaise cur /\ type lastRaise = RAISE /\
     (forall a, In a cur -> type a = RAISE -> order a <= order lastRaise) /\
     (isStreetComplete tableSize actions s = true <->
      (forall p, In p active -> p <> position lastRaise ->
                 (exists a, In a cur /\ order lastRaise < order a /\ position a = p)
                 \/ (exists a, In a actions /\ type a = FOLD /\ position a = p))
      /\ ~ (type lastAction = RAISE /\ sizeIs lastAction (-1) = false))).
Proof.
  intros Hs Hlast cur active.
  destruct (reduce1_later_spec _ _ Hlast) as [HlastIn _]. fold cur in HlastIn.
  split.
  - intro Hno.
    unfold isStreetComplete. fold cur. fold cur in Hlast. rewrite Hlast.
    rewrite (isPreflop_false s Hs), (no_raise_filter cur Hno).
    assert (Ht : isType RAISE lastAction = false).
    { apply isType_false. now apply Hno. }
    rewrite Ht. simpl. fold active. apply Nat.leb_le.
  - intro Hex.
    destruct (some_raise_later cur Hex) as [r [Hr [Hin [Ht Hmax]]]].
    exists r. split; [assumption|]. split; [assumption|]. split; [assumption|].
    unfold isStreetComplete. fold cur. fold cur in Hlast. rewrite Hlast.
    rewrite (isPreflop_false s Hs), Hr. fold active.
    rewrite <- (allOthersActed_spec active cur actions r).
    destruct (isType RAISE lastAction) eqn:Etl;
      destruct (sizeIs lastAction (-1)) eqn:Esl; simpl.
    + rewrite andb_true_r. split; [|tauto].
      intro H. split; [assumption | intros [_ C]; discriminate C].
    + apply isType_true in Etl.
      split; [discriminate|]. intros [_ C]. exfalso. apply C. now split.
    + apply isType_false in Etl. rewrite andb_true_r. split; [|tauto].
      intro H. split; [assumption | intros [C _]; contradiction].
    + apply isType_false in Etl. rewrite andb_true_r. split; [|tauto].
      intro H. split; [assumption | intros [C _]; contradiction].
Qed.

Lemma postflop_street_completion_witness :
  flop <> preflop /\
  reduce1 later (currentStreetActions hand_flop_checked flop)
  = Some (mkAction "a4" 4 flop BTN CHECK None) /\
  ((forall a, In a (currentStreetActions hand_flop_checked flop) -> type a <> RAISE) ->
   (isStreetComplete 6 hand_flop_checked flop = true <->
    (length (availablePositions 6 hand_flop_checked flop)
     <= length (filter (isType CHECK) (currentStreetActions hand_flop_checked flop)))%nat)).
Proof.
  split; [discriminate|]. split; [reflexivity|].
  apply (postflop_street_completion
           6 hand_flop_checked flop (mkAction "a4" 4 flop BTN CHECK None));
    [discriminate | reflexivity].
Defined.

Lemma nth_error_before_last {A} (before : list A) (x y : A) :
  nth_error (before ++ [x; y]) (length (before ++ [x; y]) - 2) = Some x.
Proof.
  rewrite length_app. simpl.
  replace (length before + 2 - 2)%nat with (length before + 0)%nat by lia.
  rewrite nth_error_app2 by lia.
  replace (length before + 0 - length before)%nat with 0%nat by lia.
  reflexivity.
Qed.

Lemma last_two_split {A} (l : list A) :
  (2 <= length l)%nat -> exists before x y, l = before ++ [x; y].
Proof.
  intro H. destruct (rev l) as [|y [|x rest]] eqn:E.
  - apply (f_equal (@length A)) in E. rewrite length_rev in E. simpl in E. lia.
  - apply (f_equal (@length A)) in E. rewrite length_rev in E. simpl in E. lia.
  - exists (rev rest), x, y.
    rewrite <- (rev_involutive l), E. simpl. rewrite <- app_assoc. reflexivity.
Qed.

Lemma second_last_spec {A} (l : list A) (x : A) :
  (2 <= length l)%nat ->
  nth_error l (length l - 2) = Some x <-> exists before y, l = before ++ [x; y].
Proof.
  intro H. split.
  - intro Hn. destruct (last_two_split l H) as [before [x' [y E]]].
    rewrite E, nth_error_before_last in Hn. injection Hn as <-.
    exists before, y. assumption.
  - intros [before [y ->]]. apply nth_error_before_last.
Qed.

Lemma insertByOrder_length (a : Action) (l : list Action) :
  length (insertByOrder a l) = S (length l).
Proof.
  induction l as [|b l IH]; simpl; [reflexivity|].
  destruct (order a <=? order b); simpl; [reflexivity | now rewrite IH].
Qed.

Lemma sortByOrder_length (l : list Action) : length (sortByOrder l) = length l.
Proof.
  induction l as [|a l IH]; simpl; [reflexivity|].
  now rewrite insertByOrder_length, IH.
Qed.

(** [sortByOrder] is a sort: the same actions, keys in ascending order. *)
Lemma insertByOrder_perm (a : Action) (l : list Action) :
  Permutation (a :: l) (insertByOrder a l).
Proof.
  induction l as [|b l IH]; simpl; [apply Permutation_refl|].
  destruct (order a <=? order b); [apply Permutation_refl|].
  eapply Permutation_trans; [apply perm_swap | apply perm_skip, IH].
Qed.

Lemma sortByOrder_perm (l : list Action) : Permutation l (sortByOrder l).
Proof.
  induction l as [|a l IH]; simpl; [apply perm_nil|].
  eapply Permutation_trans; [apply perm_skip, IH | apply insertByOrder_perm].
Qed.

Lemma insertByOrder_sorted (a : Action) (l : list Action) :
  Sorted (fun x y => order x <= order y) l ->
  Sorted (fun x y => order x <= order y) (insertByOrder a l).
Proof.
  induction l as [|b l IH]; intro H; simpl.
  - repeat constructor.
  - destruct (order a <=? order b) eqn:E.
    + constructor; [assumption | constructor; lia].
    + inversion H as [|x xs Hs Hh]; subst.
      constructor; [now apply IH|].
      destruct l as [|c l]; simpl.
      * constructor. lia.
      * destruct (order a <=? order c); constructor; [lia|].
        inversion Hh; subst. assumption.
Qed.

Lemma sortByOrder_sorted (l : list Action) :
  Sorted (fun x y => order x <= order y) (sortByOrder l).
Proof.
  induction l as [|a l IH]; simpl; [constructor | now apply insertByOrder_sorted].
Qed.

Lemma activePlayers_standing (tableSize : Z) (actions : list Action) :
  filter (fun p =>
            negb (includes p (allFoldedPositions tableSize actions preflop))
            && negb (includes p (map position
                                     (filter (isType FOLD)
                                             (currentStreetActions actions preflop)))))
         (preflopOrder tableSize)
  = standingSeats tableSize actions.
Proof.
  unfold standingSeats. apply filter_ext. intro p.
  destruct (includes p (allFoldedPositions tableSize actions preflop)) eqn:E1;
    [reflexivity|]. simpl.
  destruct (includes p (map position
                            (filter (isType FOLD)
                                    (currentStreetActions actions preflop)))) eqn:E2;
    [|reflexivity].
  apply includes_In, in_map_position in E2 as [a [Ha Hp]].
  apply filter_In in Ha as [Ha Ht]. apply filter_In in Ha as [Ha _].
  assert (In p (allFoldedPositions tableSize actions preflop)).
  { apply allFoldedPositions_In. left. apply explicitlyFoldedPositions_In.
    exists a. apply isType_true in Ht. auto. }
  apply includes_In in H. congruence.
Qed.

(** C3 as stated fails: with BTN and SB folded exactly one seat is left,
    yet the street is not complete, because the last action is a raise of
    determinate size. *)
Lemma one_seat_left_but_incomplete :
  standingSeats 3 hand_folded_to_bb = [BB] /\
  (exists a, In a (currentStreetActions hand_folded_to_bb preflop) /\ type a = RAISE) /\
  isStreetComplete 3 hand_folded_to_bb preflop = false.
Proof.
  split; [reflexivity | split; [|reflexivity]].
  eexists. split; [right; right; left; reflexivity | reflexivity].
Qed.

(** C3, amended: on the preflop street with at least one raise, the street
    is complete exactly when the last action is not a raise of determinate
    size and (a) there is one raise and the last action is a call by BB, or
    (b) there are two or more raises and the last action is a call by the
    seat of the second-to-last raise, or (c) exactly one seat has not folded;
    a single raise followed by a BB call is complete, followed by a BB 3bet
    it is not. *)
Theorem preflop_street_completion
        (tableSize : Z) (actions : list Action) (lastAction : Action) :
  let cur := currentStreetActions actions preflop in
  let raises := filter (isType RAISE) cur in
  reduce1 later cur = Some lastAction ->
  (exists a, In a cur /\ type a = RAISE) ->
  (isStreetComplete tableSize actions preflop = true <->
   ~ (type lastAction = RAISE /\ sizeIs lastAction (-1) = false) /\
   ((length raises = 1%nat /\ type lastAction = CALL /\ position lastAction = BB)
    \/ ((2 <= length raises)%nat /\ type lastAction = CALL /\
        exists before r2 r1,
          sortByOrder raises = before ++ [r2; r1] /\
          position lastAction = position r2)
    \/ length (standingSeats tableSize actions) = 1%nat))
  /\ isStreetComplete 6 hand_bb_calls preflop = true
  /\ isStreetComplete 6 hand_bb_3bets preflop = false.
Proof.
  intros cur raises Hlast [a0 [Ha0 Ht0]].
  split; [|split; reflexivity].
  assert (Hlen : (1 <= length raises)%nat).
  { assert (In a0 raises).
    { apply filter_In. split; [assumption | now apply isType_true]. }
    destruct raises; [destruct H | simpl; lia]. }
  unfold isStreetComplete. fold cur. fold cur in Hlast. rewrite Hlast.
  change (isPreflop preflop) with true. cbv iota. fold raises.
  rewrite activePlayers_standing.
  assert (H0 : (0 <? length raises)%nat = true) by (apply Nat.ltb_lt; lia).
  rewrite H0.
  destruct (isType RAISE lastAction && negb (sizeIs lastAction (-1))) eqn:G.
  { split; [discriminate|]. intros [C _]. exfalso. apply C.
    apply andb_true_iff in G as [G1 G2]. apply negb_true_iff in G2.
    split; [now apply isType_true | assumption]. }
  assert (NG : ~ (type lastAction = RAISE /\ sizeIs lastAction (-1) = false)).
  { intros [C1 C2]. apply isType_true in C1. rewrite C1, C2 in G. discriminate G. }
  destruct (isType CALL lastAction) eqn:Ec.
  - apply isType_true in Ec.
    destruct (length raises =? 1)%nat eqn:E1.
    + apply Nat.eqb_eq in E1.
      destruct (Position_eqb (position lastAction) BB) eqn:Ep; simpl.
      * apply Position_eqb_eq in Ep. split; [|reflexivity].
        intros _. split; [assumption|]. left. auto.
      * apply Position_eqb_neq in Ep. rewrite Nat.eqb_eq. split.
        -- intro H. split; [assumption|]. right; right; assumption.
        -- intros [_ [[_ [_ C]] | [[C _] | H]]];
             [contradiction | lia | assumption].
    + apply Nat.eqb_neq in E1.
      assert (H2 : (2 <= length (sortByOrder raises))%nat).
      { rewrite sortByOrder_length. lia. }
      destruct (nth_error (sortByOrder raises) (length (sortByOrder raises) - 2))
        as [r2|] eqn:En.
      * destruct (Position_eqb (position lastAction) (position r2)) eqn:Ep; simpl.
        -- apply Position_eqb_eq in Ep. split; [|reflexivity].
           intros _. split; [assumption|]. right; left.
           split; [lia|]. split; [assumption|].
           apply (second_last_spec _ _ H2) in En as [before [r1 E]].
           exists before, r2, r1. auto.
        -- apply Position_eqb_neq in Ep. rewrite Nat.eqb_eq. split.
           ++ intro H. split; [assumption|]. right; right; assumption.
           ++ intros [_ [[C _] | [[_ [_ [before [r2' [r1 [E C]]]]]] | H]]];
                [lia | | assumption].
              rewrite E, nth_error_before_last in En. injection En as ->.
              contradiction.
      * exfalso. destruct (last_two_split _ H2) as [before [x [y E]]].
        rewrite E, nth_error_before_last in En. discriminate En.
  - apply isType_false in Ec. simpl. rewrite Nat.eqb_eq. split.
    + intro H. split; [assumption|]. right; right; assumption.
    + intros [_ [[_ [C _]] | [[_ [C _]] | H]]];
        [contradiction | contradiction | assumption].
Qed.

Lemma preflop_street_completion_witness :
  reduce1 later (currentStreetActions hand_bb_calls preflop)
  = Some (mkAction "a1" 1 preflop BB CALL None) /\
  (exists a, In a (currentStreetActions hand_bb_calls preflop) /\ type a = RAISE) /\
  isStreetComplete 6 hand_bb_calls preflop = true.
Proof.
  split; [reflexivity|].
  assert (H : exists a, In a (currentStreetActions hand_bb_calls preflop)
                        /\ type a = RAISE).
  { eexists. split; [left; reflexivity | reflexivity]. }
  split; [exact H|].
  exact (proj1 (proj2 (preflop_street_completion
                         6 hand_bb_calls (mkAction "a1" 1 preflop BB CALL None)
                         eq_refl H))).
Defined.

(** ** Order keys and labels *)

(** Every handler stamps the action it creates with [actions.length]. *)
Lemma handlers_stamp_length
      (tableSize : Z) (blind : BlindLevel) (actions : list Action) (s : Street)
      (stackBb : Position -> option Q) (selection : Selection)
      (newId : string) (a : Action) :
  (forall ty, snd (handleTypeSelect tableSize blind actions s stackBb selection
                                    newId ty) = Some a ->
              order a = Z.of_nat (length actions)) /\
  (forall size, snd (handleSizeSelect actions s selection newId size) = Some a ->
                order a = Z.of_nat (length actions)) /\
  (forall ratio, snd (handlePotRatioSelect tableSize blind actions s selection
                                           newId ratio) = Some a ->
                 order a = Z.of_nat (length actions)).
Proof.
  split; [|split].
  - intros ty H. unfold handleTypeSelect in H.
    destruct (selectedPosition selection); [|discriminate H].
    destruct ty; simpl in H; try (injection H as <-; reflexivity);
      match type of H with
      | snd (if ?c then _ else _) = _ => destruct c; discriminate H
      end.
  - intros size H. unfold handleSizeSelect in H.
    destruct (selectedPosition selection), (selectedType selection);
      try discriminate H.
    injection H as <-. reflexivity.
  - intros ratio H. unfold handlePotRatioSelect in H.
    destruct (selectedPosition selection), (selectedType selection);
      try discriminate H.
    injection H as <-. reflexivity.
Qed.

(** C8, the code after a deletion: the action appended last gets order 2,
    the order the CO raise already has, so the new key is not greater than
    every key present and the keys are no longer unique; after two deletions
    the new key, 1, is below the key 2 of the action already present. *)
Theorem order_key_reused_after_removal :
  session4 = [ mkAction "a0" 0 preflop UTG RAISE (Some 2.5%Q); co_3bet ] /\
  session5 = session4 ++ [btn_raise] /\
  order btn_raise = order co_3bet /\
  ~ (forall a, In a session4 -> order a < order btn_raise) /\
  ~ NoDup (map order session5) /\
  session5' = [co_3bet; btn_call] /\
  order btn_call < order co_3bet /\
  reduce1 later session5' = Some co_3bet.
Proof.
  split; [reflexivity|]. split; [reflexivity|]. split; [reflexivity|].
  split; [|split; [|repeat split]].
  - intro H. specialize (H co_3bet (or_intror (or_introl eq_refl))).
    simpl in H. lia.
  - intro H. inversion H as [|x l Hx Hl]; subst.
    inversion Hl as [|y l' Hy Hl']; subst.
    apply Hy. left. reflexivity.
Qed.

(** C6, the code on that hand: the editor labels the BTN raise and the CO
    raise "3bet" while the export labels both "4bet", the label of the count
    3 of preflop raises with an order not above theirs. *)
Theorem labelers_disagree_on_reused_order :
  getActionDisplayLabel session5 btn_raise = "3bet" /\
  Clipboard.getRaiseLabel btn_raise session5 = "4bet" /\
  getActionDisplayLabel session5 co_3bet = "3bet" /\
  Clipboard.getRaiseLabel co_3bet session5 = "4bet" /\
  length (filter (fun a => Street_eqb (street a) preflop && isType RAISE a
                           && (order a <=? order btn_raise)) session5) = 3%nat.
Proof. repeat split. Qed.

(** The two labelers on hands whose order keys are pairwise distinct. *)

Lemma filter_filter {A} (f g : A -> bool) (l : list A) :
  filter f (filter g l) = filter (fun x => g x && f x) l.
Proof.
  induction l as [|x l IH]; simpl; [reflexivity|].
  destruct (g x); simpl; [destruct (f x)|]; rewrite IH; reflexivity.
Qed.

Lemma count_upto_fresh (P : Action -> bool) (l : list Action) (k : Z) :
  ~ In k (map order l) ->
  filter (fun b => P b && (order b <=? k)) l
  = filter (fun b => P b && (order b <? k)) l.
Proof.
  intro Hk. apply filter_ext_in. intros b Hb.
  assert (order b <> k).
  { intro E. apply Hk. rewrite <- E. now apply in_map. }
  destruct (P b); simpl; [|reflexivity].
  destruct (order b <=? k) eqn:E1, (order b <? k) eqn:E2; try reflexivity; lia.
Qed.

Lemma count_upto_self (P : Action -> bool) (l : list Action) (a : Action) :
  NoDup (map order l) -> In a l -> P a = true ->
  length (filter (fun b => P b && (order b <=? order a)) l)
  = S (length (filter (fun b => P b && (order b <? order a)) l)).
Proof.
  induction l as [|x l IH]; intros Hnd Ha HP; [destruct Ha|].
  simpl in Hnd. inversion Hnd as [|k ks Hx Hl]; subst.
  destruct Ha as [-> | Ha].
  - simpl. rewrite HP, Z.leb_refl, Z.ltb_irrefl. simpl.
    now rewrite (count_upto_fresh P l (order a) Hx).
  - assert (Hne : order x <> order a).
    { intro E. apply Hx. rewrite E. now apply in_map. }
    simpl. specialize (IH Hl Ha HP).
    destruct (P x); simpl; [|assumption].
    destruct (order x <=? order a) eqn:E1, (order x <? order a) eqn:E2;
      simpl; try lia.
Qed.

(** The export labeler maps the count of same-street raises with an order
    not above the action's own as the table of labels says, on every list. *)
Lemma export_label_mapping (action : Action) (allActions : list Action) :
  let n := length (filter (fun a => Street_eqb (street a) (street action)
                                    && isType RAISE a
                                    && (order a <=? order action)) allActions) in
  (type action <> RAISE ->
   Clipboard.getRaiseLabel action allActions = toLowerCase (type action)) /\
  (type action = RAISE ->
   Clipboard.getRaiseLabel action allActions =
   if Street_eqb (street action) preflop then
     match n with
     | 1%nat => "open"
     | 2%nat => "3bet"
     | 3%nat => "4bet"
     | 4%nat => "5bet"
     | _ => String.append (showNat (n + 1)) "bet"
     end
   else if (n =? 1)%nat then "bet" else "raise").
Proof.
  intro n. unfold Clipboard.getRaiseLabel. split.
  - intro H. apply isType_false in H. rewrite H. reflexivity.
  - intro H. apply isType_true in H. rewrite H. simpl.
    rewrite filter_filter.
    assert (E : filter (fun x => Street_eqb (street x) (street action)
                                 && (order x <=? order action) && isType RAISE x)
                       allActions
                = filter (fun a => Street_eqb (street a) (street action)
                                   && isType RAISE a
                                   && (order a <=? order action)) allActions).
    { apply filter_ext. intro x.
      destruct (Street_eqb (street x) (street action)), (isType RAISE x),
        (order x <=? order action); reflexivity. }
    rewrite E. reflexivity.
Qed.

(** On a hand whose order keys are pairwise distinct, the editor and the
    export give every action of the hand the same label. *)
Lemma labelers_agree_on_distinct_orders (actions : list Action) (action : Action) :
  NoDup (map order actions) -> In action actions ->
  getActionDisplayLabel actions action = Clipboard.getRaiseLabel action actions.
Proof.
  intros Hnd Hin.
  destruct (isType RAISE action) eqn:Ht.
  - apply isType_true in Ht.
    rewrite (proj2 (export_label_mapping action actions) Ht).
    unfold getActionDisplayLabel.
    apply isType_true in Ht. rewrite Ht.
    rewrite (count_upto_self
               (fun a => Street_eqb (street a) (street action) && isType RAISE a)
               actions action Hnd Hin).
    2:{ rewrite Ht. destruct (street action); reflexivity. }
    set (k := length (filter _ actions)).
    destruct (Street_eqb (street action) preflop).
    + destruct k as [|[|[|[|k]]]]; try reflexivity.
      simpl. do 2 f_equal. f_equal. f_equal. f_equal. f_equal. lia.
    + destruct k; reflexivity.
  - unfold getActionDisplayLabel, Clipboard.getRaiseLabel. rewrite Ht. reflexivity.
Qed.

(** ** Undo and redo *)

Section UndoRedoFacts.

Import UseUndoRedo.

Context {T : Type} (undefined : T) (maxHistory : Z).

(** Comparisons of [Z] in boolean form. *)
Ltac zcmp :=
  rewrite ?Z.gtb_ltb, ?Z.geb_leb;
  first [apply Z.ltb_lt | apply Z.ltb_ge | apply Z.leb_le | apply Z.leb_gt];
  lia.

Lemma slice0_inside (l : list T) (i : Z) :
  0 <= i < Z.of_nat (length l) ->
  slice0 (i + 1) l = firstn (S (Z.to_nat i)) l
  /\ length (firstn (S (Z.to_nat i)) l) = S (Z.to_nat i).
Proof.
  intro H. unfold slice0.
  assert (E : (i + 1 <? 0) = false) by lia. rewrite E.
  replace (Z.to_nat (i + 1)) with (S (Z.to_nat i)) by lia.
  split; [reflexivity|]. rewrite length_firstn. lia.
Qed.

Lemma setState_shape (h : Hook T) (x : T + (T -> T)) :
  historyOk maxHistory h ->
  let v := match x with inl v => v | inr f => f (state undefined h) end in
  let kept := firstn (S (Z.to_nat (currentIndex h))) (history h) in
  (currentIndex h + 2 <= maxHistory ->
   setState undefined maxHistory h x = mkHook (kept ++ [v]) (currentIndex h + 1))
  /\
  (maxHistory < currentIndex h + 2 ->
   setState undefined maxHistory h x = mkHook (tl (kept ++ [v])) (currentIndex h)
   /\ currentIndex h = maxHistory - 1).
Proof.
  intros [Hi Hm] v kept.
  destruct (slice0_inside (history h) (currentIndex h) Hi) as [Es El].
  fold kept in Es, El.
  assert (Elen : Z.of_nat (length (kept ++ [v])) = currentIndex h + 2).
  { rewrite length_app, El. simpl. lia. }
  unfold setState. fold v. rewrite Es. fold kept. rewrite Elen. split; intro H.
  - assert (E1 : (currentIndex h + 2 >? maxHistory) = false) by lia.
    assert (E2 : (currentIndex h + 1 >=? maxHistory) = false) by lia.
    rewrite E1, E2. reflexivity.
  - assert (E1 : (currentIndex h + 2 >? maxHistory) = true) by lia.
    assert (E2 : (currentIndex h + 1 >=? maxHistory) = true) by lia.
    rewrite E1, E2. split; [f_equal|]; lia.
Qed.

(** X1: every operation of the hook keeps the cursor on a snapshot and the
    history within [maxHistory] entries. *)
Theorem undo_history_stays_valid (h : Hook T) (x : T + (T -> T)) :
  historyOk maxHistory h ->
  historyOk maxHistory (setState undefined maxHistory h x)
  /\ historyOk maxHistory (undo h)
  /\ historyOk maxHistory (redo h)
  /\ historyOk maxHistory (clearHistory undefined h).
Proof.
  intro Hok. pose proof Hok as [Hi Hm].
  destruct (slice0_inside (history h) (currentIndex h) Hi) as [_ El].
  split; [|split; [|split]].
  - destruct (setState_shape h x Hok) as [A B].
    destruct (Z_le_gt_dec (currentIndex h + 2) maxHistory) as [C | C].
    + rewrite (A C). unfold historyOk. cbn [history currentIndex].
      rewrite length_app, El. simpl. lia.
    + destruct (B ltac:(lia)) as [E Ei]. rewrite E. unfold historyOk.
      cbn [history currentIndex].
      assert (L : length (tl (firstn (S (Z.to_nat (currentIndex h))) (history h)
                              ++ [match x with
                                  | inl v => v
                                  | inr f => f (state undefined h)
                                  end]))
                  = S (Z.to_nat (currentIndex h))).
      { destruct (firstn (S (Z.to_nat (currentIndex h))) (history h)) eqn:Ef;
          simpl in El; [discriminate El|].
        simpl. rewrite length_app. simpl. lia. }
      rewrite L. lia.
  - unfold historyOk, undo. simpl. lia.
  - unfold historyOk, redo. simpl. lia.
  - unfold historyOk, clearHistory. simpl. lia.
Qed.

Lemma nth_kept (l : list T) (i j : nat) :
  (i <= j)%nat -> nth i (firstn (S j) l) undefined = nth i l undefined.
Proof.
  revert i j. induction l as [|x l IH]; intros i j H.
  - simpl. destruct i; reflexivity.
  - destruct i as [|i]; [reflexivity|].
    destruct j as [|j]; [lia|].
    change (firstn (S (S j)) (x :: l)) with (x :: firstn (S j) l).
    simpl. apply IH. lia.
Qed.

Lemma state_setState (h : Hook T) (x : T + (T -> T)) :
  historyOk maxHistory h ->
  state undefined (setState undefined maxHistory h x)
  = match x with inl v => v | inr f => f (state undefined h) end.
Proof.
  intro Hok. pose proof Hok as [Hi Hm].
  destruct (slice0_inside (history h) (currentIndex h) Hi) as [_ El].
  destruct (setState_shape h x Hok) as [A B].
  set (v := match x with inl v => v | inr f => f (state undefined h) end) in *.
  set (kept := firstn (S (Z.to_nat (currentIndex h))) (history h)) in *.
  destruct (Z_le_gt_dec (currentIndex h + 2) maxHistory) as [C | C].
  - rewrite (A C). unfold state. cbn [history currentIndex].
    assert (E : (currentIndex h + 1 <? 0) = false) by lia. rewrite E.
    replace (Z.to_nat (currentIndex h + 1)) with (length kept) by lia.
    apply nth_middle.
  - destruct (B ltac:(lia)) as [E Ei]. rewrite E. unfold state.
    cbn [history currentIndex].
    assert (E0 : (currentIndex h <? 0) = false) by lia. rewrite E0.
    destruct kept as [|k0 krest] eqn:Ek; simpl in El; [discriminate El|].
    simpl. replace (Z.to_nat (currentIndex h)) with (length krest) by lia.
    apply nth_middle.
Qed.

(** X2: after [setState] the current snapshot is the new one (the value, or
    the function applied to the previous snapshot) and nothing is left to
    redo. *)
Theorem setState_makes_current (h : Hook T) (x : T + (T -> T)) :
  historyOk maxHistory h ->
  state undefined (setState undefined maxHistory h x)
  = match x with inl v => v | inr f => f (state undefined h) end
  /\ canRedo (setState undefined maxHistory h x) = false.
Proof.
  intro Hok. split; [now apply state_setState|].
  pose proof Hok as [Hi Hm].
  destruct (slice0_inside (history h) (currentIndex h) Hi) as [_ El].
  destruct (setState_shape h x Hok) as [A B].
  destruct (Z_le_gt_dec (currentIndex h + 2) maxHistory) as [C | C].
  - rewrite (A C). unfold canRedo. cbn [history currentIndex].
    rewrite length_app, El. cbn [length]. zcmp.
  - destruct (B ltac:(lia)) as [E Ei]. rewrite E. unfold canRedo.
    cbn [history currentIndex].
    destruct (firstn (S (Z.to_nat (currentIndex h))) (history h)) eqn:Ef;
      simpl in El; [discriminate El|].
    cbn [tl app length] in *. rewrite length_app. cbn [length]. zcmp.
Qed.

(** X3: with room for at least two snapshots, [undo] right after [setState]
    shows the snapshot that was current before, also when the oldest entry
    was dropped to make room. *)
Theorem undo_after_setState (h : Hook T) (x : T + (T -> T)) :
  historyOk maxHistory h -> 2 <= maxHistory ->
  state undefined (undo (setState undefined maxHistory h x)) = state undefined h
  /\ canUndo (setState undefined maxHistory h x) = true.
Proof.
  intros Hok H2. pose proof Hok as [Hi Hm].
  destruct (slice0_inside (history h) (currentIndex h) Hi) as [_ El].
  destruct (setState_shape h x Hok) as [A B].
  set (v := match x with inl v => v | inr f => f (state undefined h) end) in *.
  set (kept := firstn (S (Z.to_nat (currentIndex h))) (history h)) in *.
  assert (E0 : (currentIndex h <? 0) = false) by lia.
  destruct (Z_le_gt_dec (currentIndex h + 2) maxHistory) as [C | C].
  - rewrite (A C). unfold undo, state, canUndo. cbn [history currentIndex].
    replace (Z.max 0 (currentIndex h + 1 - 1)) with (currentIndex h) by lia.
    rewrite E0. split; [|zcmp].
    rewrite app_nth1 by lia. apply nth_kept. lia.
  - destruct (B ltac:(lia)) as [E Ei]. rewrite E.
    unfold undo, state, canUndo. cbn [history currentIndex].
    assert (E1 : (Z.max 0 (currentIndex h - 1) <? 0) = false) by lia.
    rewrite E0, E1. split; [|zcmp].
    replace (Z.max 0 (currentIndex h - 1)) with (currentIndex h - 1) by lia.
    pose proof (nth_kept (history h) (Z.to_nat (currentIndex h))
                         (Z.to_nat (currentIndex h)) (Nat.le_refl _)) as Hk.
    fold kept in Hk. rewrite <- Hk.
    destruct kept as [|k0 krest] eqn:Ek; simpl in El; [discriminate El|].
    simpl. rewrite app_nth1 by lia.
    replace (Z.to_nat (currentIndex h)) with (S (Z.to_nat (currentIndex h - 1)))
      by lia.
    reflexivity.
Qed.

(** X4: [undo] and [redo] are inverse to each other wherever they can
    move, and each leaves the hook as it is at its end of the history. *)
Theorem undo_redo_inverse (h : Hook T) :
  historyOk maxHistory h ->
  (canUndo h = true -> redo (undo h) = h)
  /\ (canRedo h = true -> undo (redo h) = h)
  /\ (canUndo h = false -> undo h = h)
  /\ (canRedo h = false -> redo h = h).
Proof.
  intros [Hi Hm]. destruct h as [hist i]. unfold canUndo, canRedo, undo, redo.
  cbn [history currentIndex] in *.
  repeat split; intro H; f_equal; lia.
Qed.

Lemma skipn_S_tl {A} (k : nat) (l : list A) : skipn (S k) l = tl (skipn k l).
Proof.
  revert l. induction k as [|k IH]; intro l.
  - destruct l; reflexivity.
  - destruct l as [|x l]; [reflexivity|].
    change (skipn (S (S k)) (x :: l)) with (skipn (S k) l).
    change (skipn (S k) (x :: l)) with (skipn k l). apply IH.
Qed.

Lemma lastN_length {A} (m : nat) (l : list A) :
  length (lastN m l) = Nat.min m (length l).
Proof. unfold lastN. rewrite length_skipn. lia. Qed.

Lemma lastN_snoc {A} (m : nat) (l : list A) (v : A) :
  (1 <= m)%nat ->
  lastN m (l ++ [v])
  = if (length (lastN m l) + 1 <=? m)%nat then lastN m l ++ [v]
    else tl (lastN m l ++ [v]).
Proof.
  intro Hm. rewrite lastN_length. unfold lastN. rewrite length_app. simpl.
  destruct (Nat.min m (length l) + 1 <=? m)%nat eqn:E.
  - apply Nat.leb_le in E.
    replace (length l + 1 - m)%nat with 0%nat by lia.
    replace (length l - m)%nat with 0%nat by lia. reflexivity.
  - apply Nat.leb_gt in E.
    replace (length l + 1 - m)%nat with (S (length l - m)) by lia.
    rewrite skipn_S_tl, skipn_app.
    replace (length l - m - length l)%nat with 0%nat by lia. simpl.
    reflexivity.
Qed.

Lemma edits_shape (s0 : T) (vs : list T) :
  1 <= maxHistory ->
  edits undefined maxHistory (init s0) vs
  = mkHook (lastN (Z.to_nat maxHistory) (s0 :: vs))
           (Z.of_nat (length (lastN (Z.to_nat maxHistory) (s0 :: vs))) - 1).
Proof.
  intro Hm. induction vs as [|v vs IH] using rev_ind.
  - unfold edits, init, lastN. cbn [fold_left length].
    replace (1 - Z.to_nat maxHistory)%nat with 0%nat by lia. reflexivity.
  - unfold edits in *. rewrite fold_left_app. simpl. rewrite IH.
    set (H := lastN (Z.to_nat maxHistory) (s0 :: vs)).
    assert (HL : length H = Nat.min (Z.to_nat maxHistory) (S (length vs))).
    { unfold H. rewrite lastN_length. reflexivity. }
    assert (Hok : historyOk maxHistory (mkHook H (Z.of_nat (length H) - 1))).
    { unfold historyOk. cbn [history currentIndex]. lia. }
    destruct (setState_shape _ (inl v) Hok) as [A B].
    cbn [history currentIndex] in A, B.
    replace (S (Z.to_nat (Z.of_nat (length H) - 1))) with (length H) in A, B by lia.
    rewrite firstn_all in A, B.
    change (s0 :: vs ++ [v]) with ((s0 :: vs) ++ [v]).
    rewrite (lastN_snoc (Z.to_nat maxHistory) (s0 :: vs) v) by lia. fold H.
    destruct (length H + 1 <=? Z.to_nat maxHistory)%nat eqn:E.
    + apply Nat.leb_le in E. rewrite A by lia. f_equal.
      rewrite length_app. cbn [length]. lia.
    + apply Nat.leb_gt in E. destruct B as [B _]; [lia|]. rewrite B. f_equal.
      destruct H as [|h0 hr]; [cbn [length] in HL; lia|].
      cbn [tl app length]. rewrite length_app. cbn [length]. lia.
Qed.

Lemma run_of_single_calls (h : Hook T) (batches : list (list T)) :
  Forall (fun vs => (length vs <= 1)%nat) batches ->
  run undefined maxHistory h batches
  = edits undefined maxHistory h (concat batches).
Proof.
  intro H. revert h. induction H as [|vs batches Hvs _ IH]; intro h.
  - reflexivity.
  - unfold run in *. cbn [fold_left concat]. rewrite IH.
    unfold edits. rewrite fold_left_app. f_equal.
    destruct vs as [|v [|w vs]];
      [reflexivity | reflexivity | cbn [length] in Hvs; lia].
Qed.

Lemma two_calls_in_one_handler (s0 v1 v2 : T) :
  3 <= maxHistory ->
  run undefined maxHistory (init s0) [[v1; v2]] = mkHook [s0; v2] 2.
Proof.
  intro H.
  assert (E1 : (2 >? maxHistory) = false) by zcmp.
  assert (E2 : (1 >=? maxHistory) = false) by zcmp.
  assert (E3 : (2 >=? maxHistory) = false) by zcmp.
  unfold run, batch, setStateOf, init, slice0.
  cbn [fold_left history currentIndex Z.add Z.ltb Z.compare Z.to_nat].
  change (Pos.to_nat 1) with 1%nat. cbn [firstn app].
  change (Z.of_nat (length [s0; v1])) with 2. rewrite E1, E2.
  cbn [firstn app]. change (Z.of_nat (length [s0; v2])) with 2.
  rewrite E1. change (1 + 1) with 2. rewrite E3. reflexivity.
Qed.

(** X5: when every event handler calls [setState] at most once, after any
    run of calls from the initial state the history holds exactly the last
    [maxHistory] snapshots, oldest first, and the cursor is on the newest.
    Two calls in one handler break this: with room for three snapshots the
    first value is overwritten, the cursor moves twice, and the current state
    is read outside the history. *)
Theorem history_keeps_last_snapshots (s0 : T) (batches : list (list T)) :
  1 <= maxHistory ->
  (Forall (fun vs => (length vs <= 1)%nat) batches ->
   run undefined maxHistory (init s0) batches
   = mkHook (lastN (Z.to_nat maxHistory) (s0 :: concat batches))
            (Z.of_nat (length (lastN (Z.to_nat maxHistory) (s0 :: concat batches)))
             - 1))
  /\ (3 <= maxHistory ->
      forall v1 v2 : T,
        run undefined maxHistory (init s0) [[v1; v2]] = mkHook [s0; v2] 2
        /\ state undefined (run undefined maxHistory (init s0) [[v1; v2]])
           = undefined).
Proof.
  intro Hm. split.
  - intro H. rewrite (run_of_single_calls _ _ H). now apply edits_shape.
  - intros H3 v1 v2. rewrite (two_calls_in_one_handler s0 v1 v2 H3).
    split; reflexivity.
Qed.

Lemma iter_undo (k : nat) (h : Hook T) :
  0 <= currentIndex h ->
  Nat.iter k undo h
  = mkHook (history h) (Z.max 0 (currentIndex h - Z.of_nat k)).
Proof.
  intro H. induction k as [|k IH].
  - simpl. destruct h as [hist i]. cbn [history currentIndex] in *. f_equal. lia.
  - simpl. rewrite IH. unfold undo. cbn [history currentIndex]. f_equal. lia.
Qed.

Lemma edits_undone (s0 : T) (vs : list T) (k : nat) :
  Z.of_nat (S (length vs)) <= maxHistory ->
  state undefined (Nat.iter k undo (edits undefined maxHistory (init s0) vs))
  = nth (length vs - k) (s0 :: vs) undefined.
Proof.
  intro Hm. rewrite edits_shape by lia.
  assert (E : lastN (Z.to_nat maxHistory) (s0 :: vs) = s0 :: vs).
  { unfold lastN. replace (length (s0 :: vs) - Z.to_nat maxHistory)%nat with 0%nat
      by (cbn [length]; lia). reflexivity. }
  rewrite E. rewrite iter_undo by (cbn [currentIndex length]; lia).
  unfold state. cbn [history currentIndex].
  assert (E0 : (Z.max 0 (Z.of_nat (length (s0 :: vs)) - 1 - Z.of_nat k) <? 0)
               = false) by lia.
  rewrite E0. f_equal. simpl length. lia.
Qed.

(** X6: when every event handler calls [setState] at most once and the
    history is not full, [k] undos after a run of edits show the snapshot [k]
    steps back, and never go past the initial state. *)
Theorem undos_walk_back (s0 : T) (batches : list (list T)) (k : nat) :
  Forall (fun vs => (length vs <= 1)%nat) batches ->
  Z.of_nat (S (length (concat batches))) <= maxHistory ->
  state undefined
        (Nat.iter k undo (run undefined maxHistory (init s0) batches))
  = nth (length (concat batches) - k) (s0 :: concat batches) undefined.
Proof.
  intros H Hm. rewrite (run_of_single_calls _ _ H). now apply edits_undone.
Qed.

End UndoRedoFacts.

Ltac distinct :=
  cbn; repeat (constructor; [cbn; intuition congruence|]); constructor.

Lemma sampleHistory_ok : historyOk 3 sampleHistory.
Proof. unfold historyOk, sampleHistory; cbn; lia. Qed.

Lemma undo_history_stays_valid_witness :
  historyOk 3 sampleHistory
  /\ historyOk 3 (UseUndoRedo.setState 0%nat 3 sampleHistory (inl 7%nat)).
Proof.
  split; [exact sampleHistory_ok|].
  exact (proj1 (undo_history_stays_valid 0%nat 3 sampleHistory (inl 7%nat)
                                         sampleHistory_ok)).
Defined.

Lemma setState_makes_current_witness :
  historyOk 3 sampleHistory
  /\ UseUndoRedo.state 0%nat (UseUndoRedo.setState 0%nat 3 sampleHistory (inl 7%nat))
     = 7%nat.
Proof.
  split; [exact sampleHistory_ok|].
  exact (proj1 (setState_makes_current 0%nat 3 sampleHistory (inl 7%nat)
                                       sampleHistory_ok)).
Defined.

Lemma undo_after_setState_witness :
  historyOk 3 sampleHistory /\ 2 <= 3
  /\ UseUndoRedo.state
       0%nat (UseUndoRedo.undo
                (UseUndoRedo.setState 0%nat 3 sampleHistory (inl 7%nat)))
     = 2%nat.
Proof.
  split; [exact sampleHistory_ok|]. split; [lia|].
  apply (undo_after_setState 0%nat 3 sampleHistory (inl 7%nat));
    [exact sampleHistory_ok | lia].
Defined.

Lemma undo_redo_inverse_witness :
  historyOk 3 sampleHistory
  /\ UseUndoRedo.redo (UseUndoRedo.undo sampleHistory) = sampleHistory.
Proof.
  split; [exact sampleHistory_ok|].
  apply (undo_redo_inverse 3 sampleHistory sampleHistory_ok). reflexivity.
Defined.

Lemma singleCalls_single : Forall (fun vs => (length vs <= 1)%nat) singleCalls.
Proof. repeat constructor. Qed.

Lemma history_keeps_last_snapshots_witness :
  1 <= 3
  /\ Forall (fun vs => (length vs <= 1)%nat) singleCalls
  /\ run 0%nat 3 (UseUndoRedo.init 1%nat) singleCalls
     = UseUndoRedo.mkHook [3; 4; 5]%nat 2.
Proof.
  assert (H : 1 <= 3) by lia.
  split; [exact H|]. split; [exact singleCalls_single|].
  exact (proj1 (history_keeps_last_snapshots 0%nat 3 1%nat singleCalls H)
               singleCalls_single).
Defined.

Lemma undos_walk_back_witness :
  Forall (fun vs => (length vs <= 1)%nat) singleCalls
  /\ Z.of_nat (S (length (concat singleCalls))) <= 5
  /\ UseUndoRedo.state
       0%nat (Nat.iter 1 UseUndoRedo.undo
                       (run 0%nat 5 (UseUndoRedo.init 1%nat) singleCalls))
     = 4%nat.
Proof.
  assert (H : Z.of_nat (S (length (concat singleCalls))) <= 5) by (cbn; lia).
  split; [exact singleCalls_single|]. split; [exact H|].
  exact (undos_walk_back 0%nat 5 1%nat singleCalls 1 singleCalls_single H).
Defined.

(** ** Stored players and hands *)

Section UpsertFacts.

Context {A : Type} (key : A -> string).

Lemma find_upsert_same (x : A) (l : list A) :
  find (fun y => String.eqb (key y) (key x)) (upsert key x l) = Some x.
Proof.
  unfold upsert. induction l as [|y l IH]; simpl.
  - now rewrite String.eqb_refl.
  - destruct (String.eqb (key y) (key x)) eqn:E; simpl.
    + now rewrite String.eqb_refl.
    + destruct (findIndex (fun y0 => String.eqb (key y0) (key x)) l); simpl;
        rewrite E; exact IH.
Qed.

Lemma find_upsert_other (x : A) (k : string) (l : list A) :
  k <> key x ->
  find (fun y => String.eqb (key y) k) (upsert key x l)
  = find (fun y => String.eqb (key y) k) l.
Proof.
  intro Hk.
  assert (Ex : String.eqb (key x) k = false).
  { apply String.eqb_neq. congruence. }
  unfold upsert. induction l as [|y l IH]; simpl.
  - now rewrite Ex.
  - destruct (String.eqb (key y) (key x)) eqn:E; simpl.
    + rewrite Ex. apply String.eqb_eq in E. rewrite E, Ex. reflexivity.
    + destruct (findIndex (fun y0 => String.eqb (key y0) (key x)) l); simpl;
        destruct (String.eqb (key y) k); try reflexivity; exact IH.
Qed.

Lemma findIndex_None (p : A -> bool) (l : list A) :
  findIndex p l = None <-> forall y, In y l -> p y = false.
Proof.
  induction l as [|y l IH]; simpl.
  - split; [intros _ z [] | reflexivity].
  - destruct (p y) eqn:E.
    + split; [discriminate|]. intro H. specialize (H y (or_introl eq_refl)).
      congruence.
    + destruct (findIndex p l).
      * split; [discriminate|]. intro H.
        assert (C : @Some nat n = None); [|discriminate C].
        apply IH. intros z Hz. apply H. now right.
      * split; [|reflexivity]. intros _ z [<- | Hz]; [assumption|].
        now apply (proj1 IH).
Qed.

Lemma map_key_upsert (x : A) (l : list A) :
  (exists y, In y l /\ key y = key x) ->
  map key (upsert key x l) = map key l.
Proof.
  unfold upsert. induction l as [|y l IH]; intros [z [Hz Ez]]; [destruct Hz|].
  simpl. destruct (String.eqb (key y) (key x)) eqn:E; simpl.
  - apply String.eqb_eq in E. now rewrite E.
  - destruct Hz as [-> | Hz].
    + apply String.eqb_neq in E. contradiction.
    + specialize (IH (ex_intro _ z (conj Hz Ez))).
      destruct (findIndex (fun y0 => String.eqb (key y0) (key x)) l) eqn:Ef.
      * simpl. f_equal. exact IH.
      * exfalso. pose proof (proj1 (findIndex_None _ _) Ef z Hz) as C.
        simpl in C. rewrite Ez, String.eqb_refl in C. discriminate C.
Qed.

Lemma upsert_absent (x : A) (l : list A) :
  (forall y, In y l -> key y <> key x) -> upsert key x l = l ++ [x].
Proof.
  intro H. unfold upsert.
  assert (E : findIndex (fun y => String.eqb (key y) (key x)) l = None).
  { apply findIndex_None. intros y Hy. apply String.eqb_neq. now apply H. }
  now rewrite E.
Qed.

Lemma present_or_absent (x : A) (l : list A) :
  (exists y, In y l /\ key y = key x) \/ (forall y, In y l -> key y <> key x).
Proof.
  induction l as [|y l [[z [Hz Ez]] | IH]].
  - right. intros y [].
  - left. exists z. split; [now right | assumption].
  - destruct (String.eqb (key y) (key x)) eqn:E.
    + apply String.eqb_eq in E. left. exists y. split; [now left | assumption].
    + apply String.eqb_neq in E. right. intros z [<- | Hz]; [assumption | now apply IH].
Qed.

Lemma upsert_keys_unique (x : A) (l : list A) :
  NoDup (map key l) -> NoDup (map key (upsert key x l)).
Proof.
  intro H. destruct (present_or_absent x l) as [P | P].
  - now rewrite map_key_upsert.
  - rewrite (upsert_absent x l P), map_app. simpl.
    apply NoDup_app; [assumption | constructor; [intros [] | constructor] |].
    intros k Hk [<- | []]. apply in_map_iff in Hk as [y [Ey Hy]].
    exact (P y Hy Ey).
Qed.

Lemma filter_key_absent (k : string) (l : list A) :
  find (fun y => String.eqb (key y) k)
       (filter (fun y => negb (String.eqb (key y) k)) l) = None.
Proof.
  induction l as [|y l IH]; simpl; [reflexivity|].
  destruct (String.eqb (key y) k) eqn:E; simpl; [exact IH|].
  now rewrite E.
Qed.

Lemma filter_key_other (k k' : string) (l : list A) :
  k' <> k ->
  find (fun y => String.eqb (key y) k')
       (filter (fun y => negb (String.eqb (key y) k)) l)
  = find (fun y => String.eqb (key y) k') l.
Proof.
  intro Hk. induction l as [|y l IH]; simpl; [reflexivity|].
  destruct (String.eqb (key y) k) eqn:E; simpl.
  - apply String.eqb_eq in E.
    assert (E' : String.eqb (key y) k' = false).
    { apply String.eqb_neq. congruence. }
    now rewrite E'.
  - destruct (String.eqb (key y) k'); [reflexivity | exact IH].
Qed.

Lemma filter_key_noop (k : string) (l : list A) :
  find (fun y => String.eqb (key y) k) l = None ->
  filter (fun y => negb (String.eqb (key y) k)) l = l.
Proof.
  induction l as [|y l IH]; simpl; [reflexivity|].
  destruct (String.eqb (key y) k); simpl; [discriminate|].
  intro H. now rewrite IH.
Qed.

Lemma find_None_keys (k : string) (l : list A) :
  find (fun y => String.eqb (key y) k) l = None ->
  forall y, In y l -> key y <> k.
Proof.
  intros H y Hy E. apply (find_none _ _ H) in Hy. simpl in Hy.
  rewrite E, String.eqb_refl in Hy. discriminate Hy.
Qed.

End UpsertFacts.

Import Storage.

Lemma getPlayers_savePlayer (ls : LocalStorage) (p : Player.t) :
  quotaExceeded ls = false ->
  getPlayers (savePlayer ls p) = upsert Player.id p (getPlayers ls).
Proof.
  intro Hq. unfold savePlayer, upsert, savePlayers, setPlayersItem.
  rewrite Hq.
  destruct (findIndex _ (getPlayers ls)); reflexivity.
Qed.

Lemma getHands_saveHand (ls : LocalStorage) (h : Hand.t) (now : Z) :
  quotaExceeded ls = false ->
  getHands (saveHand ls h now) = upsert Hand.id (touch h now) (getHands ls).
Proof.
  intro Hq. unfold saveHand, upsert, saveHands, setHandsItem.
  rewrite Hq. change (Hand.id (touch h now)) with (Hand.id h).
  destruct (findIndex _ (getHands ls)); reflexivity.
Qed.

(** X7: when the write goes through, a saved player is what a lookup by
    its id returns, and lookups by any other id are as before; this holds
    whether the stored text was missing, unreadable or a list. *)
Theorem savePlayer_then_lookup (ls : LocalStorage) (p : Player.t) :
  quotaExceeded ls = false ->
  getPlayerById (savePlayer ls p) (Player.id p) = Some p
  /\ forall other, other <> Player.id p ->
                   getPlayerById (savePlayer ls p) other = getPlayerById ls other.
Proof.
  intro Hq. unfold getPlayerById. rewrite (getPlayers_savePlayer ls p Hq). split.
  - apply find_upsert_same.
  - intros other Ho. now apply find_upsert_other.
Qed.

Lemma savePlayer_then_lookup_witness :
  quotaExceeded sampleStore = false
  /\ getPlayerById (savePlayer sampleStore carol) "p3" = Some carol.
Proof.
  split; [reflexivity|].
  exact (proj1 (savePlayer_then_lookup sampleStore carol eq_refl)).
Defined.

(** X8: saving a player keeps the ids of the stored players pairwise
    distinct; the list grows by one entry when the id is new and keeps its
    length when it is not. *)
Theorem savePlayer_keeps_ids_unique (ls : LocalStorage) (p : Player.t) :
  NoDup (map Player.id (getPlayers ls)) ->
  NoDup (map Player.id (getPlayers (savePlayer ls p)))
  /\ (quotaExceeded ls = false ->
      length (getPlayers (savePlayer ls p))
      = match getPlayerById ls (Player.id p) with
        | Some _ => length (getPlayers ls)
        | None => S (length (getPlayers ls))
        end).
Proof.
  intro Hnd. split.
  - destruct (quotaExceeded ls) eqn:Hq.
    + unfold savePlayer, savePlayers, setPlayersItem. rewrite Hq.
      destruct (findIndex _ (getPlayers ls)); assumption.
    + rewrite (getPlayers_savePlayer ls p Hq). now apply upsert_keys_unique.
  - intro Hq. rewrite (getPlayers_savePlayer ls p Hq). unfold getPlayerById.
    destruct (find _ (getPlayers ls)) as [q|] eqn:Ef.
    + apply find_some in Ef as [Hin Eq]. apply String.eqb_eq in Eq.
      rewrite <- (length_map Player.id), map_key_upsert, length_map;
        [reflexivity|]. exists q. auto.
    + rewrite upsert_absent by (now apply find_None_keys).
      rewrite length_app. simpl. lia.
Qed.

Lemma sampleStore_ids : NoDup (map Player.id (getPlayers sampleStore)).
Proof. distinct. Qed.

Lemma savePlayer_keeps_ids_unique_witness :
  NoDup (map Player.id (getPlayers sampleStore))
  /\ NoDup (map Player.id (getPlayers (savePlayer sampleStore carol))).
Proof.
  split; [exact sampleStore_ids|].
  exact (proj1 (savePlayer_keeps_ids_unique sampleStore carol sampleStore_ids)).
Defined.

(** X9: when the write goes through, a deleted id is no longer found,
    lookups by other ids are as before, and deleting an id that is not stored
    leaves the list of players as it was. *)
Theorem deletePlayer_removes (ls : LocalStorage) (pid : string) :
  quotaExceeded ls = false ->
  getPlayerById (deletePlayer ls pid) pid = None
  /\ (forall other, other <> pid ->
                    getPlayerById (deletePlayer ls pid) other
                    = getPlayerById ls other)
  /\ (getPlayerById ls pid = None ->
      getPlayers (deletePlayer ls pid) = getPlayers ls).
Proof.
  intro Hq.
  assert (E : getPlayers (deletePlayer ls pid)
              = filter (fun p => negb (String.eqb (Player.id p) pid)) (getPlayers ls)).
  { unfold deletePlayer, savePlayers, setPlayersItem. now rewrite Hq. }
  unfold getPlayerById. rewrite E. split; [|split].
  - apply (filter_key_absent Player.id).
  - intros other Ho. now apply (filter_key_other Player.id).
  - intro H. now apply (filter_key_noop Player.id).
Qed.

Lemma deletePlayer_removes_witness :
  quotaExceeded sampleStore = false
  /\ getPlayerById (deletePlayer sampleStore "p1") "p1" = None.
Proof.
  split; [reflexivity|].
  exact (proj1 (deletePlayer_removes sampleStore "p1" eq_refl)).
Defined.

Section SortFacts.

Context {A : Type}.

Lemma insertBy_perm (cmp : A -> A -> Z) (a : A) (l : list A) :
  Permutation (a :: l) (insertBy cmp a l).
Proof.
  induction l as [|b l IH]; simpl; [apply Permutation_refl|].
  destruct (cmp a b <=? 0); [apply Permutation_refl|].
  eapply Permutation_trans; [apply perm_swap | apply perm_skip, IH].
Qed.

Lemma sortBy_perm (cmp : A -> A -> Z) (l : list A) :
  Permutation l (sortBy cmp l).
Proof.
  induction l as [|a l IH]; simpl; [apply perm_nil|].
  eapply Permutation_trans; [apply perm_skip, IH | apply insertBy_perm].
Qed.

Lemma strongly_sorted_prefix (R : A -> A -> Prop) (l1 l2 : list A) :
  StronglySorted R (l1 ++ l2) -> StronglySorted R l1.
Proof.
  induction l1 as [|a l1 IH]; intro S; [constructor|].
  simpl in S. inversion S as [|a' t St Ft]; subst.
  constructor; [now apply IH|].
  apply Forall_app in Ft as [Ft _]. exact Ft.
Qed.

Variable f : A -> Z.

(** Newest first: the order of [(a, b) => b.f - a.f]. *)
Let newerFirst (x y : A) : Prop := f y <= f x.

Lemma insertBy_desc_sorted (a : A) (l : list A) :
  Sorted newerFirst l ->
  Sorted newerFirst (insertBy (fun a b => f b - f a) a l).
Proof.
  unfold newerFirst. induction l as [|b l IH]; intro H; simpl.
  - repeat constructor.
  - destruct (f b - f a <=? 0) eqn:E.
    + constructor; [assumption | constructor; lia].
    + inversion H as [|x xs Hs Hh]; subst.
      constructor; [now apply IH|].
      destruct l as [|c l]; simpl.
      * constructor. lia.
      * destruct (f c - f a <=? 0); constructor; [lia|].
        inversion Hh; subst. assumption.
Qed.

Lemma sortBy_desc_sorted (l : list A) :
  Sorted newerFirst (sortBy (fun a b => f b - f a) l).
Proof.
  induction l as [|a l IH]; simpl; [constructor | now apply insertBy_desc_sorted].
Qed.

Lemma sortBy_desc_strongly (l : list A) :
  StronglySorted newerFirst (sortBy (fun a b => f b - f a) l).
Proof.
  apply Sorted_StronglySorted; [|apply sortBy_desc_sorted].
  intros x y z. unfold newerFirst. lia.
Qed.

Lemma sortBy_desc_head (x : A) (l : list A) :
  In x l -> (forall y, In y l -> y = x \/ f y < f x) ->
  hd_error (sortBy (fun a b => f b - f a) l) = Some x.
Proof.
  intros Hx Hmax.
  pose proof (sortBy_perm (fun a b => f b - f a) l) as P.
  pose proof (sortBy_desc_strongly l) as S.
  destruct (sortBy (fun a b => f b - f a) l) as [|h t].
  - apply Permutation_sym, Permutation_nil in P. subst. destruct Hx.
  - simpl. f_equal.
    assert (Hh : In h l).
    { apply (Permutation_in _ (Permutation_sym P)). now left. }
    destruct (Hmax h Hh) as [E | Hlt]; [assumption|].
    assert (Hx' : In x (h :: t)) by now apply (Permutation_in _ P).
    destruct Hx' as [E | Hx']; [assumption|].
    inversion S as [|h' t' St Ft]; subst.
    rewrite Forall_forall in Ft. specialize (Ft x Hx'). unfold newerFirst in Ft. lia.
Qed.

Lemma strongly_sorted_split (l1 l2 : list A) :
  StronglySorted newerFirst (l1 ++ l2) ->
  forall x y, In x l1 -> In y l2 -> f y <= f x.
Proof.
  induction l1 as [|a l1 IH]; intros S x y Hx Hy; [destruct Hx|].
  simpl in S. inversion S as [|a' t St Ft]; subst.
  destruct Hx as [<- | Hx].
  - rewrite Forall_forall in Ft. apply Ft. apply in_or_app. now right.
  - now apply IH.
Qed.

End SortFacts.

Lemma In_upsert {A} (key : A -> string) (x y : A) (l : list A) :
  In y (upsert key x l) -> y = x \/ In y l.
Proof.
  unfold upsert. induction l as [|z l IH]; simpl.
  - intros [<- | []]. now left.
  - destruct (String.eqb (key z) (key x)); simpl.
    + intros [<- | H]; [now left | right; now right].
    + destruct (findIndex (fun y0 => String.eqb (key y0) (key x)) l); simpl;
        (intros [<- | H]; [right; now left|]);
        destruct (IH H) as [E | Hin]; [now left | right; now right
                                      | now left | right; now right].
Qed.

Lemma In_upsert_self {A} (key : A -> string) (x : A) (l : list A) :
  In x (upsert key x l).
Proof.
  pose proof (find_upsert_same key x l) as H.
  apply find_some in H. tauto.
Qed.

(** X10: for a non-negative limit, the recent players are the first
    [limit] stored players in descending order of [lastSeenAt]: the result
    is sorted newest first, has [min limit n] entries, and together with the
    players left out, none of which was seen later than a returned one, it
    is a rearrangement of the stored list. *)
Theorem getRecentPlayers_newest_first (ls : LocalStorage) (limit : Z) :
  0 <= limit ->
  let recent := getRecentPlayers ls (Some limit) in
  Sorted (fun x y => Player.lastSeenAt y <= Player.lastSeenAt x) recent
  /\ length recent = Nat.min (Z.to_nat limit) (length (getPlayers ls))
  /\ exists rest,
       Permutation (getPlayers ls) (recent ++ rest)
       /\ forall x y, In x recent -> In y rest ->
                      Player.lastSeenAt y <= Player.lastSeenAt x.
Proof.
  intros Hl recent.
  set (sorted := sortBy (fun a b => Player.lastSeenAt b - Player.lastSeenAt a)
                        (getPlayers ls)).
  assert (Er : recent = firstn (Z.to_nat limit) sorted).
  { unfold recent, getRecentPlayers, slice0.
    assert (E : (limit <? 0) = false) by lia. now rewrite E. }
  pose proof (sortBy_perm (fun a b => Player.lastSeenAt b - Player.lastSeenAt a)
                          (getPlayers ls)) as P.
  pose proof (sortBy_desc_strongly Player.lastSeenAt (getPlayers ls)) as S.
  fold sorted in P, S.
  pose proof (Permutation_length P) as Plen.
  rewrite <- (firstn_skipn (Z.to_nat limit) sorted) in S, P.
  rewrite <- Er in S, P.
  split; [|split].
  - apply StronglySorted_Sorted.
    exact (strongly_sorted_prefix _ _ _ S).
  - rewrite Er, length_firstn. lia.
  - exists (skipn (Z.to_nat limit) sorted). split; [assumption|].
    now apply (strongly_sorted_split Player.lastSeenAt).
Qed.

Lemma getRecentPlayers_newest_first_witness :
  0 <= 1
  /\ length (getRecentPlayers sampleStore (Some 1))
     = Nat.min (Z.to_nat 1) (length (getPlayers sampleStore)).
Proof.
  split; [lia|].
  apply (getRecentPlayers_newest_first sampleStore 1). lia.
Defined.

(** X11: when the write goes through and every stored hand was updated
    before [now], the hand just saved, stamped with [now], is the first of the
    hands sorted for the home page. *)
Theorem saved_hand_comes_first (ls : LocalStorage) (h : Hand.t) (now : Z) :
  quotaExceeded ls = false ->
  (forall h', In h' (getHands ls) -> Hand.updatedAt h' < now) ->
  hd_error (getHandsSorted (saveHand ls h now)) = Some (touch h now)
  /\ Hand.updatedAt (touch h now) = now.
Proof.
  intros Hq Hold. split; [|reflexivity].
  unfold getHandsSorted. rewrite (getHands_saveHand ls h now Hq).
  apply (sortBy_desc_head Hand.updatedAt).
  - apply In_upsert_self.
  - intros y Hy. apply In_upsert in Hy as [E | Hy]; [now left|].
    right. simpl. now apply Hold.
Qed.

Lemma sampleStore_hands_before (now : Z) :
  20 < now -> forall h', In h' (getHands sampleStore) -> Hand.updatedAt h' < now.
Proof. intros H h' [<-|[]]. exact H. Qed.

Lemma saved_hand_comes_first_witness :
  quotaExceeded sampleStore = false
  /\ (forall h', In h' (getHands sampleStore) -> Hand.updatedAt h' < 50)
  /\ hd_error (getHandsSorted (saveHand sampleStore newHand 50))
     = Some (touch newHand 50).
Proof.
  assert (H : 20 < 50) by lia.
  split; [reflexivity|]. split; [exact (sampleStore_hands_before 50 H)|].
  exact (proj1 (saved_hand_comes_first sampleStore newHand 50 eq_refl
                                       (sampleStore_hands_before 50 H))).
Defined.

(** X12: when the write goes through and every stored player was seen
    before [now], a stored player whose last-seen time is updated to [now]
    is the first of the recent players, for any limit of at least one. *)
Theorem selected_player_comes_first
        (ls : LocalStorage) (pid : string) (now limit : Z) (p : Player.t) :
  quotaExceeded ls = false ->
  getPlayerById ls pid = Some p ->
  (forall q, In q (getPlayers ls) -> Player.lastSeenAt q < now) ->
  1 <= limit ->
  hd_error (getRecentPlayers (updatePlayerLastSeen ls pid now) (Some limit))
  = Some (Player.mk pid (Player.name p) (Player.tags p) (Player.note p) now).
Proof.
  intros Hq Hp Hold Hl.
  assert (Eid : Player.id p = pid).
  { unfold getPlayerById in Hp. apply find_some in Hp as [_ E].
    now apply String.eqb_eq in E. }
  unfold updatePlayerLastSeen. rewrite Hp, Eid.
  set (p' := Player.mk pid (Player.name p) (Player.tags p) (Player.note p) now).
  unfold getRecentPlayers, slice0.
  assert (E : (limit <? 0) = false) by lia. rewrite E.
  rewrite (getPlayers_savePlayer ls p' Hq).
  assert (H : hd_error (sortBy (fun a b => Player.lastSeenAt b - Player.lastSeenAt a)
                               (upsert Player.id p' (getPlayers ls))) = Some p').
  { apply (sortBy_desc_head Player.lastSeenAt).
    - apply In_upsert_self.
    - intros y Hy. apply In_upsert in Hy as [E' | Hy]; [now left|].
      right. simpl. now apply Hold. }
  destruct (sortBy _ (upsert Player.id p' (getPlayers ls))) as [|x xs];
    [discriminate H|].
  destruct (Z.to_nat limit) as [|n] eqn:En; [lia|]. exact H.
Qed.

Lemma sampleStore_seen_before (now : Z) :
  200 < now ->
  forall q, In q (getPlayers sampleStore) -> Player.lastSeenAt q < now.
Proof. intros H q [<-|[<-|[]]]; cbn; lia. Qed.

Lemma selected_player_comes_first_witness :
  quotaExceeded sampleStore = false
  /\ getPlayerById sampleStore "p1" = Some alice
  /\ (forall q, In q (getPlayers sampleStore) -> Player.lastSeenAt q < 500)
  /\ 1 <= 5
  /\ hd_error (getRecentPlayers (updatePlayerLastSeen sampleStore "p1" 500)
                                (Some 5))
     = Some (Player.mk "p1" "Alice" ["reg"] "" 500).
Proof.
  assert (H : 200 < 500) by lia.
  split; [reflexivity|]. split; [reflexivity|].
  split; [exact (sampleStore_seen_before 500 H)|]. split; [lia|].
  apply (selected_player_comes_first sampleStore "p1" 500 5 alice);
    [reflexivity | reflexivity | exact (sampleStore_seen_before 500 H) | lia].
Defined.

(** X13: when the writes go through, saving a hand whose id is not stored
    and then deleting that id gives back the list of hands as it was. *)
Theorem saveHand_then_deleteHand (ls : LocalStorage) (h : Hand.t) (now : Z) :
  quotaExceeded ls = false ->
  getHandById ls (Hand.id h) = None ->
  getHands (deleteHand (saveHand ls h now) (Hand.id h)) = getHands ls
  /\ getHandById (deleteHand (saveHand ls h now) (Hand.id h)) (Hand.id h) = None.
Proof.
  intros Hq Hnone.
  assert (Hq' : quotaExceeded (saveHand ls h now) = false).
  { unfold saveHand, saveHands, setHandsItem. rewrite Hq.
    destruct (findIndex _ (getHands ls)); reflexivity. }
  assert (E : getHands (deleteHand (saveHand ls h now) (Hand.id h))
              = filter (fun x => negb (String.eqb (Hand.id x) (Hand.id h)))
                       (getHands (saveHand ls h now))).
  { unfold deleteHand, saveHands, setHandsItem. now rewrite Hq'. }
  unfold getHandById in *. rewrite E. split.
  - rewrite (getHands_saveHand ls h now Hq).
    rewrite upsert_absent.
    2:{ intros y Hy. change (Hand.id (touch h now)) with (Hand.id h).
        now apply (find_None_keys Hand.id (Hand.id h) (getHands ls)). }
    rewrite filter_app. simpl. rewrite String.eqb_refl. simpl.
    rewrite app_nil_r. now apply (filter_key_noop Hand.id).
  - apply (filter_key_absent Hand.id).
Qed.

Lemma saveHand_then_deleteHand_witness :
  quotaExceeded sampleStore = false
  /\ getHandById sampleStore "h2" = None
  /\ getHands (deleteHand (saveHand sampleStore newHand 50) "h2")
     = getHands sampleStore.
Proof.
  split; [reflexivity|]. split; [reflexivity|].
  exact (proj1 (saveHand_then_deleteHand sampleStore newHand 50 eq_refl eq_refl)).
Defined.


(** ** The action input between edits *)

Lemma table_orders_NoDup (tableSize : Z) :
  NoDup (preflopOrder tableSize) /\ NoDup (postflopOrder tableSize).
Proof.
  destruct (Z_lt_le_dec tableSize 2) as [H | H].
  { unfold preflopOrder, postflopOrder.
    rewrite PREFLOP_ACTION_ORDER_out, POSTFLOP_ACTION_ORDER_out by lia.
    split; constructor. }
  destruct (Z_lt_le_dec 9 tableSize) as [H' | H'].
  { unfold preflopOrder, postflopOrder.
    rewrite PREFLOP_ACTION_ORDER_out, POSTFLOP_ACTION_ORDER_out by lia.
    split; constructor. }
  assert (E : tableSize = 2 \/ tableSize = 3 \/ tableSize = 4 \/ tableSize = 5
              \/ tableSize = 6 \/ tableSize = 7 \/ tableSize = 8 \/ tableSize = 9)
    by lia.
  repeat (destruct E as [-> | E];
          [split; simpl; repeat constructor; simpl; intuition discriminate|]).
  subst. split; simpl; repeat constructor; simpl; intuition discriminate.
Qed.

Lemma NoDup_filter {A} (f : A -> bool) (l : list A) :
  NoDup l -> NoDup (filter f l).
Proof.
  induction 1 as [|x l Hx Hl IH]; simpl; [constructor|].
  destruct (f x); [|assumption].
  constructor; [|assumption]. intro H. apply filter_In in H. tauto.
Qed.

Lemma playersInHand_is_filtered (tableSize : Z) (actions : list Action) :
  exists f, playersInHand tableSize actions = filter f (postflopOrder tableSize).
Proof.
  unfold playersInHand.
  destruct (reduce1 later (filter (isType RAISE) (preflopActions actions))).
  - eexists. reflexivity.
  - exists (fun _ => true). induction (postflopOrder tableSize) as [|x l IH];
      simpl; [reflexivity | now rewrite <- IH].
Qed.

(** X15: on every street the seats offered for an action are seats of the
    table order of that street, each offered once, and no seat with a fold
    recorded on any street is offered. *)
Theorem available_seats_have_not_folded
        (tableSize : Z) (actions : list Action) (s : Street) :
  NoDup (availablePositions tableSize actions s)
  /\ forall pos, In pos (availablePositions tableSize actions s) ->
                 In pos (orderOfStreet tableSize s)
                 /\ forall a, In a actions -> type a = FOLD -> position a <> pos.
Proof.
  destruct (table_orders_NoDup tableSize) as [Npre Npost].
  destruct (playersInHand_is_filtered tableSize actions) as [f Ef].
  unfold availablePositions, orderOfStreet. destruct (isPreflop s).
  - split; [now apply NoDup_filter|].
    intros pos H. apply filter_In in H as [Hin Hnf]. split; [assumption|].
    intros a Ha Ht Hp. apply negb_true_iff in Hnf.
    assert (C : In pos (allFoldedPositions tableSize actions s)).
    { apply allFoldedPositions_In. left. apply explicitlyFoldedPositions_In.
      exists a. auto. }
    apply includes_In in C. congruence.
  - rewrite Ef. split; [now apply NoDup_filter, NoDup_filter|].
    intros pos H. apply filter_In in H as [Hin Hnf].
    apply filter_In in Hin as [Hin _]. split; [assumption|].
    intros a Ha Ht Hp. apply negb_true_iff in Hnf.
    assert (C : In pos (explicitlyFoldedPositions actions)).
    { apply explicitlyFoldedPositions_In. exists a. auto. }
    apply includes_In in C. congruence.
Qed.

Lemma elapsed_pot_grows (actions : list Action) (l : list Street) (st : Q * Bets) :
  sizesRecorded actions -> nonnegBets (snd st) ->
  (fst st <= fst (fold_left (elapseStreet actions) l st))%Q.
Proof.
  intros Hs. revert st. induction l as [|s l IH]; intros st Hb; simpl.
  - lra.
  - destruct (elapseStreet_grows actions st s Hs Hb) as [L B].
    specialize (IH _ B). lra.
Qed.

Lemma blindsPot_ge_1 (tableSize : Z) (blind : BlindLevel) :
  (1 <= blindsPot tableSize blind)%Q.
Proof.
  unfold blindsPot. pose proof (blind_ratio_nonneg blind).
  destruct (tableSize >=? 3); lra.
Qed.

(** X16: when every recorded size is non-negative or the sentinel, the pot
    entering any street is at least the forced bets it starts from, hence at
    least 1 BB. *)
Theorem pot_never_below_blinds
        (tableSize : Z) (blind : BlindLevel) (actions : list Action) (s : Street) :
  sizesRecorded actions ->
  (blindsPot tableSize blind <= potSize tableSize blind actions s)%Q
  /\ (1 <= potSize tableSize blind actions s)%Q.
Proof.
  intro Hs. rewrite potSize_unfold.
  pose proof (elapsed_pot_grows actions (firstn (streetIndex s) streets)
                                (blindsPot tableSize blind, blindsBets tableSize blind)
                                Hs (blindsBets_nonneg tableSize blind)) as H.
  simpl fst in H. pose proof (blindsPot_ge_1 tableSize blind). split; lra.
Qed.

Lemma pot_never_below_blinds_witness :
  sizesRecorded hand_utg_open
  /\ (1 <= potSize 6 Blind_05_1 hand_utg_open turn)%Q.
Proof.
  split; [exact hand_utg_open_sizes|].
  exact (proj2 (pot_never_below_blinds 6 Blind_05_1 hand_utg_open turn
                                       hand_utg_open_sizes)).
Defined.

Lemma filter_snoc_other (actions : list Action) (a : Action) (s : Street) :
  street a <> s ->
  filter (onStreet s) (actions ++ [a]) = filter (onStreet s) actions.
Proof.
  intro H. rewrite filter_app. simpl.
  assert (E : onStreet s a = false).
  { unfold onStreet. destruct (Street_eqb (street a) s) eqn:E; [|reflexivity].
    apply Street_eqb_eq in E. contradiction. }
  rewrite E. apply app_nil_r.
Qed.

Lemma fold_elapse_ext (actions actions' : list Action) (l : list Street)
      (st : Q * Bets) :
  (forall s, In s l -> filter (onStreet s) actions' = filter (onStreet s) actions) ->
  fold_left (elapseStreet actions') l st = fold_left (elapseStreet actions) l st.
Proof.
  revert st. induction l as [|s l IH]; intros st H; simpl; [reflexivity|].
  unfold elapseStreet at 2 4. rewrite (H s (or_introl eq_refl)).
  apply IH. intros s' Hs'. apply H. now right.
Qed.

(** X17: an action appended on the current street or on a later one does
    not change the pot entering the current street. *)
Theorem pot_ignores_current_street
        (tableSize : Z) (blind : BlindLevel) (actions : list Action)
        (s : Street) (a : Action) :
  (streetIndex s <= streetIndex (street a))%nat ->
  potSize tableSize blind (HandEditor.handleAddAction actions a) s
  = potSize tableSize blind actions s.
Proof.
  intro H. rewrite !potSize_unfold. f_equal. unfold HandEditor.handleAddAction.
  apply fold_elapse_ext. intros s' Hs'. apply filter_snoc_other.
  intro E. subst s'.
  destruct s, (street a); simpl in *;
    repeat (destruct Hs' as [Hs' | Hs']; try discriminate Hs'); try lia;
    try contradiction.
Qed.

Lemma pot_ignores_current_street_witness :
  (streetIndex flop <= streetIndex (street bb_flop_check))%nat
  /\ potSize 3 Blind_05_1 (HandEditor.handleAddAction hand_btn_open bb_flop_check)
             flop
     = potSize 3 Blind_05_1 hand_btn_open flop.
Proof.
  split; [cbn; lia|].
  apply (pot_ignores_current_street 3 Blind_05_1 hand_btn_open flop bb_flop_check).
  cbn; lia.
Defined.

Lemma Math_round_nonneg (x : Q) : (0 <= x)%Q -> 0 <= Math_round x.
Proof.
  intro H. unfold Math_round.
  change 0 with (Qfloor 0). apply Qfloor_resp_le. lra.
Qed.

Lemma Qmaxb_zero_nonneg (x : Q) : (0 <= Qmaxb 0 x)%Q.
Proof.
  unfold Qmaxb. destruct (Qle_bool 0 x) eqn:E; [now apply Qle_bool_iff | lra].
Qed.

Lemma isPositive_spec (x : option Q) :
  isPositive x = true -> exists s, x = Some s /\ (0 < s)%Q.
Proof.
  destruct x as [s|]; simpl; [|discriminate]. intro H. exists s. split; [reflexivity|].
  apply negb_true_iff in H. destruct (Qlt_le_dec 0 s) as [L | L]; [assumption|].
  apply Qle_bool_iff in L. congruence.
Qed.

Lemma spent_stays_nonneg (actions : list Action) (step : Q -> Action -> Q) (z : Q) :
  (forall spent a, (0 <= spent)%Q -> (0 <= step spent a)%Q) ->
  (0 <= z)%Q -> (0 <= fold_left step actions z)%Q.
Proof.
  intro Hstep. revert z. induction actions as [|a l IH]; intros z Hz; simpl;
    [assumption | apply IH, Hstep, Hz].
Qed.

Lemma orElse_positive (x : option Q) (d : Q) :
  isPositive x = true -> (0 <= orElse x d)%Q.
Proof.
  intro H. apply isPositive_spec in H as [s [-> Hs]]. simpl. lra.
Qed.

Lemma remaining_stack_nonneg
      (tableSize : Z) (blind : BlindLevel) (actions : list Action)
      (stackBb : Position -> option Q) (pos : Position) (r : Q) :
  getRemainingStack tableSize blind actions stackBb pos = Some r -> (0 <= r)%Q.
Proof.
  unfold getRemainingStack. destruct (stackBb pos) as [stack|]; [|discriminate].
  destruct (Qeq_bool stack 0); [discriminate|].
  intro H. injection H as <-. apply Qmaxb_zero_nonneg.
Qed.

(** X18: the remaining stack of a seat is unknown exactly when no stack is
    assigned or the stack is 0; when known it is never negative and never
    more than a non-negative assigned stack. *)
Theorem remaining_stack_bounds
        (tableSize : Z) (blind : BlindLevel) (actions : list Action)
        (stackBb : Position -> option Q) (pos : Position) :
  (getRemainingStack tableSize blind actions stackBb pos = None <->
   stackBb pos = None \/ exists s, stackBb pos = Some s /\ (s == 0)%Q)
  /\ forall r, getRemainingStack tableSize blind actions stackBb pos = Some r ->
               (0 <= r)%Q
               /\ forall s, stackBb pos = Some s -> (0 <= s)%Q -> (r <= s)%Q.
Proof.
  unfold getRemainingStack.
  destruct (stackBb pos) as [stack|] eqn:Es.
  2:{ split; [split; [now left | reflexivity] | discriminate]. }
  destruct (Qeq_bool stack 0) eqn:E0.
  { split; [|discriminate]. split; [|reflexivity].
    intros _. right. exists stack. split; [reflexivity | now apply Qeq_bool_iff]. }
  split.
  { split; [discriminate|]. intros [C | [s [Hs C]]]; [discriminate C|].
    injection Hs as <-. apply Qeq_bool_iff in C. congruence. }
  intros r Hr. injection Hr as <-. split; [apply Qmaxb_zero_nonneg|].
  intros s Hs Hs0. injection Hs as <-.
  match goal with
  | |- (Qmaxb 0 (stack - ?sp) <= stack)%Q =>
      assert (Hsp : (0 <= sp)%Q); [|set (spent := sp) in *]
  end.
  { apply spent_stays_nonneg.
    - intros spent a Hsp.
      destruct (Position_eqb (position a) pos && isPositive (sizeBb a)) eqn:E1.
      + apply andb_true_iff in E1 as [_ E1]. now apply orElse_positive.
      + destruct (Position_eqb (position a) pos && isType CALL a); [|assumption].
        destruct (rev _) as [|lastRaise rest]; [assumption|].
        destruct (isPositive (sizeBb lastRaise)) eqn:E2; [|assumption].
        now apply orElse_positive.
    - pose proof (blind_ratio_nonneg blind).
      destruct (Position_eqb pos SB && (tableSize >=? 3)); [lra|].
      destruct (Position_eqb pos BB); lra. }
  unfold Qmaxb. destruct (Qle_bool 0 (stack - spent)); lra.
Qed.

Lemma sizesRecorded_snoc (actions : list Action) (a : Action) :
  sizesRecorded actions ->
  (forall s, sizeBb a = Some s -> (0 <= s)%Q \/ (s == -1)%Q) ->
  sizesRecorded (actions ++ [a]).
Proof.
  intros H Ha b s Hb Hs. apply in_app_or in Hb as [Hb | [<- | []]].
  - now apply (H b).
  - now apply Ha.
Qed.

(** X19: the editor keeps every recorded size non-negative or equal to the
    sentinel -1: each handler, given a non-negative preset or entry (or the
    all-in preset -1) and a non-negative pot fraction, appends only such a
    size, and a removal leaves only such sizes. *)
Theorem editor_keeps_sizes_recorded
        (tableSize : Z) (blind : BlindLevel) (actions : list Action) (s : Street)
        (stackBb : Position -> option Q) (selection : Selection) (newId : string) :
  sizesRecorded actions ->
  (forall ty, sizesRecorded
                (recorded actions
                          (handleTypeSelect tableSize blind actions s stackBb
                                            selection newId ty)))
  /\ (forall size, (0 <= size)%Q \/ (size == -1)%Q ->
                   sizesRecorded
                     (recorded actions
                               (handleSizeSelect actions s selection newId size)))
  /\ (forall ratio, (0 <= ratio)%Q ->
                    sizesRecorded
                      (recorded actions
                                (handlePotRatioSelect tableSize blind actions s
                                                      selection newId ratio)))
  /\ (forall actionId, sizesRecorded (HandEditor.handleRemoveAction actions actionId)).
Proof.
  intro H. split; [|split; [|split]].
  - intro ty. unfold recorded, handleTypeSelect.
    destruct (selectedPosition selection) as [pos|] eqn:Ep; [|exact H].
    destruct ty; simpl;
      try (apply sizesRecorded_snoc; [exact H | discriminate]);
      try (match goal with
           | |- context [if ?c then _ else _] => destruct c; exact H
           end).
    apply sizesRecorded_snoc; [exact H|]. simpl. intros q Hq. injection Hq as <-.
    unfold allInSize. rewrite Ep.
    destruct (getRemainingStack tableSize blind actions stackBb pos) as [r|] eqn:Er.
    + left. exact (remaining_stack_nonneg tableSize blind actions stackBb pos r Er).
    + right. reflexivity.
  - intros size Hsize. unfold recorded, handleSizeSelect.
    destruct (selectedPosition selection), (selectedType selection);
      try exact H.
    simpl. apply sizesRecorded_snoc; [exact H|]. simpl.
    intros q Hq. injection Hq as <-. exact Hsize.
  - intros ratio Hr. unfold recorded, handlePotRatioSelect.
    destruct (selectedPosition selection), (selectedType selection);
      try exact H.
    simpl. apply sizesRecorded_snoc; [exact H|]. simpl.
    intros q Hq. injection Hq as <-. left.
    assert (Hp : (0 <= potSize tableSize blind actions s)%Q).
    { rewrite potSize_unfold.
      pose proof (elapsed_pot_grows
                    actions (firstn (streetIndex s) streets)
                    (blindsPot tableSize blind, blindsBets tableSize blind)
                    H (blindsBets_nonneg tableSize blind)) as Hg.
      simpl fst in Hg. pose proof (blindsPot_ge_1 tableSize blind). lra. }
    change 0%Q with (inject_Z 0). rewrite <- Zle_Qle.
    apply Math_round_nonneg. nra.
  - intros actionId a q Ha. apply filter_In in Ha as [Ha _]. now apply H.
Qed.

Lemma editor_keeps_sizes_recorded_witness :
  sizesRecorded hand_utg_open
  /\ sizesRecorded
       (recorded hand_utg_open
                 (handlePotRatioSelect 6 Blind_05_1 hand_utg_open flop bbRaise
                                       "a6" 0.5%Q)).
Proof.
  split; [exact hand_utg_open_sizes|].
  destruct (editor_keeps_sizes_recorded 6 Blind_05_1 hand_utg_open flop noStacks
                                        bbRaise "a6" hand_utg_open_sizes)
    as [_ [_ [H _]]].
  apply H. unfold Qle; cbn; lia.
Defined.

(** X20: removing the action just appended, whose id no other action has,
    gives back the list as it was; in general a removal keeps exactly the
    actions with another id, in their order and with their order keys. *)
Theorem add_then_remove_action (actions : list Action) (a : Action) :
  (forall b, In b actions -> id b <> id a) ->
  HandEditor.handleRemoveAction (HandEditor.handleAddAction actions a) (id a)
  = actions
  /\ forall k b, In b (HandEditor.handleRemoveAction actions k)
                 <-> In b actions /\ id b <> k.
Proof.
  intro Hfresh. split.
  - unfold HandEditor.handleRemoveAction, HandEditor.handleAddAction.
    rewrite filter_app. simpl. rewrite String.eqb_refl. simpl. rewrite app_nil_r.
    induction actions as [|b l IH]; simpl; [reflexivity|].
    assert (E : String.eqb (id b) (id a) = false).
    { apply String.eqb_neq. apply Hfresh. now left. }
    rewrite E. simpl. f_equal. apply IH. intros c Hc. apply Hfresh. now right.
  - intros k b. unfold HandEditor.handleRemoveAction. rewrite filter_In.
    rewrite negb_true_iff, String.eqb_neq. reflexivity.
Qed.

Lemma hand_btn_open_other_ids :
  forall b, In b hand_btn_open -> id b <> id bb_flop_check.
Proof. intros b [<-|[<-|[<-|[]]]]; discriminate. Qed.

Lemma add_then_remove_action_witness :
  (forall b, In b hand_btn_open -> id b <> id bb_flop_check)
  /\ HandEditor.handleRemoveAction
       (HandEditor.handleAddAction hand_btn_open bb_flop_check) "a3"
     = hand_btn_open.
Proof.
  split; [exact hand_btn_open_other_ids|].
  exact (proj1 (add_then_remove_action hand_btn_open bb_flop_check
                                       hand_btn_open_other_ids)).
Defined.

Lemma recorded_cases
      (tableSize : Z) (blind : BlindLevel) (actions : list Action) (s : Street)
      (stackBb : Position -> option Q) (selection : Selection) (newId : string)
      (r : Selection * option Action) :
  (exists ty, r = handleTypeSelect tableSize blind actions s stackBb selection newId ty)
  \/ (exists size, r = handleSizeSelect actions s selection newId size)
  \/ (exists ratio, r = handlePotRatioSelect tableSize blind actions s selection
                                             newId ratio) ->
  recorded actions r = actions
  \/ exists a, recorded actions r = actions ++ [a]
               /\ order a = Z.of_nat (length actions) /\ id a = newId
               /\ street a = s.
Proof.
  intro H. unfold recorded, HandEditor.handleAddAction.
  destruct (snd r) as [a|] eqn:Ea; [right | now left].
  exists a. split; [reflexivity|].
  destruct H as [[ty ->] | [[size ->] | [ratio ->]]].
  - unfold handleTypeSelect in Ea.
    destruct (selectedPosition selection); [|discriminate Ea].
    destruct ty; simpl in Ea; try (injection Ea as <-; repeat split);
      match type of Ea with
      | snd (if ?c then _ else _) = _ => destruct c; discriminate Ea
      end.
  - unfold handleSizeSelect in Ea.
    destruct (selectedPosition selection), (selectedType selection);
      try discriminate Ea.
    injection Ea as <-. repeat split.
  - unfold handlePotRatioSelect in Ea.
    destruct (selectedPosition selection), (selectedType selection);
      try discriminate Ea.
    injection Ea as <-. repeat split.
Qed.

Lemma ordersArePositions_snoc (actions : list Action) (a : Action) :
  ordersArePositions actions -> order a = Z.of_nat (length actions) ->
  ordersArePositions (actions ++ [a]).
Proof.
  unfold ordersArePositions. intros H Ha.
  rewrite map_app, length_app, H. simpl length.
  replace (length actions + 1)%nat with (S (length actions)) by lia.
  rewrite seq_S, map_app. simpl. now rewrite Ha.
Qed.

Lemma ordersArePositions_bound (actions : list Action) (b : Action) :
  ordersArePositions actions -> In b actions ->
  0 <= order b < Z.of_nat (length actions).
Proof.
  unfold ordersArePositions. intros H Hb.
  assert (Hin : In (order b) (map Z.of_nat (seq 0 (length actions)))).
  { rewrite <- H. now apply in_map. }
  apply in_map_iff in Hin as [n [En Hn]]. apply in_seq in Hn. lia.
Qed.

Lemma ordersArePositions_NoDup (actions : list Action) :
  ordersArePositions actions -> NoDup (map order actions).
Proof.
  unfold ordersArePositions. intros ->.
  generalize 0%nat. induction (length actions) as [|n IH]; intro k; simpl;
    [constructor|].
  constructor; [|apply IH].
  intro H. apply in_map_iff in H as [m [Em Hm]]. apply in_seq in Hm. lia.
Qed.

(** X21: while actions are only appended, every handler keeps the order
    key of each action equal to its index in the list, so a new key is
    greater than every key present. *)
Theorem appends_keep_orders_as_positions
        (tableSize : Z) (blind : BlindLevel) (actions : list Action) (s : Street)
        (stackBb : Position -> option Q) (selection : Selection) (newId : string)
        (r : Selection * option Action) :
  ordersArePositions actions ->
  (exists ty, r = handleTypeSelect tableSize blind actions s stackBb selection newId ty)
  \/ (exists size, r = handleSizeSelect actions s selection newId size)
  \/ (exists ratio, r = handlePotRatioSelect tableSize blind actions s selection
                                             newId ratio) ->
  ordersArePositions (recorded actions r)
  /\ forall a, snd r = Some a -> forall b, In b actions -> order b < order a.
Proof.
  intros H Hr.
  destruct (recorded_cases tableSize blind actions s stackBb selection newId r Hr)
    as [E | [a [E [Ho _]]]].
  - rewrite E. split; [assumption|].
    intros a Ha. unfold recorded in E. rewrite Ha in E.
    unfold HandEditor.handleAddAction in E.
    apply (f_equal (@length Action)) in E. rewrite length_app in E. simpl in E. lia.
  - rewrite E. split; [now apply ordersArePositions_snoc|].
    intros a' Ha' b Hb. unfold recorded in E. rewrite Ha' in E.
    unfold HandEditor.handleAddAction in E. apply app_inj_tail in E as [_ ->].
    pose proof (ordersArePositions_bound actions b H Hb). lia.
Qed.

Lemma appends_keep_orders_as_positions_witness :
  ordersArePositions hand_btn_open
  /\ ordersArePositions
       (recorded hand_btn_open
                 (handleSizeSelect hand_btn_open flop bbRaise "a3" 2%Q)).
Proof.
  split; [reflexivity|].
  refine (proj1 (appends_keep_orders_as_positions
                   3 Blind_05_1 hand_btn_open flop noStacks bbRaise "a3"
                   (handleSizeSelect hand_btn_open flop bbRaise "a3" 2%Q)
                   eq_refl _)).
  right; left. exists 2%Q. reflexivity.
Defined.

(** X22: on a hand whose order keys are the indices of its actions, as
    appends alone produce, the editor and the export give every action the
    same label. *)
Theorem labelers_agree_on_appended_hands (actions : list Action) (a : Action) :
  ordersArePositions actions -> In a actions ->
  getActionDisplayLabel actions a = Clipboard.getRaiseLabel a actions.
Proof.
  intros H Ha. apply labelers_agree_on_distinct_orders; [|assumption].
  now apply ordersArePositions_NoDup.
Qed.

Lemma labelers_agree_on_appended_hands_witness :
  ordersArePositions hand_bb_3bets
  /\ In (mkAction "a1" 1 preflop BB RAISE (Some 9%Q)) hand_bb_3bets
  /\ getActionDisplayLabel hand_bb_3bets
                           (mkAction "a1" 1 preflop BB RAISE (Some 9%Q))
     = Clipboard.getRaiseLabel (mkAction "a1" 1 preflop BB RAISE (Some 9%Q))
                               hand_bb_3bets.
Proof.
  split; [reflexivity|]. split; [right; left; reflexivity|].
  apply (labelers_agree_on_appended_hands hand_bb_3bets);
    [reflexivity | right; left; reflexivity].
Defined.

Lemma pushByStreet_fold (actions : list Action) (init : Street -> list Action)
      (s : Street) :
  fold_left pushByStreet actions init s = init s ++ filter (onStreet s) actions.
Proof.
  revert init. induction actions as [|a l IH]; intro init; simpl.
  - now rewrite app_nil_r.
  - rewrite IH. unfold pushByStreet, onStreet.
    assert (E : Street_eqb s (street a) = Street_eqb (street a) s).
    { destruct s, (street a); reflexivity. }
    rewrite E. destruct (Street_eqb (street a) s); [|reflexivity].
    now rewrite <- app_assoc.
Qed.

Lemma streets_partition (actions : list Action) :
  Permutation actions
              (filter (onStreet preflop) actions ++ filter (onStreet flop) actions
               ++ filter (onStreet turn) actions ++ filter (onStreet river) actions).
Proof.
  unfold onStreet. induction actions as [|a l IH]; [constructor|].
  simpl. destruct (street a); simpl.
  - apply perm_skip, IH.
  - apply Permutation_cons_app, IH.
  - rewrite app_assoc. apply Permutation_cons_app.
    rewrite <- app_assoc. exact IH.
  - rewrite 2!app_assoc. apply Permutation_cons_app.
    rewrite <- 2!app_assoc. exact IH.
Qed.

(** X23: grouping the actions by street loses and duplicates nothing: each
    group holds exactly the actions of its street, in ascending order of the
    order key, and the four groups together are a rearrangement of the whole
    list. *)
Theorem actionsByStreet_partitions (actions : list Action) :
  (forall s,
      Permutation (filter (onStreet s) actions) (actionsByStreet actions s)
      /\ Sorted (fun x y => order x <= order y) (actionsByStreet actions s))
  /\ Permutation actions
                 (actionsByStreet actions preflop ++ actionsByStreet actions flop
                  ++ actionsByStreet actions turn ++ actionsByStreet actions river).
Proof.
  assert (E : forall s, actionsByStreet actions s
                        = sortByOrder (filter (onStreet s) actions)).
  { intro s. unfold actionsByStreet. now rewrite pushByStreet_fold. }
  split.
  - intro s. rewrite E. split; [apply sortByOrder_perm | apply sortByOrder_sorted].
  - rewrite !E. eapply Permutation_trans; [apply streets_partition|].
    repeat apply Permutation_app; apply sortByOrder_perm.
Qed.

Lemma lowerString_append (s1 s2 : string) :
  lowerString (String.append s1 s2)
  = String.append (lowerString s1) (lowerString s2).
Proof. induction s1 as [|c s1 IH]; simpl; [reflexivity | now rewrite IH]. Qed.

Lemma lowerString_digits (d : Decimal.uint) :
  lowerString (DecimalString.NilEmpty.string_of_uint d)
  = DecimalString.NilEmpty.string_of_uint d.
Proof. induction d; simpl; try rewrite IHd; reflexivity. Qed.

Lemma prior_raises_of_new_action
      (actions : list Action) (s : Street) (a : Action) :
  ordersArePositions actions -> order a = Z.of_nat (length actions) ->
  street a = s ->
  length (filter (fun b => Street_eqb (street b) (street a) && isType RAISE b
                           && (order b <? order a)) (actions ++ [a]))
  = currentStreetRaiseCount actions s.
Proof.
  intros H Ho Hs. unfold currentStreetRaiseCount.
  rewrite filter_app. simpl. rewrite Z.ltb_irrefl, andb_false_r. simpl.
  rewrite app_nil_r. f_equal. apply filter_ext_in. intros b Hb.
  pose proof (ordersArePositions_bound actions b H Hb) as Hbound.
  assert (E : (order b <? order a) = true) by (apply Z.ltb_lt; lia).
  rewrite E, andb_true_r, Hs. reflexivity.
Qed.

(** X24: on a hand built by appends, a raise recorded through a size
    preset or the numpad is shown in the log under the label its button
    carried, in lower case: "open", "3bet", "4bet", ..., "bet" or "raise". *)
Theorem recorded_raise_label_matches_button
        (actions : list Action) (s : Street) (pos : Position) (ty : ActionType)
        (numpad : bool) (custom newId : string) (size : Q) :
  ordersArePositions actions ->
  let a := mkAction newId (Z.of_nat (length actions)) s pos RAISE (Some size) in
  recorded actions (handleSizeSelect actions s
                                     (mkSelection (Some pos) (Some ty) numpad custom)
                                     newId size)
  = actions ++ [a]
  /\ getActionDisplayLabel (actions ++ [a]) a
     = lowerString (getRaiseLabel s (currentStreetRaiseCount actions s)).
Proof.
  intros H a. split; [reflexivity|].
  unfold getActionDisplayLabel. change (isType RAISE a) with true. cbv iota.
  rewrite (prior_raises_of_new_action actions s a H eq_refl eq_refl).
  unfold getRaiseLabel, isPreflop. change (street a) with s.
  destruct (Street_eqb s preflop).
  - destruct (currentStreetRaiseCount actions s) as [|[|[|k]]]; try reflexivity.
    rewrite lowerString_append. unfold showNat. now rewrite lowerString_digits.
  - destruct (currentStreetRaiseCount actions s); reflexivity.
Qed.

Lemma recorded_raise_label_matches_button_witness :
  ordersArePositions hand_bb_calls
  /\ getActionDisplayLabel
       (hand_bb_calls ++ [mkAction "a2" 2 preflop BTN RAISE (Some 9%Q)])
       (mkAction "a2" 2 preflop BTN RAISE (Some 9%Q))
     = "3bet".
Proof.
  split; [reflexivity|].
  exact (proj2 (recorded_raise_label_matches_button
                  hand_bb_calls preflop BTN RAISE false "" "a2" 9%Q eq_refl)).
Defined.

Lemma prefix_dot (c : ascii) (s : string) :
  String.prefix "." (String c s) = Ascii.eqb c ".".
Proof.
  change (String.prefix "." (String c s))
    with (if ascii_dec "." c then String.prefix "" s else false).
  destruct (ascii_dec "." c) as [<- | N].
  - destruct s; reflexivity.
  - symmetry. apply Ascii.eqb_neq. congruence.
Qed.

Lemma strIncludes_dot (s : string) :
  strIncludes "." s = negb (countDots s =? 0)%nat.
Proof.
  induction s as [|c s IH]; [reflexivity|].
  change (strIncludes "." (String c s))
    with (if String.prefix "." (String c s) then true else strIncludes "." s).
  change (countDots (String c s))
    with ((if Ascii.eqb c "." then 1 else 0) + countDots s)%nat.
  rewrite prefix_dot. destruct (Ascii.eqb c "."); [reflexivity | exact IH].
Qed.

Lemma countDots_append (s1 s2 : string) :
  countDots (String.append s1 s2) = (countDots s1 + countDots s2)%nat.
Proof. induction s1 as [|c s1 IH]; simpl; [reflexivity | rewrite IH; lia]. Qed.

Lemma countDots_dropLast (s : string) :
  (countDots (dropLast s) <= countDots s)%nat.
Proof.
  induction s as [|c s IH]; [simpl; lia|].
  destruct s as [|c' s']; [simpl; lia|].
  change (dropLast (String c (String c' s')))
    with (String c (dropLast (String c' s'))).
  change (countDots (String c (dropLast (String c' s'))))
    with ((if Ascii.eqb c "." then 1 else 0) + countDots (dropLast (String c' s')))%nat.
  change (countDots (String c (String c' s')))
    with ((if Ascii.eqb c "." then 1 else 0) + countDots (String c' s'))%nat.
  lia.
Qed.

(** X25: the numpad entry never holds two decimal separators: a key press
    on an entry with at most one separator gives an entry with at most one,
    a second separator being ignored, and deleting never adds one. *)
Theorem numpad_keeps_one_separator (customSize key : string) :
  (countDots customSize <= 1)%nat -> In key numpadKeys ->
  (countDots (handleNumpadInput customSize key) <= 1)%nat
  /\ (countDots (handleNumpadDelete customSize) <= 1)%nat
  /\ (key = "." -> (countDots customSize = 1)%nat ->
      handleNumpadInput customSize key = customSize).
Proof.
  intros H Hk. split; [|split].
  - unfold handleNumpadInput. rewrite strIncludes_dot.
    simpl in Hk.
    repeat (destruct Hk as [<- | Hk];
            [simpl; rewrite ?countDots_append; simpl; try lia;
             destruct (countDots customSize =? 0)%nat eqn:E; simpl;
             rewrite ?countDots_append; simpl;
             try apply Nat.eqb_eq in E; try lia|]).
    destruct Hk.
  - unfold handleNumpadDelete. pose proof (countDots_dropLast customSize). lia.
  - intros -> E. unfold handleNumpadInput. rewrite strIncludes_dot, E. reflexivity.
Qed.

Lemma numpad_keeps_one_separator_witness :
  (countDots "2.5" <= 1)%nat /\ In "." numpadKeys
  /\ handleNumpadInput "2.5" "." = "2.5".
Proof.
  assert (H : (countDots "2.5" <= 1)%nat) by (cbn; lia).
  assert (K : In "." numpadKeys) by (cbn; tauto).
  split; [exact H|]. split; [exact K|].
  destruct (numpad_keeps_one_separator "2.5" "." H K) as [_ [_ E]].
  apply E; reflexivity.
Defined.

(** ** The hand editor page *)

Lemma page_callers_loop_In (r : Action) (l : list Action)
      (inHand : list Position) (pos : Position) :
  In pos (fold_left
            (fun inHand a =>
               if (order a >? order r) && (isType CALL a || sizeIs a (-1))
               then
                 if negb (includes (position a) inHand)
                 then inHand ++ [position a] else inHand
               else inHand) l inHand)
  <->
  In pos inHand \/
  exists a, In a l
            /\ (order a >? order r) && (isType CALL a || sizeIs a (-1)) = true
            /\ position a = pos.
Proof.
  apply (pushing_loop_In
           (fun a => (order a >? order r) && (isType CALL a || sizeIs a (-1)))).
  intros ih a p.
  destruct ((order a >? order r) && (isType CALL a || sizeIs a (-1))).
  - rewrite push_new_In. intuition congruence.
  - intuition congruence.
Qed.

(** X26: once a preflop raise is recorded, the seats the page offers as
    winners are exactly the seats the action input offers on a postflop
    street; without a preflop raise the page offers the whole postflop order,
    folded seats included, while the action input leaves the folded out. *)
Theorem winner_seats_match_action_seats (hand : Hand.t) (s : Street) :
  s <> preflop ->
  let tableSize := Hand.tableSize hand in
  let actions := Hand.actions hand in
  ((exists a, In a (preflopActions actions) /\ type a = RAISE) ->
   HandEditor.playersInHand (Some hand) = availablePositions tableSize actions s)
  /\
  ((forall a, In a (preflopActions actions) -> type a <> RAISE) ->
   HandEditor.playersInHand (Some hand) = postflopOrder tableSize
   /\ availablePositions tableSize actions s
      = filter (fun pos => negb (includes pos (explicitlyFoldedPositions actions)))
               (postflopOrder tableSize)).
Proof.
  intros Hs tableSize actions. split.
  - intro Hex.
    destruct (some_raise_later (preflopActions actions) Hex) as [r [Hr _]].
    unfold availablePositions. rewrite (isPreflop_false s Hs).
    rewrite (playersInHand_filter tableSize actions r Hr), filter_filter.
    unfold HandEditor.playersInHand. fold tableSize actions.
    unfold preflopActions in Hr. rewrite Hr.
    apply filter_ext. intro pos. f_equal.
    apply includes_iff_eq_bool.
    rewrite allin_loop_In, page_callers_loop_In.
    unfold staysIn. rewrite !orb_true_iff, !existsb_exists, Position_eqb_eq.
    fold (preflopActions actions). split.
    + intros [[[E | []] | [a [Ha [Hc Hp]]]] | [a [Ha [Hc Hp]]]].
      * left; left. now subst.
      * apply andb_true_iff in Hc as [Ho Hc].
        apply orb_true_iff in Hc as [Hc | Hc].
        -- left; right. exists a. split; [assumption|].
           rewrite Hc, Ho. simpl. now apply Position_eqb_eq.
        -- right. exists a. split; [assumption|]. rewrite Hc. simpl.
           now apply Position_eqb_eq.
      * right. exists a. split; [assumption|]. rewrite Hc. simpl.
        now apply Position_eqb_eq.
    + intros [[E | [a [Ha H]]] | [a [Ha H]]].
      * left; left. left. now subst.
      * left; right. exists a. split; [assumption|].
        apply andb_true_iff in H as [H Hp]. apply andb_true_iff in H as [Ht Ho].
        apply Position_eqb_eq in Hp. split; [|assumption].
        rewrite Ho, Ht. reflexivity.
      * right. exists a. split; [assumption|].
        apply andb_true_iff in H as [Hz Hp]. apply Position_eqb_eq in Hp. auto.
  - intro Hno. split.
    + unfold HandEditor.playersInHand. fold tableSize actions.
      fold (preflopActions actions).
      rewrite (no_raise_filter _ Hno). reflexivity.
    + unfold availablePositions. rewrite (isPreflop_false s Hs).
      unfold playersInHand. rewrite (no_raise_filter _ Hno). reflexivity.
Qed.

Lemma winner_seats_match_action_seats_witness :
  flop <> preflop
  /\ HandEditor.playersInHand (Some sampleHand)
     = availablePositions 3 hand_btn_open flop.
Proof.
  assert (H : flop <> preflop) by discriminate.
  split; [exact H|].
  apply (proj1 (winner_seats_match_action_seats sampleHand flop H)).
  exists (mkAction "a0" 0 preflop BTN RAISE (Some 3%Q)).
  split; [left; reflexivity | reflexivity].
Defined.

Lemma indexOf_Some_split (p : Position) (l : list Position) (i : nat) :
  indexOf p l = Some i ->
  exists l1 l2,
    l = l1 ++ p :: l2 /\ ~ In p l1 /\ HandEditor.removeAt i l = l1 ++ l2.
Proof.
  revert i. induction l as [|x l IH]; intros i H; [discriminate H|].
  simpl in H. destruct (Position_eqb x p) eqn:E.
  - injection H as <-. apply Position_eqb_eq in E. subst x.
    exists [], l. repeat split. intros [].
  - destruct (indexOf p l) as [j|] eqn:Ej; [|discriminate H].
    injection H as <-. destruct (IH j eq_refl) as [l1 [l2 [E1 [N E2]]]].
    exists (x :: l1), l2. simpl. rewrite <- E1, E2. repeat split.
    apply Position_eqb_neq in E. intros [C | C]; [contradiction | now apply N].
Qed.

Lemma indexOf_None_absent (p : Position) (l : list Position) :
  indexOf p l = None -> ~ In p l.
Proof.
  induction l as [|x l IH]; simpl; [intros _ []|].
  destruct (Position_eqb x p) eqn:E; [discriminate|].
  destruct (indexOf p l); [discriminate|]. intros _ [C | C].
  - apply Position_eqb_neq in E. contradiction.
  - now apply IH.
Qed.

(** X27: on a list of winners without repetition, a tap on a seat flips
    that seat only: it becomes a winner exactly when it was none, every other
    seat stays as it was, and no seat is listed twice afterwards. *)
Theorem winner_toggle_flips_one_seat (hand : Hand.t) (pos : Position) :
  NoDup (HandResult.winnersPositions (Hand.result hand)) ->
  exists hand',
    HandEditor.handleWinnerToggle (Some hand) pos = Some hand'
    /\ NoDup (HandResult.winnersPositions (Hand.result hand'))
    /\ (In pos (HandResult.winnersPositions (Hand.result hand'))
        <-> ~ In pos (HandResult.winnersPositions (Hand.result hand)))
    /\ (forall q, q <> pos ->
                  (In q (HandResult.winnersPositions (Hand.result hand'))
                   <-> In q (HandResult.winnersPositions (Hand.result hand))))
    /\ HandResult.showdown (Hand.result hand')
       = HandResult.showdown (Hand.result hand).
Proof.
  intro Hnd. eexists. split; [reflexivity|]. cbn.
  set (w := HandResult.winnersPositions (Hand.result hand)) in *.
  destruct (indexOf pos w) as [i|] eqn:Ei.
  - destruct (indexOf_Some_split pos w i Ei) as [l1 [l2 [E [N ->]]]].
    rewrite E in Hnd. pose proof (NoDup_remove_1 _ _ _ Hnd) as Hnd'.
    pose proof (NoDup_remove_2 _ _ _ Hnd) as Hnot.
    split; [assumption|]. split; [|split; [|reflexivity]].
    + rewrite E. split; [contradiction|]. intro C. exfalso. apply C.
      apply in_elt.
    + intros q Hq. rewrite E, !in_app_iff. simpl. intuition congruence.
  - apply indexOf_None_absent in Ei.
    split; [|split; [|split; [|reflexivity]]].
    + apply NoDup_app; [assumption | repeat constructor; intros [] |].
      intros x Hx [<- | []]. contradiction.
    + rewrite in_app_iff. simpl. tauto.
    + intros q Hq. rewrite in_app_iff. simpl. intuition congruence.
Qed.

Lemma sampleHand_winners :
  NoDup (HandResult.winnersPositions (Hand.result sampleHand)).
Proof. distinct. Qed.

Lemma winner_toggle_flips_one_seat_witness :
  NoDup (HandResult.winnersPositions (Hand.result sampleHand))
  /\ exists hand',
       HandEditor.handleWinnerToggle (Some sampleHand) BB = Some hand'
       /\ NoDup (HandResult.winnersPositions (Hand.result hand')).
Proof.
  split; [exact sampleHand_winners|].
  destruct (winner_toggle_flips_one_seat sampleHand BB sampleHand_winners)
    as [hand' [E [N _]]].
  exists hand'. split; [exact E | exact N].
Defined.

Lemma getSeat_setSeat_same {V} (k : Position) (v : V) (m : BySeat V) :
  getSeat k (setSeat k v m) = Some v.
Proof.
  induction m as [|[k' v'] m IH]; simpl.
  - now rewrite Position_eqb_refl.
  - destruct (Position_eqb k' k) eqn:E; simpl; rewrite E; [reflexivity | exact IH].
Qed.

Lemma getSeat_setSeat_other {V} (k q : Position) (v : V) (m : BySeat V) :
  q <> k -> getSeat q (setSeat k v m) = getSeat q m.
Proof.
  intro H. induction m as [|[k' v'] m IH]; simpl.
  - assert (E : Position_eqb k q = false) by (apply Position_eqb_neq; congruence).
    now rewrite E.
  - destruct (Position_eqb k' k) eqn:E; simpl.
    + apply Position_eqb_eq in E. subst k'.
      assert (E' : Position_eqb k q = false) by (apply Position_eqb_neq; congruence).
      now rewrite E'.
    + destruct (Position_eqb k' q); [reflexivity | exact IH].
Qed.

Lemma getSeat_map {V} (g : V -> V) (q : Position) (m : BySeat V) :
  getSeat q (map (fun kv => (fst kv, g (snd kv))) m) = option_map g (getSeat q m).
Proof.
  induction m as [|[k v] m IH]; simpl; [reflexivity|].
  destruct (Position_eqb k q); [reflexivity | exact IH].
Qed.

(** What [handleSetHero] does to every entry before it marks the seat. *)
Lemma clear_hero_flags (m : BySeat TableAssignment.t) :
  map (fun kv =>
         if match TableAssignment.isHero (snd kv) with
            | Some b => b
            | None => false
            end
         then (fst kv,
               TableAssignment.mk (TableAssignment.playerId (snd kv)) (Some false)
                                  (TableAssignment.stackBb (snd kv)))
         else kv) m
  = map (fun kv => (fst kv, clearHero (snd kv))) m.
Proof.
  apply map_ext. intros [k a]. unfold clearHero. simpl.
  destruct (TableAssignment.isHero a) as [[|]|]; reflexivity.
Qed.

(** X28: after a seat is made hero, the hero position is that seat, its
    assignment carries the hero flag, no other seat carries it whatever the
    flags were before, and every seat keeps its player and stack. *)
Theorem set_hero_leaves_one_hero (hand : Hand.t) (pos : Position) :
  exists hand',
    HandEditor.handleSetHero (Some hand) pos = Some hand'
    /\ Hand.heroPosition hand' = pos
    /\ (exists a, getSeat pos (Hand.tableAssignments hand') = Some a
                  /\ TableAssignment.isHero a = Some true)
    /\ (forall q a, q <> pos ->
                    getSeat q (Hand.tableAssignments hand') = Some a ->
                    TableAssignment.isHero a <> Some true)
    /\ (forall q a, getSeat q (Hand.tableAssignments hand) = Some a ->
                    exists a', getSeat q (Hand.tableAssignments hand') = Some a'
                               /\ TableAssignment.playerId a'
                                  = TableAssignment.playerId a
                               /\ TableAssignment.stackBb a'
                                  = TableAssignment.stackBb a).
Proof.
  eexists. split; [reflexivity|]. cbn [Hand.heroPosition Hand.tableAssignments
                                       HandEditor.withTable].
  rewrite clear_hero_flags.
  set (m := map _ (Hand.tableAssignments hand)).
  split; [reflexivity|]. split; [|split].
  - eexists. split; [apply getSeat_setSeat_same | reflexivity].
  - intros q a Hq Ha. rewrite getSeat_setSeat_other in Ha by assumption.
    unfold m in Ha. rewrite getSeat_map in Ha.
    destruct (getSeat q (Hand.tableAssignments hand)) as [a0|]; [|discriminate Ha].
    simpl in Ha. injection Ha as <-. unfold clearHero.
    destruct (TableAssignment.isHero a0) as [[|]|] eqn:E; simpl;
      rewrite ?E; discriminate.
  - intros q a Ha.
    assert (Hm : getSeat q m = Some (clearHero a)).
    { unfold m. now rewrite getSeat_map, Ha. }
    assert (Hc : TableAssignment.playerId (clearHero a) = TableAssignment.playerId a
                 /\ TableAssignment.stackBb (clearHero a) = TableAssignment.stackBb a).
    { unfold clearHero. destruct (TableAssignment.isHero a) as [[|]|]; split; reflexivity. }
    destruct (Position_eqb q pos) eqn:E.
    + apply Position_eqb_eq in E. subst q. eexists.
      split; [apply getSeat_setSeat_same|]. rewrite Hm. simpl. exact Hc.
    + apply Position_eqb_neq in E. exists (clearHero a).
      split; [|exact Hc]. now rewrite getSeat_setSeat_other.
Qed.

Lemma setSeat_fresh {V} (k : Position) (v : V) (m : BySeat V) :
  ~ In k (map fst m) -> setSeat k v m = m ++ [(k, v)].
Proof.
  induction m as [|[k' v'] m IH]; simpl; intro H; [reflexivity|].
  assert (E : Position_eqb k' k = false).
  { apply Position_eqb_neq. intro C. apply H. now left. }
  rewrite E, IH; [reflexivity|]. intro C. apply H. now right.
Qed.

Lemma seats_built {V} (g : Position -> V) (l : list Position) (acc : BySeat V) :
  NoDup l -> (forall p, In p l -> ~ In p (map fst acc)) ->
  fold_left (fun m pos => setSeat pos (g pos) m) l acc
  = acc ++ map (fun p => (p, g p)) l.
Proof.
  intro Hnd. revert acc. induction Hnd as [|x l Hx Hl IH]; intros acc Hacc; simpl.
  - now rewrite app_nil_r.
  - rewrite setSeat_fresh by (apply Hacc; now left).
    rewrite IH.
    + now rewrite <- app_assoc.
    + intros p Hp. rewrite map_app, in_app_iff. simpl.
      intros [C | [C | []]].
      * apply (Hacc p); [now right | assumption].
      * subst. contradiction.
Qed.

Lemma getSeat_built {V} (g : Position -> V) (l : list Position) (q : Position) :
  In q l -> getSeat q (map (fun p => (p, g p)) l) = Some (g q).
Proof.
  induction l as [|x l IH]; intro H; [destruct H|]. simpl.
  destruct (Position_eqb x q) eqn:E.
  - apply Position_eqb_eq in E. now subst.
  - apply IH. destruct H as [C | H]; [|assumption].
    apply Position_eqb_neq in E. contradiction.
Qed.

Lemma page_positions_facts (size : Z) :
  NoDup (HandEditor.positions size) /\ In BTN (HandEditor.positions size).
Proof.
  unfold HandEditor.positions.
  destruct (Z_lt_le_dec size 2) as [H | H].
  { rewrite POSITIONS_BY_TABLE_SIZE_out by lia. simpl.
    split; [repeat constructor; simpl; intuition discriminate | tauto]. }
  destruct (Z_lt_le_dec 9 size) as [H' | H'].
  { rewrite POSITIONS_BY_TABLE_SIZE_out by lia. simpl.
    split; [repeat constructor; simpl; intuition discriminate | tauto]. }
  assert (E : size = 2 \/ size = 3 \/ size = 4 \/ size = 5
              \/ size = 6 \/ size = 7 \/ size = 8 \/ size = 9) by lia.
  repeat (destruct E as [-> | E];
          [split; simpl; [repeat constructor; simpl; intuition discriminate | tauto]|]).
  subst. split; simpl; [repeat constructor; simpl; intuition discriminate | tauto].
Qed.

Lemma reseat_fold (old : BySeat TableAssignment.t) (l : list Position) :
  NoDup l ->
  fold_left
    (fun newAssignments pos =>
       match getSeat pos old with
       | Some assignment => setSeat pos assignment newAssignments
       | None => setSeat pos TableAssignment.empty newAssignments
       end) l []
  = map (fun p => (p, orElse (getSeat p old) TableAssignment.empty)) l.
Proof.
  intro Hnd.
  rewrite <- (app_nil_l (map _ l)).
  rewrite <- (seats_built (fun p => orElse (getSeat p old) TableAssignment.empty)
                          l [] Hnd) by (intros p _ []).
  generalize (@nil (Position * TableAssignment.t)).
  induction l as [|x l IH]; intro acc; simpl; [reflexivity|].
  inversion Hnd as [|y l' Hy Hl]; subst. rewrite (IH Hl).
  destruct (getSeat x old); reflexivity.
Qed.

(** X29: after a change of table size, for any size, the assignments have
    exactly the seats of the new seat list as keys, each holding the
    assignment it had or an empty one; the hero position is a seat of the new
    list (unchanged if it still exists, BTN otherwise); the recorded actions
    are untouched; and the size is stored as the last table size when the
    write goes through. *)
Theorem table_size_change_reseats
        (hand : Hand.t) (ls : Storage.LocalStorage) (size : Z) :
  exists hand',
    fst (HandEditor.handleTableSizeChange (Some hand) ls size) = Some hand'
    /\ Hand.tableSize hand' = size
    /\ map fst (Hand.tableAssignments hand') = HandEditor.positions size
    /\ (forall q, In q (HandEditor.positions size) ->
                  getSeat q (Hand.tableAssignments hand')
                  = Some (orElse (getSeat q (Hand.tableAssignments hand))
                                 TableAssignment.empty))
    /\ In (Hand.heroPosition hand') (HandEditor.positions size)
    /\ (In (Hand.heroPosition hand) (HandEditor.positions size) ->
        Hand.heroPosition hand' = Hand.heroPosition hand)
    /\ Hand.actions hand' = Hand.actions hand
    /\ (Storage.quotaExceeded ls = false ->
        AppSettings.lastTableSize
          (Storage.getSettings
             (snd (HandEditor.handleTableSizeChange (Some hand) ls size)))
        = size).
Proof.
  destruct (page_positions_facts size) as [Hnd Hbtn].
  eexists. split; [reflexivity|].
  cbn [Hand.tableSize Hand.tableAssignments Hand.heroPosition Hand.actions
       HandEditor.withTable].
  rewrite (reseat_fold (Hand.tableAssignments hand) (HandEditor.positions size) Hnd).
  split; [reflexivity|]. split; [|split; [|split; [|split; [|split]]]].
  - rewrite map_map. simpl. apply map_id.
  - intros q Hq.
    exact (getSeat_built
             (fun p => orElse (getSeat p (Hand.tableAssignments hand))
                              TableAssignment.empty)
             (HandEditor.positions size) q Hq).
  - destruct (includes (Hand.heroPosition hand) (HandEditor.positions size)) eqn:E;
      simpl; [now apply includes_In | assumption].
  - intro H. apply includes_In in H. now rewrite H.
  - reflexivity.
  - intro Hq. unfold HandEditor.handleTableSizeChange. cbn [snd].
    unfold Storage.saveSettings, Storage.setSettingsItem.
    rewrite Hq. reflexivity.
Qed.

(** *** Cards *)

Lemma concat_pairs (l : list (option Card * option Card)) :
  concat (flat_map (fun oc => [HandEditor.pushIf (fst oc); HandEditor.pushIf (snd oc)]) l)
  = flat_map (fun oc => HandEditor.pushIf (fst oc) ++ HandEditor.pushIf (snd oc)) l.
Proof.
  induction l as [|oc l IH]; simpl; [reflexivity|].
  now rewrite IH, <- app_assoc.
Qed.

Lemma used_parts (hand : Hand.t) :
  HandEditor.getUsedCards (Some hand) = concat (cardParts hand).
Proof.
  unfold HandEditor.getUsedCards, cardParts.
  destruct (Board.flop (Hand.board hand)) as [[f0 f1] f2].
  rewrite concat_app, concat_pairs. simpl. rewrite !app_nil_r, <- !app_assoc.
  destruct (Hand.opponentHands hand); reflexivity.
Qed.

Lemma NoDup_drop_middle {A} (pre old post : list A) :
  NoDup (pre ++ old ++ post) -> NoDup (pre ++ post).
Proof.
  induction pre as [|x pre IH]; simpl; intro H.
  - now apply NoDup_app_remove_l in H.
  - inversion H as [|y l Hy Hl]; subst. constructor; [|now apply IH].
    intro C. apply Hy. rewrite !in_app_iff in *. tauto.
Qed.

Lemma parts_replace (l1 l2 : list (list Card)) (x : list Card) (c : Card) :
  NoDup (concat (l1 ++ x :: l2)) -> ~ In c (concat (l1 ++ x :: l2)) ->
  NoDup (concat (l1 ++ [c] :: l2)).
Proof.
  rewrite !concat_app. simpl. intros H N.
  apply NoDup_drop_middle in H.
  apply (Permutation_NoDup (Permutation_middle _ _ c)).
  constructor; [|assumption].
  intro C. apply N. rewrite !in_app_iff in *. tauto.
Qed.

Lemma parts_append (l : list (list Card)) (c : Card) (tail : list (list Card)) :
  concat tail = [c] ->
  NoDup (concat l) -> ~ In c (concat l) -> NoDup (concat (l ++ tail)).
Proof.
  intros E H N. rewrite concat_app, E.
  apply (Permutation_NoDup (Permutation_cons_append _ c)).
  now constructor.
Qed.

Lemma pushIf_card (c : Card) : c <> "" -> HandEditor.pushIf (Some c) = [c].
Proof.
  intro H. unfold HandEditor.pushIf, truthy.
  apply String.eqb_neq in H. now rewrite H.
Qed.

Lemma setSeat_present {V} (k : Position) (v v' : V) (m : BySeat V) :
  getSeat k m = Some v ->
  exists m1 m2 k',
    m = m1 ++ (k', v) :: m2 /\ setSeat k v' m = m1 ++ (k', v') :: m2.
Proof.
  induction m as [|[k0 v0] m IH]; simpl; [discriminate|].
  destruct (Position_eqb k0 k).
  - intro H. injection H as ->. exists [], m, k0. split; reflexivity.
  - intro H. destruct (IH H) as [m1 [m2 [k' [E1 E2]]]].
    exists ((k0, v0) :: m1), m2, k'. simpl. now rewrite <- E1, E2.
Qed.

Lemma setSeat_absent {V} (k : Position) (v' : V) (m : BySeat V) :
  getSeat k m = None -> setSeat k v' m = m ++ [(k, v')].
Proof.
  induction m as [|[k0 v0] m IH]; simpl; [reflexivity|].
  destruct (Position_eqb k0 k); [discriminate|].
  intro H. now rewrite IH.
Qed.

(** Bring a hand built by a handler to its card parts. *)
Ltac show_parts :=
  cbv beta zeta; cbn [fst Hand.board Board.flop]; rewrite used_parts;
  unfold cardParts;
  cbn [HandEditor.withHeroCards HandEditor.withBoard HandEditor.withOpponentHands
       HandEditor.setSlot Hand.board Hand.heroCards Hand.opponentHands
       Board.flop Board.turn Board.river fst snd].

Lemma card_entry_keeps_cards_distinct
      (hand : Hand.t) (entry : HandEditor.Entry) (card : Card) :
  card <> "" ->
  ~ In card (HandEditor.getUsedCards (Some hand)) ->
  NoDup (HandEditor.getUsedCards (Some hand)) ->
  NoDup (HandEditor.getUsedCards
           (fst (HandEditor.handleCardSelect (Some hand) entry card))).
Proof.
  intros Hc Hfresh Hnd.
  destruct entry as [mode hslot bslot oslot].
  unfold HandEditor.handleCardSelect.
  cbn [HandEditor.inputMode HandEditor.heroCardSlot HandEditor.boardSlot
       HandEditor.opponentCardSlot].
  rewrite used_parts in Hfresh, Hnd.
  destruct hand as [hid hstatus hcreated hupdated hsize hblind hhero
                        [h0 h1] hassign [[[f0 f1] f2] t r] hactions hresult
                        hopp hmemo].
  unfold cardParts in Hfresh, Hnd.
  cbn [Hand.board Hand.heroCards Hand.opponentHands Board.flop Board.turn
       Board.river fst snd] in Hfresh, Hnd.
  destruct mode.
  - show_parts. exact Hnd.
  - destruct hslot; show_parts; rewrite (pushIf_card card Hc).
    + apply (parts_replace [_] _ (HandEditor.pushIf h1) card); assumption.
    + apply (parts_replace [] _ (HandEditor.pushIf h0) card); assumption.
  - destruct bslot as [slot|]; [|show_parts; exact Hnd].
    destruct slot; show_parts; rewrite (pushIf_card card Hc).
    + apply (parts_replace [_; _] _ (HandEditor.pushIf f0) card); assumption.
    + apply (parts_replace [_; _; _] _ (HandEditor.pushIf f1) card); assumption.
    + apply (parts_replace [_; _; _; _] _ (HandEditor.pushIf f2) card); assumption.
    + apply (parts_replace [_; _; _; _; _] _ (HandEditor.pushIf t) card); assumption.
    + apply (parts_replace [_; _; _; _; _; _] _ (HandEditor.pushIf r) card);
        assumption.
  - destruct oslot as [[pos slot]|]; [|show_parts; exact Hnd].
    match type of Hnd with
    | context [map snd ?M] => revert Hfresh Hnd; set (m := M); intros Hfresh Hnd
    end.
    destruct (getSeat pos m) as [[c0 c1]|] eqn:Eg.
    + destruct (setSeat_present pos (c0, c1)
                                (HandEditor.setSlot (c0, c1) slot card) m Eg)
        as [m1 [m2 [k' [E1 E2]]]].
      show_parts.
      match goal with |- context [getSeat pos ?M] => change M with m end.
      rewrite Eg. cbn [orElse]. rewrite E2.
      rewrite E1 in Hfresh, Hnd.
      rewrite map_app, flat_map_app in Hfresh, Hnd |- *.
      cbn [map flat_map snd fst] in Hfresh, Hnd |- *.
      destruct slot; cbn [HandEditor.setSlot fst snd];
        rewrite (pushIf_card card Hc).
      * match goal with
        | |- NoDup (concat (?P ++ ?Q1 ++ [?a; [card]] ++ ?Q2)) =>
            replace (P ++ Q1 ++ [a; [card]] ++ Q2)
              with ((P ++ Q1 ++ [a]) ++ [card] :: Q2)
              by (rewrite <- !app_assoc; reflexivity);
            apply (parts_replace _ _ (HandEditor.pushIf c1) card);
            (replace ((P ++ Q1 ++ [a]) ++ HandEditor.pushIf c1 :: Q2)
               with (P ++ Q1 ++ [a; HandEditor.pushIf c1] ++ Q2)
               by (rewrite <- !app_assoc; reflexivity)); assumption
        end.
      * match goal with
        | |- NoDup (concat (?P ++ ?Q1 ++ [[card]; ?b] ++ ?Q2)) =>
            replace (P ++ Q1 ++ [[card]; b] ++ Q2)
              with ((P ++ Q1) ++ [card] :: b :: Q2)
              by (rewrite <- !app_assoc; reflexivity);
            apply (parts_replace _ _ (HandEditor.pushIf c0) card);
            (replace ((P ++ Q1) ++ HandEditor.pushIf c0 :: b :: Q2)
               with (P ++ Q1 ++ [HandEditor.pushIf c0; b] ++ Q2)
               by (rewrite <- !app_assoc; reflexivity)); assumption
        end.
    + show_parts.
      match goal with |- context [getSeat pos ?M] => change M with m end.
      rewrite Eg. cbn [orElse].
      rewrite (setSeat_absent pos _ m Eg).
      rewrite map_app, flat_map_app, app_assoc.
      apply (parts_append _ card); [|assumption|assumption].
      cbn [map flat_map snd fst app concat].
      destruct slot; cbn [HandEditor.setSlot fst snd];
        rewrite (pushIf_card card Hc); reflexivity.
Qed.

Lemma suit_click_gives_unused_card
      (usedCards : list Card) (selectedRank : option string) (suit : string)
      (card : Card) :
  fst (CardInput.handleSuitClick usedCards selectedRank suit) = Some card ->
  card <> "" /\ ~ In card usedCards.
Proof.
  unfold CardInput.handleSuitClick. destruct selectedRank as [rank|]; [|discriminate].
  destruct (negb (truthy (Some rank))) eqn:Et; [discriminate|].
  destruct (CardInput.isCardUsed usedCards rank suit) eqn:Eu; [discriminate|].
  simpl. intro H. injection H as <-. split.
  - apply negb_false_iff in Et. simpl in Et. apply negb_true_iff in Et.
    apply String.eqb_neq in Et. destruct rank; [contradiction | discriminate].
  - intro C. unfold CardInput.isCardUsed in Eu.
    assert (T : existsb (String.eqb (String.append rank suit)) usedCards = true).
    { apply existsb_exists. exists (String.append rank suit).
      split; [assumption | apply String.eqb_refl]. }
    congruence.
Qed.

(** X30: entering cards through the card pad never makes a card appear
    twice in a hand: if the used cards of the hand are pairwise distinct,
    they still are after the card the pad hands over is put into the hero,
    board or opponent slot that is open, whatever that slot held. *)
Theorem card_pad_keeps_cards_distinct
        (hand : Hand.t) (entry : HandEditor.Entry)
        (selectedRank : option string) (suit : string) (card : Card) :
  NoDup (HandEditor.getUsedCards (Some hand)) ->
  fst (CardInput.handleSuitClick (HandEditor.getUsedCards (Some hand))
                                 selectedRank suit) = Some card ->
  NoDup (HandEditor.getUsedCards
           (fst (HandEditor.handleCardSelect (Some hand) entry card)))
  /\ ~ In card (HandEditor.getUsedCards (Some hand)).
Proof.
  intros Hnd Hclick.
  destruct (suit_click_gives_unused_card _ _ _ _ Hclick) as [Hc Hfresh].
  split; [now apply card_entry_keeps_cards_distinct | assumption].
Qed.

Lemma sampleHand_cards : NoDup (HandEditor.getUsedCards (Some sampleHand)).
Proof. distinct. Qed.

Lemma card_pad_keeps_cards_distinct_witness :
  NoDup (HandEditor.getUsedCards (Some sampleHand))
  /\ fst (CardInput.handleSuitClick (HandEditor.getUsedCards (Some sampleHand))
                                    (Some "A") "h") = Some "Ah"
  /\ NoDup (HandEditor.getUsedCards
              (fst (HandEditor.handleCardSelect (Some sampleHand) flopEntry "Ah"))).
Proof.
  split; [exact sampleHand_cards|]. split; [reflexivity|].
  exact (proj1 (card_pad_keeps_cards_distinct sampleHand flopEntry (Some "A") "h"
                                              "Ah" sampleHand_cards eq_refl)).
Defined.
